(** * Singing Flower: the simulation core, embedded and verified

    Shallow embedding of the TypeScript sources

    - [StateMachine]      (StateMachine.ts)
    - [GrowthController]  (GrowthController.ts)
    - [AudioAnalyzer]     (AudioAnalyzer.ts, the pitch estimator)
    - [ParticleSystem]    (ParticleSystem.ts)
    - [RoseCurve]         (RoseCurve.ts)

    A JavaScript [number] that the code only adds, multiplies, divides by a
    non-zero constant and compares is a rational ([Q]); the modules below
    that use it this way compute.  Code that calls [Math.sqrt], [Math.cos]
    or [Math.sin] is embedded over the real numbers ([R]).  The two
    divisions of the sources whose divisor can be zero on finite inputs are
    embedded with [JS.number], which has the IEEE infinities and NaN.

    These modules leave the rounding and the range of double precision
    arithmetic out.  Where a property depends on them, the code is embedded
    once more:

    - [GrowthController64] evaluates the growth speed with every operation
      rounded to the nearest double ([Binary64]);
    - [RoseCurve64] gives the methods of RoseCurve.ts the range of a
      double ([Double]): a result too large is an infinity. *)

From Stdlib Require Import ZArith QArith Qabs Qround Qminmax Qpower.
From Stdlib Require Import String.
From Stdlib Require Import List Bool Reals.
From Stdlib Require Import Lia Lra Lqa Psatz.
Import ListNotations.

(* ================================================================== *)
(** * StateMachine.ts *)
(* ================================================================== *)

Module StateMachine.
Local Open Scope Q_scope.

(** [enum GrowthState] of types.ts. *)
Inductive GrowthState : Set := SEED | SPROUT | STEM | BLOOM | SCATTER.

(** The constant table [THRESHOLDS]. *)
Module THRESHOLDS.
Definition SEED_TO_SPROUT_VOLUME : Q := 30.
Definition BLOOM_TO_SCATTER_VOLUME : Q := 70.
Definition SPROUT_TO_STEM_LENGTH : Q := 100.
Definition STEM_TO_BLOOM_LENGTH : Q := 300.
End THRESHOLDS.

(** The object: one private field. *)
Record t : Set := mk { currentState : GrowthState }.

(** [constructor()] *)
Definition new : t := mk SEED.

(** [getCurrentState()] *)
Definition getCurrentState (this : t) : GrowthState := currentState this.

(** JavaScript [a >= b] on finite numbers. *)
Definition geq (a b : Q) : bool := Qle_bool b a.

(** [update(volume, growthProgress)]: the [switch] on the current state. *)
Definition update (this : t) (volume growthProgress : Q) : t :=
  match currentState this with
  | SEED =>
      if geq volume THRESHOLDS.SEED_TO_SPROUT_VOLUME then mk SPROUT else this
  | SPROUT =>
      if geq growthProgress THRESHOLDS.SPROUT_TO_STEM_LENGTH then mk STEM else this
  | STEM =>
      if geq growthProgress THRESHOLDS.STEM_TO_BLOOM_LENGTH then mk BLOOM else this
  | BLOOM =>
      if geq volume THRESHOLDS.BLOOM_TO_SCATTER_VOLUME then mk SCATTER else this
  | SCATTER => this
  end.

(** [reset()] *)
Definition reset (this : t) : t := mk SEED.

(** The order of the growth stages, used to state "one step at most". *)
Definition rank (s : GrowthState) : nat :=
  match s with SEED => 0 | SPROUT => 1 | STEM => 2 | BLOOM => 3 | SCATTER => 4 end.

(** [update] called once per frame with the successive
    [(volume, growthProgress)] pairs of [inputs]. *)
Definition updates (this : t) (inputs : list (Q * Q)) : t :=
  fold_left (fun s input => update s (fst input) (snd input)) inputs this.

End StateMachine.

(* ================================================================== *)
(** * GrowthController.ts *)
(* ================================================================== *)

Module GrowthController.
Local Open Scope Q_scope.

(** [interface GrowthParameters] of types.ts. *)
Record GrowthParameters : Set := mkParams {
  growthSpeed : Q;
  swayAmount : Q;
  colorHue : Q;
  colorSaturation : Q;
  colorLightness : Q
}.

(** The object: [basePitch], initially 300. *)
Record t : Set := mk { basePitch : Q }.

Definition new : t := mk 300.

(** JavaScript [a <= b] and [a >= b] on finite numbers. *)
Definition leq (a b : Q) : bool := Qle_bool a b.
Definition geq (a b : Q) : bool := Qle_bool b a.

Definition calculateGrowthSpeed (volume : Q) : Q :=
  let normalizedVolume := volume / 100 in
  let easedVolume :=
    normalizedVolume * normalizedVolume * (3 - 2 * normalizedVolume) in
  1 + easedVolume * 2.

Definition calculateSwayAmount (this : t) (pitch : Q) : Q :=
  (pitch - basePitch this) / 100.

Definition calculateColorHue (pitch : Q) : Q :=
  if leq pitch 200 then 120
  else if geq pitch 400 then 180
  else 120 + ((pitch - 200) / 200) * 60.

Definition calculateColorSaturation (pitch : Q) : Q :=
  if leq pitch 200 then 50
  else if geq pitch 400 then 80
  else 50 + ((pitch - 200) / 200) * 30.

Definition calculateColorLightness (pitch : Q) : Q :=
  let lightness := 30 + pitch / 10 in
  Qmax 30 (Qmin 70 lightness).

(** [update(volume, pitch, deltaTime)]; [deltaTime] is not read. *)
Definition update (this : t) (volume pitch deltaTime : Q) : GrowthParameters :=
  {| growthSpeed := calculateGrowthSpeed volume;
     swayAmount := calculateSwayAmount this pitch;
     colorHue := calculateColorHue pitch;
     colorSaturation := calculateColorSaturation pitch;
     colorLightness := calculateColorLightness pitch |}.

Definition setBasePitch (this : t) (pitch : Q) : t := mk pitch.
Definition getBasePitch (this : t) : Q := basePitch this.

End GrowthController.

(* ================================================================== *)
(** * AudioAnalyzer.ts: the pitch estimator *)
(* ================================================================== *)

Module AudioAnalyzer.
Local Open Scope Q_scope.

(** JavaScript [a < b] and [a > b] on finite numbers. *)
Definition ltb (a b : Q) : bool := negb (Qle_bool b a).
Definition gtb (a b : Q) : bool := negb (Qle_bool a b).

(** ** Storing into a [Float32Array]

    A store rounds to single precision: 24 significant bits, ties to even,
    smallest unit [2^-149].  Overflow to infinity is left out: the values
    stored here are bounded by the length of the buffer. *)

(** [floor (log2 a)] for [0 < a]. *)
Definition Qlog2 (a : Q) : Z :=
  let e0 := (Z.log2 (Qnum a) - Z.log2 (Zpos (Qden a)))%Z in
  if Qle_bool (Qpower 2 e0) a then e0 else (e0 - 1)%Z.

(** The nearest integer to [0 <= m], ties to even. *)
Definition roundEven (m : Q) : Z :=
  let f := Qfloor m in
  let rem := m - inject_Z f in
  if ltb rem (1 # 2) then f
  else if gtb rem (1 # 2) then (f + 1)%Z
  else if Z.even f then f else (f + 1)%Z.

Definition fround (q : Q) : Q :=
  if Qeq_bool q 0 then 0
  else
    let a := Qabs q in
    let u := Z.max (Qlog2 a - 23) (-149) in
    let m := roundEven (a / Qpower 2 u) in
    let r := Qred (inject_Z m * Qpower 2 u) in
    if ltb q 0 then - r else r.

(** ** [autoCorrelate(buffer, sampleRate)]

    [buffer] is a [Uint8Array]: a list of integers in [0, 255]. *)

(** [normalized[i] = (buffer[i] - 128) / 128], stored in a [Float32Array]. *)
Definition normalize (buffer : list Z) : list Q :=
  map (fun b => fround ((inject_Z b - 128) / 128)) buffer.

(** The silence check's loop: [sum += Math.abs(normalized[i])].  [Qred]
    keeps the fraction in lowest terms and does not change its value. *)
Definition sumAbs (normalized : list Q) : Q :=
  fold_left (fun sum x => Qred (sum + Qabs x)) normalized 0.

(** The inner loop at one lag, [ys] being [normalized] from index [lag] on:
    [correlation += normalized[i] * normalized[i + lag]] for
    [i < normalized.length - lag]. *)
Fixpoint dot (xs ys : list Q) (correlation : Q) : Q :=
  match xs, ys with
  | x :: xs', y :: ys' => dot xs' ys' (Qred (correlation + x * y))
  | _, _ => correlation
  end.

(** The outer loop: [correlations[lag] = correlation], a [Float32Array]. *)
Definition correlate (normalized : list Q) : list Q :=
  map (fun lag => fround (dot normalized (skipn lag normalized) 0))
      (seq 0 (length normalized)).

(** The three variables of the peak search. *)
Record Search : Set := mkSearch {
  maxCorrelation : Q;
  bestLag : Z;
  foundPeak : bool
}.

(** [correlations[lag]]; reading outside the array gives [undefined]. *)
Definition lookup (correlations : list Q) (lag : Z) : option Q :=
  if (lag <? 0)%Z then None else nth_error correlations (Z.to_nat lag).

(** One iteration of the search; [undefined > maxCorrelation] is false. *)
Definition visit (correlations : list Q) (s : Search) (lag : Z) : Search :=
  match lookup correlations lag with
  | Some c => if gtb c (maxCorrelation s) then mkSearch c lag true else s
  | None => s
  end.

(** The values of [lag] in [for (lag = minLag; lag < upper; lag++)]. *)
Definition lags (minLag upper : Z) : list Z :=
  map (fun i => (minLag + Z.of_nat i)%Z) (seq 0 (Z.to_nat (upper - minLag))).

Definition autoCorrelate (buffer : list Z) (sampleRate : Q) : Q :=
  let normalized := normalize buffer in
  let sum := sumAbs normalized in
  if ltb sum (1 # 100) then 0
  else
    let correlations := correlate normalized in
    let minLag := Qfloor (sampleRate / 1000) in
    let maxLag := Qfloor (sampleRate / 80) in
    let upper := Z.min maxLag (Z.of_nat (length correlations)) in
    let s := fold_left (visit correlations) (lags minLag upper)
                       (mkSearch 0 0 false) in
    if negb (foundPeak s) || (bestLag s =? 0)%Z then 0
    else sampleRate / inject_Z (bestLag s).

(** The total distance of the samples of a byte buffer from the centre
    value 128, in steps of the 8-bit scale. *)
Definition deviation (buffer : list Z) : Z :=
  fold_right (fun b total => (Z.abs (b - 128) + total)%Z) 0%Z buffer.

(** The peak search of [autoCorrelate] on its own: the loop over the lags
    from the initial values of its three variables. *)
Definition peakSearch (correlations : list Q) (minLag upper : Z) : Search :=
  fold_left (visit correlations) (lags minLag upper) (mkSearch 0 0 false).

(** The quantity named by the specification: the mean of the absolute
    normalized samples. *)
Definition meanAbs (buffer : list Z) : Q :=
  sumAbs (normalize buffer) / inject_Z (Z.of_nat (length buffer)).

(** A buffer of 1024 samples, all at the centre value 128 except samples 0
    and 100, which are one step above it. *)
Definition twoBlips : list Z :=
  129%Z :: repeat 128%Z 99 ++ 129%Z :: repeat 128%Z 923.

End AudioAnalyzer.

(* ================================================================== *)
(** * Binary64: the arithmetic of a JavaScript number *)
(* ================================================================== *)

Module Binary64.
Local Open Scope Q_scope.

(** The nearest double to a rational: 53 significant bits, ties to even,
    smallest unit [2^-1074]. *)
Definition rnd (q : Q) : Q :=
  if Qeq_bool q 0 then 0
  else
    let a := Qabs q in
    let u := Z.max (AudioAnalyzer.Qlog2 a - 52) (-1074) in
    let m := AudioAnalyzer.roundEven (a / Qpower 2 u) in
    let r := Qred (inject_Z m * Qpower 2 u) in
    if AudioAnalyzer.ltb q 0 then - r else r.

(** Half-way between the largest double and [2^1024]: an exact result of
    this magnitude or more rounds to an infinity. *)
Definition limit : Q := inject_Z ((2 ^ 54 - 1) * 2 ^ 970).

(** The double for an exact result; [None] when it is not finite. *)
Definition number (q : Q) : option Q :=
  if AudioAnalyzer.ltb (Qabs q) limit then Some (rnd q) else None.

(** [a + b], [a - b], [a * b] and [a / b] on finite doubles. *)
Definition add (a b : Q) : option Q := number (a + b).
Definition sub (a b : Q) : option Q := number (a - b).
Definition mul (a b : Q) : option Q := number (a * b).
Definition div (a b : Q) : option Q :=
  if Qeq_bool b 0 then None else number (a / b).

(** An operand that is not finite makes the result not finite: each of the
    expressions below is a sum or a product of finite constants and earlier
    results, which turns an infinity into an infinity or NaN. *)
Definition bind {A B : Type} (m : option A) (k : A -> option B) : option B :=
  match m with Some a => k a | None => None end.

End Binary64.

(* ================================================================== *)
(** * GrowthController.ts: the growth speed as it is computed *)
(* ================================================================== *)

Module GrowthController64.
Import Binary64.
Local Open Scope Q_scope.

Local Notation "x <- m ;; k" := (bind m (fun x => k))
  (at level 61, m at next level, right associativity).

(** [calculateGrowthSpeed(volume)] with every operation rounded, in the
    order of the source: [normalizedVolume * normalizedVolume * (3 - 2 *
    normalizedVolume)], then [1 + easedVolume * 2]. *)
Definition calculateGrowthSpeed (volume : Q) : option Q :=
  normalizedVolume <- div volume 100 ;;
  square <- mul normalizedVolume normalizedVolume ;;
  twice <- mul 2 normalizedVolume ;;
  rest <- sub 3 twice ;;
  easedVolume <- mul square rest ;;
  doubled <- mul easedVolume 2 ;;
  add 1 doubled.

End GrowthController64.

(* ================================================================== *)
(** * JavaScript numbers with the IEEE special values *)
(* ================================================================== *)

Module JS.
Local Open Scope R_scope.

(** A finite number (idealised as a real), an infinity, or NaN.  The sign
    of zero is not tracked: zero is [+0]. *)
Inductive number : Type :=
  | Fin (x : R)
  | PosInf
  | NegInf
  | NaN.

Definition sign_inf (positive : bool) : number :=
  if positive then PosInf else NegInf.

(** [a / b] *)
Definition div (a b : number) : number :=
  match a, b with
  | NaN, _ | _, NaN => NaN
  | Fin x, Fin y =>
      if Req_dec_T y 0 then
        if Req_dec_T x 0 then NaN
        else if Rlt_dec 0 x then PosInf else NegInf
      else Fin (x / y)
  | Fin _, (PosInf | NegInf) => Fin 0
  | PosInf, Fin y => if Rlt_dec y 0 then NegInf else PosInf
  | NegInf, Fin y => if Rlt_dec y 0 then PosInf else NegInf
  | (PosInf | NegInf), (PosInf | NegInf) => NaN
  end.

(** [a * b] *)
Definition mul (a b : number) : number :=
  match a, b with
  | NaN, _ | _, NaN => NaN
  | Fin x, Fin y => Fin (x * y)
  | Fin x, PosInf | PosInf, Fin x =>
      if Req_dec_T x 0 then NaN else if Rlt_dec 0 x then PosInf else NegInf
  | Fin x, NegInf | NegInf, Fin x =>
      if Req_dec_T x 0 then NaN else if Rlt_dec 0 x then NegInf else PosInf
  | PosInf, PosInf | NegInf, NegInf => PosInf
  | PosInf, NegInf | NegInf, PosInf => NegInf
  end.

(** [a + b] *)
Definition add (a b : number) : number :=
  match a, b with
  | NaN, _ | _, NaN => NaN
  | Fin x, Fin y => Fin (x + y)
  | PosInf, NegInf | NegInf, PosInf => NaN
  | PosInf, _ | _, PosInf => PosInf
  | NegInf, _ | _, NegInf => NegInf
  end.

(** [Math.cos(a)] *)
Definition cos (a : number) : number :=
  match a with Fin x => Fin (Rtrigo_def.cos x) | _ => NaN end.

(** [Math.abs(a)] *)
Definition abs (a : number) : number :=
  match a with
  | Fin x => Fin (Rabs x)
  | PosInf | NegInf => PosInf
  | NaN => NaN
  end.

(** [a < b]: false as soon as one side is NaN. *)
Definition ltb (a b : number) : bool :=
  match a, b with
  | NaN, _ | _, NaN => false
  | Fin x, Fin y => if Rlt_dec x y then true else false
  | NegInf, (Fin _ | PosInf) => true
  | Fin _, PosInf => true
  | _, _ => false
  end.

(** [a >= 0] as a proposition: false for NaN. *)
Definition nonneg (a : number) : Prop :=
  match a with
  | Fin x => 0 <= x
  | PosInf => True
  | NegInf | NaN => False
  end.

(** [Math.sqrt(a)] *)
Definition sqrt (a : number) : number :=
  match a with
  | Fin x => if Rlt_dec x 0 then NaN else Fin (R_sqrt.sqrt x)
  | PosInf => PosInf
  | NegInf | NaN => NaN
  end.

(** [Math.log10(a)] *)
Definition log10 (a : number) : number :=
  match a with
  | Fin x =>
      if Rlt_dec x 0 then NaN
      else if Req_dec_T x 0 then NegInf
      else Fin (ln x / ln 10)
  | PosInf => PosInf
  | NegInf | NaN => NaN
  end.

(** [Math.min(a, b)] and [Math.max(a, b)]: NaN as soon as one argument
    is. *)
Definition min (a b : number) : number :=
  match a, b with
  | NaN, _ | _, NaN => NaN
  | NegInf, _ | _, NegInf => NegInf
  | PosInf, c | c, PosInf => c
  | Fin x, Fin y => Fin (Rmin x y)
  end.

Definition max (a b : number) : number :=
  match a, b with
  | NaN, _ | _, NaN => NaN
  | PosInf, _ | _, PosInf => PosInf
  | NegInf, c | c, NegInf => c
  | Fin x, Fin y => Fin (Rmax x y)
  end.

End JS.

(* ================================================================== *)
(** * JavaScript numbers with the range of binary64 *)
(* ================================================================== *)

Module Double.
Local Open Scope R_scope.

(** Half-way between the largest double and [2^1024]: an exact result of
    this magnitude or more is an infinity. *)
Definition limit : R := IZR ((2 ^ 54 - 1) * 2 ^ 970).

(** The number for an exact result.  Rounding below the limit is left
    out. *)
Definition number (x : R) : JS.number :=
  if Rlt_dec (Rabs x) limit then JS.Fin x
  else if Rlt_dec 0 x then JS.PosInf else JS.NegInf.

Definition range (a : JS.number) : JS.number :=
  match a with
  | JS.Fin x => number x
  | _ => a
  end.

(** [a + b], [a * b] and [a / b] *)
Definition add (a b : JS.number) : JS.number := range (JS.add a b).
Definition mul (a b : JS.number) : JS.number := range (JS.mul a b).
Definition div (a b : JS.number) : JS.number := range (JS.div a b).

End Double.

(* ================================================================== *)
(** * AudioAnalyzer.ts: the object and its queries *)
(* ================================================================== *)

Module AudioAnalyzerObject.

(** [AudioContext.state] *)
Inductive ContextState : Set := running | suspended | closed.

(** What the class reads of its [AudioContext]. *)
Record AudioContext : Set := mkContext {
  state : ContextState;
  sampleRate : Q
}.

(** The fields of the class.  For the three Web Audio handles only
    whether the field is set ([true]) or [null] ([false]) is kept. *)
Record t : Set := mk {
  audioContext : option AudioContext;
  analyserNode : bool;
  microphone : bool;
  mediaStream : bool;
  dataArray : option (list Z);
  active : bool
}.

(** The fields of a fresh object. *)
Definition new : t := mk None false false false None false.

(** [analyserNode.getByteTimeDomainData(array)]: the node copies its
    current samples, [timeDomain], into [array]; samples that do not fit
    are dropped and elements of [array] beyond them keep their value. *)
Definition getByteTimeDomainData (timeDomain array : list Z) : list Z :=
  firstn (length array) timeDomain ++ skipn (length timeDomain) array.

Definition withData (this : t) (data : list Z) : t :=
  mk (audioContext this) (analyserNode this) (microphone this)
     (mediaStream this) (Some data) (active this).

(** The loop of [getVolume]: the sum of the squared normalized samples. *)
Definition sumSquares (data : list Z) : R :=
  fold_left (fun sum b =>
               let normalized := ((IZR b - 128) / 128)%R in
               (sum + normalized * normalized)%R)
            data 0%R.

(** The arithmetic of [getVolume] once the samples are fetched. *)
Definition volumeOf (data : list Z) : JS.number :=
  let sum := sumSquares data in
  let rms := JS.sqrt (JS.div (JS.Fin sum) (JS.Fin (INR (length data)))) in
  let db :=
    JS.mul (JS.Fin 25%R) (JS.log10 (JS.add rms (JS.Fin (1 / 10000)%R))) in
  let volume :=
    JS.max (JS.Fin 0%R)
      (JS.min (JS.Fin 100%R)
         (JS.mul (JS.add db (JS.Fin 60%R)) (JS.Fin (100 / 60)%R))) in
  let amplifiedVolume :=
    JS.min (JS.Fin 100%R) (JS.mul volume (JS.Fin (12 / 10)%R)) in
  amplifiedVolume.

(** The same arithmetic on real numbers, for an array of [count > 0]
    samples whose squares sum to [sum]. *)
Definition volumeFormula (sum count : R) : R :=
  let rms := sqrt (sum / count) in
  let db := (25 * (ln (rms + 1 / 10000) / ln 10))%R in
  let volume := Rmax 0 (Rmin 100 ((db + 60) * (100 / 60))) in
  Rmin 100 (volume * (12 / 10)).

(** [getVolume()], with the samples the analyser node holds at the call.
    The value returned and the object afterwards.  ([resume()] on a
    suspended context completes later and is not part of the call.) *)
Definition getVolume (this : t) (timeDomain : list Z) : JS.number * t :=
  match analyserNode this, dataArray this, active this with
  | true, Some array, true =>
      match audioContext this with
      | Some (mkContext suspended _) => (JS.Fin 0%R, this)
      | _ =>
          let data := getByteTimeDomainData timeDomain array in
          (volumeOf data, withData this data)
      end
  | _, _, _ => (JS.Fin 0%R, this)
  end.

(** [getPitch()], likewise. *)
Definition getPitch (this : t) (timeDomain : list Z) : Q * t :=
  match analyserNode this, dataArray this, active this, audioContext this with
  | true, Some array, true, Some context =>
      let data := getByteTimeDomainData timeDomain array in
      (AudioAnalyzer.autoCorrelate data (sampleRate context),
       withData this data)
  | _, _, _, _ => (0%Q, this)
  end.

(** [isActive()] *)
Definition isActive (this : t) : bool := active this.

(** [dispose()]: every field is released; closing the context completes
    later and changes no field. *)
Definition dispose (this : t) : t := mk None false false false None false.

End AudioAnalyzerObject.

(* ================================================================== *)
(** * ParticleSystem.ts *)
(* ================================================================== *)

Module ParticleSystem.
Local Open Scope R_scope.

(** [interface Point] of types.ts. *)
Module Point.
Record t : Type := mk { x : R; y : R }.
End Point.

(** An element of [flowerPoints]. *)
Module FlowerPoint.
Record t : Type := mk { x : R; y : R; color : string }.
End FlowerPoint.

(** [interface Leaf] of types.ts, with the fields that [generateParticles]
    reads. *)
Module Leaf.
Record t : Type := mk {
  x : R; y : R; angle : R; size : R; baseColor : string }.
End Leaf.

Inductive PartType : Set := flower | stem | leaf.

Inductive Phase : Set := scatter | converge.

(** [interface Particle] of types.ts, with the fields that this class
    sets. *)
Module Particle.
Record t : Type := mk {
  x : R;
  y : R;
  vx : R;
  vy : R;
  color : string;
  alpha : R;
  size : R;
  targetX : R;
  targetY : R;
  life : R;
  maxLife : R;
  birthTime : R;
  partType : option PartType;
  partIndex : option nat
}.
End Particle.

(** The object.  The five remaining private fields are initialised once
    and never assigned again; they are the constants below. *)
Record t : Type := mk {
  particles : list Particle.t;
  phase : Phase;
  seedPosition : Point.t
}.

Definition gravity : R := 5 / 10.
Definition alphaDecayRate : R := 3 / 10.
Definition alphaThreshold : R := 3 / 10.
Definition convergenceSpeed : R := 4.
Definition arrivalThreshold : R := 5.

(** [constructor(seedPosition)] *)
Definition new (seedPosition : Point.t) : t := mk [] scatter seedPosition.

(** ** Generation

    [random n] is the value of the [n]-th call of [Math.random()]; a
    computation that draws random numbers threads the number of calls made
    so far. *)
Section Generation.

Variable random : nat -> R.

Definition Gen (A : Type) : Type := nat -> A * nat.

Definition ret {A : Type} (a : A) : Gen A := fun n => (a, n).

Definition bind {A B : Type} (m : Gen A) (k : A -> Gen B) : Gen B :=
  fun n => let (a, n') := m n in k a n'.

Definition Math_random : Gen R := fun n => (random n, S n).

Local Notation "x <- m ;; k" := (bind m (fun x => k))
  (at level 61, m at next level, right associativity).

(** A [for] loop that pushes one value per iteration. *)
Fixpoint forEach {A B : Type} (body : A -> Gen B) (l : list A) : Gen (list B) :=
  match l with
  | [] => ret []
  | a :: l' => b <- body a ;; bs <- forEach body l' ;; ret (b :: bs)
  end.

(** The body shared by the three loops: draw the angle and the speed, then
    build the particle (its [size] and [maxLife] draw two more numbers). *)
Definition spawn (this : t) (baseSpeed verticalBias : R)
    (x y : R) (color : string) (currentTime : R)
    (partType : PartType) (partIndex : option nat) : Gen Particle.t :=
  r1 <- Math_random ;;
  let angle := r1 * PI * 2 in
  r2 <- Math_random ;;
  let speed := baseSpeed * (8 / 10 + r2 * (4 / 10)) in
  let vx := cos angle * speed in
  let vy := sin angle * speed + verticalBias * speed * (5 / 10) in
  r3 <- Math_random ;;
  r4 <- Math_random ;;
  ret {| Particle.x := x;
         Particle.y := y;
         Particle.vx := vx;
         Particle.vy := vy;
         Particle.color := color;
         Particle.alpha := 1;
         Particle.size := 2 + r3 * 2;
         Particle.targetX := Point.x (seedPosition this);
         Particle.targetY := Point.y (seedPosition this);
         Particle.life := 1;
         Particle.maxLife := 3 + r4 * 2;
         Particle.birthTime := currentTime;
         Particle.partType := Some partType;
         Particle.partIndex := partIndex |}.

Definition stemSegments : nat := 10.
Definition leafPoints : nat := 5.

(** The loop over [flowerPoints]. *)
Definition flowerLoop (this : t) (baseSpeed verticalBias : R)
    (flowerPoints : list FlowerPoint.t) (currentTime : R)
    : Gen (list Particle.t) :=
  forEach (fun point =>
      spawn this baseSpeed verticalBias
        (FlowerPoint.x point) (FlowerPoint.y point) (FlowerPoint.color point)
        currentTime flower None)
    flowerPoints.

(** The loop [for (i = 0; i <= stemSegments; i++)]. *)
Definition stemLoop (this : t) (baseSpeed verticalBias : R)
    (stemHeight currentTime : R) : Gen (list Particle.t) :=
  forEach (fun i =>
      let t := INR i / INR stemSegments in
      let y := Point.y (seedPosition this) - stemHeight * t in
      spawn this baseSpeed verticalBias
        (Point.x (seedPosition this)) y "rgb(70, 200, 160)"%string
        currentTime stem None)
    (seq 0 (S stemSegments)).

(** The two nested loops over the leaves and the points of a leaf. *)
Definition leafLoop (this : t) (baseSpeed verticalBias : R)
    (leaves : list Leaf.t) (currentTime : R) : Gen (list (list Particle.t)) :=
  forEach (fun indexed : nat * Leaf.t =>
      let (leafIndex, leaf) := indexed in
      forEach (fun i =>
        let t := INR i / (INR leafPoints - 1) in
        let x := Leaf.x leaf + cos (Leaf.angle leaf) * Leaf.size leaf * t in
        let y := Leaf.y leaf + sin (Leaf.angle leaf) * Leaf.size leaf * t in
        spawn this baseSpeed verticalBias x y (Leaf.baseColor leaf)
          currentTime ParticleSystem.leaf (Some leafIndex))
        (seq 0 leafPoints))
    (combine (seq 0 (length leaves)) leaves).

(** [generateParticles(stemHeight, leaves, flowerPoints, volume, pitch,
    currentTime)] *)
Definition generateParticles (this : t) (stemHeight : R)
    (leaves : list Leaf.t) (flowerPoints : list FlowerPoint.t)
    (volume pitch currentTime : R) : Gen t :=
  let baseSpeed := 1 + (volume / 100) * 4 in
  let normalizedPitch := Rmax 0 (Rmin 1 ((pitch - 200) / 600)) in
  let verticalBias := (normalizedPitch - 5 / 10) * 2 in
  fromFlower <- flowerLoop this baseSpeed verticalBias flowerPoints currentTime ;;
  fromStem <- stemLoop this baseSpeed verticalBias stemHeight currentTime ;;
  fromLeaves <- leafLoop this baseSpeed verticalBias leaves currentTime ;;
  ret {| particles := fromFlower ++ fromStem ++ concat fromLeaves;
         phase := scatter;
         seedPosition := seedPosition this |}.

End Generation.

(** The particles pushed by the loop over [flowerPoints], and what such a
    particle takes from its point. *)
Definition isFlower (particle : Particle.t) : bool :=
  match Particle.partType particle with
  | Some flower => true
  | _ => false
  end.

Definition atPoint (point : FlowerPoint.t) (particle : Particle.t) : Prop :=
  Particle.x particle = FlowerPoint.x point /\
  Particle.y particle = FlowerPoint.y point /\
  Particle.color particle = FlowerPoint.color point.

(** ** Update *)

(** The body of the loop of [updateScatterPhase]. *)
Definition scatterStep (deltaTime : R) (particle : Particle.t) : Particle.t :=
  let vy := Particle.vy particle + gravity * deltaTime * 60 in
  let x := Particle.x particle + Particle.vx particle * deltaTime * 60 in
  let y := Particle.y particle + vy * deltaTime * 60 in
  let alpha := Rmax 0 (Particle.alpha particle - alphaDecayRate * deltaTime) in
  let life :=
    Rmax 0 (Particle.life particle - deltaTime / Particle.maxLife particle) in
  {| Particle.x := x;
     Particle.y := y;
     Particle.vx := Particle.vx particle;
     Particle.vy := vy;
     Particle.color := Particle.color particle;
     Particle.alpha := alpha;
     Particle.size := Particle.size particle;
     Particle.targetX := Particle.targetX particle;
     Particle.targetY := Particle.targetY particle;
     Particle.life := life;
     Particle.maxLife := Particle.maxLife particle;
     Particle.birthTime := Particle.birthTime particle;
     Particle.partType := Particle.partType particle;
     Particle.partIndex := Particle.partIndex particle |}.

(** [particles.reduce((sum, p) => sum + p.alpha, 0) / particles.length]:
    the one division of this class whose divisor can be zero. *)
Definition avgAlpha (particles : list Particle.t) : JS.number :=
  JS.div (JS.Fin (fold_left (fun sum p => sum + Particle.alpha p) particles 0))
         (JS.Fin (INR (length particles))).

Definition updateScatterPhase (this : t) (deltaTime : R) : t :=
  let particles := map (scatterStep deltaTime) (particles this) in
  {| particles := particles;
     phase := if JS.ltb (avgAlpha particles) (JS.Fin alphaThreshold)
              then converge else phase this;
     seedPosition := seedPosition this |}.

(** The distance computed by [updateConvergePhase] and
    [allParticlesArrived]. *)
Definition distance (particle : Particle.t) : R :=
  let dx := Particle.targetX particle - Particle.x particle in
  let dy := Particle.targetY particle - Particle.y particle in
  sqrt (dx * dx + dy * dy).

(** The speed of a particle at [distance] from its target. *)
Definition convergeSpeed (distance : R) : R :=
  let distanceRatio := Rmin (distance / 300) 1 in
  let easing := 1 - (1 - distanceRatio) ^ 3 in
  let speedMultiplier := 1 + easing * 3 in
  convergenceSpeed * speedMultiplier.

(** [Math.min(speed * deltaTime * 60, distance)] *)
Definition moveDistance (deltaTime distance : R) : R :=
  Rmin (convergeSpeed distance * deltaTime * 60) distance.

(** The body of the loop of [updateConvergePhase]. *)
Definition convergeStep (deltaTime : R) (particle : Particle.t) : Particle.t :=
  let dx := Particle.targetX particle - Particle.x particle in
  let dy := Particle.targetY particle - Particle.y particle in
  let distance := sqrt (dx * dx + dy * dy) in
  let moved :=
    if Rlt_dec arrivalThreshold distance then
      let speed := convergeSpeed distance in
      let dirX := dx / distance in
      let dirY := dy / distance in
      let moveDistance := moveDistance deltaTime distance in
      (Particle.x particle + dirX * moveDistance,
       Particle.y particle + dirY * moveDistance,
       dirX * speed * 60,
       dirY * speed * 60)
    else (Particle.x particle, Particle.y particle, 0, 0) in
  let '(x, y, vx, vy) := moved in
  let distanceToSeed := sqrt (dx * dx + dy * dy) in
  let proximityRatio := Rmax 0 (1 - distanceToSeed / 200) in
  let alpha :=
    Rmin 1 (Particle.alpha particle + (3 / 10) * deltaTime * proximityRatio) in
  {| Particle.x := x;
     Particle.y := y;
     Particle.vx := vx;
     Particle.vy := vy;
     Particle.color := Particle.color particle;
     Particle.alpha := alpha;
     Particle.size := Particle.size particle;
     Particle.targetX := Particle.targetX particle;
     Particle.targetY := Particle.targetY particle;
     Particle.life := Particle.life particle;
     Particle.maxLife := Particle.maxLife particle;
     Particle.birthTime := Particle.birthTime particle;
     Particle.partType := Particle.partType particle;
     Particle.partIndex := Particle.partIndex particle |}.

Definition updateConvergePhase (this : t) (deltaTime : R) : t :=
  {| particles := map (convergeStep deltaTime) (particles this);
     phase := phase this;
     seedPosition := seedPosition this |}.

(** [update(deltaTime, currentTime)]; [currentTime] is not read. *)
Definition update (this : t) (deltaTime currentTime : R) : t :=
  match phase this with
  | scatter => updateScatterPhase this deltaTime
  | converge => updateConvergePhase this deltaTime
  end.

(** The loop of [allParticlesArrived], which returns at the first particle
    farther than the threshold. *)
Fixpoint arrivedLoop (particles : list Particle.t) : bool :=
  match particles with
  | [] => true
  | particle :: rest =>
      if Rlt_dec arrivalThreshold (distance particle) then false
      else arrivedLoop rest
  end.

Definition allParticlesArrived (this : t) : bool :=
  match phase this with
  | scatter => false
  | converge => arrivedLoop (particles this)
  end.

Definition getParticles (this : t) : list Particle.t := particles this.
Definition getPhase (this : t) : Phase := phase this.

(** [reset()] *)
Definition reset (this : t) : t := mk [] scatter (seedPosition this).

(** The states that the public methods produce from a fresh object, with
    [Math.random] returning numbers of [0, 1). *)
Inductive reachable : t -> Prop :=
  | reach_new (seedPosition : Point.t) : reachable (new seedPosition)
  | reach_generate (this : t) (random : nat -> R) (calls : nat)
      (stemHeight : R) (leaves : list Leaf.t)
      (flowerPoints : list FlowerPoint.t) (volume pitch currentTime : R) :
      reachable this ->
      (forall n, 0 <= random n < 1) ->
      reachable (fst (generateParticles random this stemHeight leaves
                        flowerPoints volume pitch currentTime calls))
  | reach_update (this : t) (deltaTime currentTime : R) :
      reachable this -> reachable (update this deltaTime currentTime)
  | reach_reset (this : t) : reachable this -> reachable (reset this).

(** ** Runs and measures used to state properties *)

(** [update] called once per frame with the successive
    [(deltaTime, currentTime)] pairs of [ticks]. *)
Definition updates (this : t) (ticks : list (R * R)) : t :=
  fold_left (fun s tick => update s (fst tick) (snd tick)) ticks this.

(** The time covered by [ticks]. *)
Definition elapsed (ticks : list (R * R)) : R :=
  fold_right (fun tick total => fst tick + total) 0 ticks.

(** The fields of a particle that no update writes. *)
Definition sameIdentity (p p' : Particle.t) : Prop :=
  Particle.color p' = Particle.color p /\
  Particle.size p' = Particle.size p /\
  Particle.targetX p' = Particle.targetX p /\
  Particle.targetY p' = Particle.targetY p /\
  Particle.maxLife p' = Particle.maxLife p /\
  Particle.birthTime p' = Particle.birthTime p /\
  Particle.partType p' = Particle.partType p /\
  Particle.partIndex p' = Particle.partIndex p.

(** What every particle looks like when it leaves [generateParticles]. *)
Definition freshParticle (this : t) (currentTime : R) (p : Particle.t) : Prop :=
  Particle.targetX p = Point.x (seedPosition this) /\
  Particle.targetY p = Point.y (seedPosition this) /\
  Particle.alpha p = 1 /\
  Particle.life p = 1 /\
  Particle.birthTime p = currentTime /\
  2 <= Particle.size p < 4 /\
  3 <= Particle.maxLife p < 5.


(** ** Sample systems, used to instantiate the theorems *)

(** A system right after generation from one flower point and no leaf,
    every random draw being 1/2. *)
Definition justGenerated : t :=
  fst (generateParticles (fun _ => 1 / 2) (new (Point.mk 400 450))
         200 [] [FlowerPoint.mk 400 250 "rgb(255, 200, 220)"] 50 440 0 0%nat).

Definition sampleParticle (x y : R) : Particle.t :=
  {| Particle.x := x;
     Particle.y := y;
     Particle.vx := 0;
     Particle.vy := 0;
     Particle.color := "rgb(255, 200, 220)";
     Particle.alpha := 2 / 10;
     Particle.size := 3;
     Particle.targetX := 400;
     Particle.targetY := 450;
     Particle.life := 1 / 2;
     Particle.maxLife := 4;
     Particle.birthTime := 0;
     Particle.partType := Some flower;
     Particle.partIndex := None |}.

(** A converging system with one particle at distance 500 of the seed. *)
Definition converging : t :=
  mk [sampleParticle 700 850] converge (Point.mk 400 450).

(** A converging system whose only particle is on the seed. *)
Definition arrived : t :=
  mk [sampleParticle 400 450] converge (Point.mk 400 450).

End ParticleSystem.

(* ================================================================== *)
(** * RoseCurve.ts *)
(* ================================================================== *)

Module RoseCurve.
Local Open Scope R_scope.

(** An element of the array returned by [calculateCurve]. *)
Record Polar : Type := mkPolar { r : JS.number; theta : JS.number }.

(** [Math.round(x)]: the nearest integer, halves rounded up. *)
Definition round (x : R) : R := IZR (Zfloor (x + 1 / 2)).

Definition getMaxTheta (k : R) : R :=
  if Rlt_dec (Rabs (k - round k)) (1 / 100) then 2 * PI else 4 * PI.

(** [maxTheta / segments] *)
Definition step (k : R) (segments : Z) : JS.number :=
  JS.div (JS.Fin (getMaxTheta k)) (JS.Fin (IZR segments)).

(** [i * step], the angle sampled at iteration [i]. *)
Definition sampleTheta (k : R) (segments : Z) (i : Z) : JS.number :=
  JS.mul (JS.Fin (IZR i)) (step k segments).

(** The point pushed at iteration [i]. *)
Definition point (a k : R) (segments : Z) (i : Z) : Polar :=
  let theta := sampleTheta k segments i in
  let r := JS.mul (JS.Fin a) (JS.cos (JS.mul (JS.Fin k) theta)) in
  {| r := JS.abs r;
     theta := if JS.ltb r (JS.Fin 0) then JS.add theta (JS.Fin PI) else theta |}.

(** The values of [i] in [for (i = 0; i <= segments; i++)]. *)
Definition indices (segments : Z) : list Z :=
  map Z.of_nat (seq 0 (Z.to_nat (segments + 1))).

(** [calculateCurve(a, k, segments)], [segments] an integer. *)
Definition calculateCurve (a k : R) (segments : Z) : list Polar :=
  map (point a k segments) (indices segments).


(** A point [{x, y}]. *)
Record Cartesian : Type := mkCartesian { x : R; y : R }.

(** [polarToCartesian(r, theta, centerX, centerY)] *)
Definition polarToCartesian (r theta centerX centerY : R) : Cartesian :=
  {| x := centerX + r * cos theta;
     y := centerY + r * sin theta |}.

(** [Math.atan2(y, x)] on finite numbers: the angle of the point [(x, y)]
    in (-PI, PI], and 0 at the origin. *)
Definition atan2 (y x : R) : R :=
  if Rlt_dec 0 x then atan (y / x)
  else if Rlt_dec x 0 then
    if Rle_dec 0 y then atan (y / x) + PI else atan (y / x) - PI
  else if Rlt_dec 0 y then PI / 2
  else if Rlt_dec y 0 then - (PI / 2)
  else 0.

(** [cartesianToPolar(x, y, centerX, centerY)] *)
Definition cartesianToPolar (x y centerX centerY : R) : Polar :=
  let dx := x - centerX in
  let dy := y - centerY in
  {| r := JS.Fin (sqrt (dx * dx + dy * dy));
     theta := JS.Fin (atan2 dy dx) |}.

End RoseCurve.

(* ================================================================== *)
(** * RoseCurve.ts within the range of binary64 *)
(* ================================================================== *)

(** The methods whose results depend on the range of a double: a product,
    a sum or a quotient too large for a double is an infinity.  Arguments
    are finite numbers. *)
Module RoseCurve64.
Import RoseCurve.
Local Open Scope R_scope.

(** [maxTheta / segments] *)
Definition step (k : R) (segments : Z) : JS.number :=
  Double.div (JS.Fin (getMaxTheta k)) (JS.Fin (IZR segments)).

(** [i * step], the angle sampled at iteration [i]. *)
Definition sampleTheta (k : R) (segments : Z) (i : Z) : JS.number :=
  Double.mul (JS.Fin (IZR i)) (step k segments).

(** The point pushed at iteration [i]. *)
Definition point (a k : R) (segments : Z) (i : Z) : Polar :=
  let theta := sampleTheta k segments i in
  let r := Double.mul (JS.Fin a) (JS.cos (Double.mul (JS.Fin k) theta)) in
  {| r := JS.abs r;
     theta :=
       if JS.ltb r (JS.Fin 0) then Double.add theta (JS.Fin PI) else theta |}.

(** [calculateCurve(a, k, segments)], [segments] an integer. *)
Definition calculateCurve (a k : R) (segments : Z) : list Polar :=
  map (point a k segments) (indices segments).

(** [Math.atan2(y, x)] *)
Definition atan2 (y x : JS.number) : JS.number :=
  match y, x with
  | JS.NaN, _ | _, JS.NaN => JS.NaN
  | JS.Fin yv, JS.Fin xv => JS.Fin (RoseCurve.atan2 yv xv)
  | JS.Fin yv, JS.PosInf => JS.Fin 0
  | JS.Fin yv, JS.NegInf => if Rlt_dec yv 0 then JS.Fin (- PI) else JS.Fin PI
  | JS.PosInf, JS.Fin _ => JS.Fin (PI / 2)
  | JS.NegInf, JS.Fin _ => JS.Fin (- (PI / 2))
  | JS.PosInf, JS.PosInf => JS.Fin (PI / 4)
  | JS.PosInf, JS.NegInf => JS.Fin (3 * PI / 4)
  | JS.NegInf, JS.PosInf => JS.Fin (- (PI / 4))
  | JS.NegInf, JS.NegInf => JS.Fin (- (3 * PI / 4))
  end.

(** [cartesianToPolar(x, y, centerX, centerY)] *)
Definition cartesianToPolar (x y centerX centerY : R) : Polar :=
  let dx := Double.number (x - centerX) in
  let dy := Double.number (y - centerY) in
  {| r := JS.sqrt (Double.add (Double.mul dx dx) (Double.mul dy dy));
     theta := atan2 dy dx |}.

(** [calculateKFromPitch(pitch, minK, maxK, minPitch, maxPitch)]; the
    divisor is zero when the two pitch bounds coincide. *)
Definition calculateKFromPitch (pitch minK maxK minPitch maxPitch : R)
    : JS.number :=
  let normalizedPitch :=
    JS.max (JS.Fin 0)
      (JS.min (JS.Fin 1)
         (Double.div (Double.number (pitch - minPitch))
                     (Double.number (maxPitch - minPitch)))) in
  Double.add (JS.Fin minK)
    (Double.mul normalizedPitch (Double.number (maxK - minK))).

End RoseCurve64.

(* ================================================================== *)
(** * Theorems: StateMachine *)
(* ================================================================== *)

Section StateMachineFacts.
Import StateMachine.
Local Open Scope Q_scope.

Lemma geq_spec (a b : Q) : geq a b = true <-> b <= a.
Proof. unfold geq. apply Qle_bool_iff. Qed.

Lemma update_rank_step (this : t) (volume growthProgress : Q) :
  let s := currentState this in
  let s' := currentState (update this volume growthProgress) in
  s' = s \/ rank s' = S (rank s).
Proof.
  destruct this as [s]; unfold update; cbn.
  destruct s; cbn;
    repeat match goal with |- context [if ?c then _ else _] => destruct c end;
    cbn; auto.
Qed.

(** C1. One call of [update] checks the single transition of the current
    state: Seed becomes Sprout exactly when [volume >= 30], Sprout becomes
    Stem exactly when [growthProgress >= 100], Stem becomes Bloom exactly
    when [growthProgress >= 300], Bloom becomes Scatter exactly when
    [volume >= 70], Scatter is never left, and in every case the new state
    is the old one or its immediate successor. *)
Theorem update_transitions (this : t) (volume growthProgress : Q) :
  let s := currentState this in
  let s' := currentState (update this volume growthProgress) in
  (s = SEED -> (s' = SPROUT <-> 30 <= volume) /\ (s' = SEED <-> ~ 30 <= volume)) /\
  (s = SPROUT ->
     (s' = STEM <-> 100 <= growthProgress) /\ (s' = SPROUT <-> ~ 100 <= growthProgress)) /\
  (s = STEM ->
     (s' = BLOOM <-> 300 <= growthProgress) /\ (s' = STEM <-> ~ 300 <= growthProgress)) /\
  (s = BLOOM -> (s' = SCATTER <-> 70 <= volume) /\ (s' = BLOOM <-> ~ 70 <= volume)) /\
  (s = SCATTER -> s' = SCATTER) /\
  (s' = s \/ rank s' = S (rank s)).
Proof.
  pose proof (update_rank_step this volume growthProgress) as Hstep.
  cbv zeta in *. destruct this as [s].
  unfold update, THRESHOLDS.SEED_TO_SPROUT_VOLUME,
    THRESHOLDS.BLOOM_TO_SCATTER_VOLUME, THRESHOLDS.SPROUT_TO_STEM_LENGTH,
    THRESHOLDS.STEM_TO_BLOOM_LENGTH in *.
  cbn [currentState] in *.
  destruct s;
    try match goal with
      | |- context [geq ?a ?b] =>
          let E := fresh "E" in
          destruct (geq a b) eqn:E;
          [ apply geq_spec in E
          | apply not_true_iff_false in E; rewrite geq_spec in E ]
      end;
    cbn [currentState] in *;
    (split; [|split; [|split; [|split; [|split]]]]);
    try exact Hstep; intros; try discriminate; try reflexivity;
    (split; split; intros; try discriminate; try reflexivity; tauto).
Qed.

End StateMachineFacts.

(** Boundary runs of the state machine. *)
Example update_seed_29 :
  StateMachine.currentState (StateMachine.update StateMachine.new 29 0)
  = StateMachine.SEED.
Proof. reflexivity. Qed.

Example update_seed_30 :
  StateMachine.currentState (StateMachine.update StateMachine.new 30 0)
  = StateMachine.SPROUT.
Proof. reflexivity. Qed.

Lemma update_transitions_witness :
  StateMachine.currentState (StateMachine.update StateMachine.new 30 0)
  = StateMachine.SPROUT.
Proof.
  apply (proj1 (proj1 (update_transitions StateMachine.new 30 0) eq_refl)).
  vm_compute. discriminate.
Defined.

(* ================================================================== *)
(** * Theorems: Binary64 *)
(* ================================================================== *)

Section Binary64Facts.
Import Binary64.
Local Open Scope Q_scope.

Lemma Qpower2_pos (z : Z) : 0 < 2 ^ z.
Proof. apply Qpower_0_lt. reflexivity. Qed.

Lemma Qpower2_succ (z : Z) : 2 ^ (z + 1) == 2 * 2 ^ z.
Proof. rewrite Qpower_plus by discriminate. change (2 ^ 1) with 2. ring. Qed.

Lemma Qpower2_le (z1 z2 : Z) : (z1 <= z2)%Z -> 2 ^ z1 <= 2 ^ z2.
Proof. intros H. apply Qpower_le_compat_l; [exact H | discriminate]. Qed.

Lemma Qpower2_le_inv (z1 z2 : Z) : 2 ^ z1 <= 2 ^ z2 -> (z1 <= z2)%Z.
Proof. intros H. apply (Qpower_le_compat_l_inv 2); [exact H | reflexivity]. Qed.

Lemma Qpower2_lt_inv (z1 z2 : Z) : 2 ^ z1 < 2 ^ z2 -> (z1 < z2)%Z.
Proof. intros H. apply (Qpower_lt_compat_l_inv 2); [exact H | reflexivity]. Qed.

(** A positive fraction between two quotients of powers of two. *)
Lemma Qlog2_bounds (a : Q) :
  0 < a ->
  let e0 := (Z.log2 (Qnum a) - Z.log2 (Zpos (Qden a)))%Z in
  2 ^ (e0 - 1) <= a /\ a < 2 ^ (e0 + 1).
Proof.
  intros Ha e0. destruct a as [n d]. unfold e0; simpl Qnum; simpl Qden.
  assert (Hn : (0 < n)%Z).
  { unfold Qlt in Ha; simpl in Ha. lia. }
  destruct (Z.log2_spec n Hn) as [Hn1 Hn2].
  destruct (Z.log2_spec (Zpos d) (Pos2Z.is_pos d)) as [Hd1 Hd2].
  pose proof (Z.log2_nonneg n) as Ln.
  pose proof (Z.log2_nonneg (Zpos d)) as Ld.
  set (ln := Z.log2 n) in *. set (ld := Z.log2 (Zpos d)) in *.
  assert (P1 : 2 ^ (ln - ld - 1) == inject_Z (2 ^ ln) / inject_Z (2 ^ (ld + 1))).
  { rewrite !Zpower_Qpower by lia.
    replace (ln - ld - 1)%Z with (ln + - (ld + 1))%Z by lia.
    rewrite Qpower_plus by discriminate. rewrite Qpower_opp. reflexivity. }
  assert (P2 : 2 ^ (ln - ld + 1) == inject_Z (2 ^ (ln + 1)) / inject_Z (2 ^ ld)).
  { rewrite !Zpower_Qpower by lia.
    replace (ln - ld + 1)%Z with ((ln + 1) + - ld)%Z by lia.
    rewrite Qpower_plus by discriminate. rewrite Qpower_opp. reflexivity. }
  assert (Pa : n # d == inject_Z n / inject_Z (Zpos d)) by apply Qmake_Qdiv.
  assert (Q1 : (0 < 2 ^ ld)%Z) by (apply Z.pow_pos_nonneg; lia).
  assert (Q2 : (0 < 2 ^ (ld + 1))%Z) by (apply Z.pow_pos_nonneg; lia).
  assert (Q3 : (0 < 2 ^ ln)%Z) by (apply Z.pow_pos_nonneg; lia).
  split.
  - rewrite P1, Pa.
    apply Qle_shift_div_l.
    { change 0 with (inject_Z 0). rewrite <- Zlt_Qlt. reflexivity. }
    unfold Qdiv. rewrite <- Qmult_assoc, (Qmult_comm (/ _)), Qmult_assoc.
    apply Qle_shift_div_r.
    { change 0 with (inject_Z 0). rewrite <- Zlt_Qlt. exact Q2. }
    rewrite <- !inject_Z_mult. rewrite <- Zle_Qle. nia.
  - rewrite P2, Pa.
    apply Qlt_shift_div_r.
    { change 0 with (inject_Z 0). rewrite <- Zlt_Qlt. reflexivity. }
    unfold Qdiv. rewrite <- Qmult_assoc, (Qmult_comm (/ _)), Qmult_assoc.
    apply Qlt_shift_div_l.
    { change 0 with (inject_Z 0). rewrite <- Zlt_Qlt. exact Q1. }
    rewrite <- !inject_Z_mult. rewrite <- Zlt_Qlt. nia.
Qed.

(** [Qlog2 a] is the exponent of the binade of [a]. *)
Lemma Qlog2_spec (a : Q) :
  0 < a ->
  2 ^ AudioAnalyzer.Qlog2 a <= a /\ a < 2 ^ (AudioAnalyzer.Qlog2 a + 1).
Proof.
  intros Ha. destruct (Qlog2_bounds a Ha) as [L U]. cbv zeta in L, U.
  unfold AudioAnalyzer.Qlog2.
  set (e0 := (Z.log2 (Qnum a) - Z.log2 (Zpos (Qden a)))%Z) in *.
  destruct (Qle_bool (2 ^ e0) a) eqn:E.
  - apply Qle_bool_iff in E. split; assumption.
  - split; [exact L |].
    replace (e0 - 1 + 1)%Z with e0 by lia.
    apply Qnot_le_lt. intros C. apply Qle_bool_iff in C. congruence.
Qed.

Lemma Qlog2_le (a : Q) (e : Z) : 0 < a -> a <= 2 ^ e -> (AudioAnalyzer.Qlog2 a <= e)%Z.
Proof.
  intros Ha H. destruct (Qlog2_spec a Ha) as [L _].
  apply Qpower2_le_inv. eapply Qle_trans; eassumption.
Qed.

Lemma Qlog2_ge (a : Q) (e : Z) : 2 ^ e <= a -> (e <= AudioAnalyzer.Qlog2 a)%Z.
Proof.
  intros H.
  assert (Ha : 0 < a) by (eapply Qlt_le_trans; [apply (Qpower2_pos e) | exact H]).
  destruct (Qlog2_spec a Ha) as [_ U].
  assert (K : 2 ^ e < 2 ^ (AudioAnalyzer.Qlog2 a + 1)) by (eapply Qle_lt_trans; eassumption).
  apply Qpower2_lt_inv in K. lia.
Qed.

Lemma Qltb_spec (a b : Q) : AudioAnalyzer.ltb a b = true <-> a < b.
Proof.
  unfold AudioAnalyzer.ltb. rewrite negb_true_iff. split.
  - intros H. apply Qnot_le_lt. intros C. apply Qle_bool_iff in C. congruence.
  - intros H. destruct (Qle_bool b a) eqn:E; [| reflexivity].
    apply Qle_bool_iff in E. apply Qle_not_lt in E. contradiction.
Qed.

Lemma Qgtb_spec (a b : Q) : AudioAnalyzer.gtb a b = true <-> b < a.
Proof. unfold AudioAnalyzer.gtb. apply (Qltb_spec b a). Qed.

(** Rounding to an integer moves by at most one half and stays between the
    floor and the ceiling. *)
Lemma roundEven_spec (m : Q) :
  inject_Z (AudioAnalyzer.roundEven m) - m <= 1 # 2 /\
  m - inject_Z (AudioAnalyzer.roundEven m) <= 1 # 2 /\
  (Qfloor m <= AudioAnalyzer.roundEven m)%Z.
Proof.
  pose proof (Qfloor_le m) as F1. pose proof (Qlt_floor m) as F2.
  rewrite inject_Z_plus in F2. change (inject_Z 1) with 1 in F2.
  unfold AudioAnalyzer.roundEven. cbv zeta.
  destruct (AudioAnalyzer.ltb (m - inject_Z (Qfloor m)) (1 # 2)) eqn:E1.
  - apply Qltb_spec in E1. repeat split; try lra; lia.
  - assert (N1 : ~ m - inject_Z (Qfloor m) < 1 # 2).
    { intros C. apply Qltb_spec in C. congruence. }
    apply Qnot_lt_le in N1.
    destruct (AudioAnalyzer.gtb (m - inject_Z (Qfloor m)) (1 # 2)) eqn:E2.
    + rewrite inject_Z_plus. change (inject_Z 1) with 1.
      repeat split; try lra; lia.
    + assert (N2 : ~ (1 # 2) < m - inject_Z (Qfloor m)).
      { intros C. apply Qgtb_spec in C. congruence. }
      apply Qnot_lt_le in N2.
      destruct (Z.even (Qfloor m)).
      * repeat split; try lra; lia.
      * rewrite inject_Z_plus. change (inject_Z 1) with 1.
        repeat split; try lra; lia.
Qed.

(** The rounded value of a positive number: a multiple of the unit of its
    binade, within half a unit, and not below the binade. *)
Lemma rnd_pos (q : Q) :
  0 < q ->
  let u := Z.max (AudioAnalyzer.Qlog2 q - 52) (-1074) in
  rnd q == inject_Z (AudioAnalyzer.roundEven (q / 2 ^ u)) * 2 ^ u.
Proof.
  intros Hq u. unfold rnd.
  destruct (Qeq_bool q 0) eqn:E.
  { apply Qeq_bool_iff in E. rewrite E in Hq. discriminate Hq. }
  assert (A : Qabs q = q).
  { destruct q as [[|p|p] d]; try reflexivity; discriminate Hq. }
  rewrite A. fold u.
  destruct (AudioAnalyzer.ltb q 0) eqn:E2.
  { apply Qltb_spec in E2. lra. }
  apply Qred_correct.
Qed.

Lemma rnd_neg (q : Q) : q < 0 -> rnd q == - rnd (- q).
Proof.
  intros Hq. unfold rnd.
  destruct (Qeq_bool q 0) eqn:E.
  { apply Qeq_bool_iff in E. rewrite E in Hq. discriminate Hq. }
  destruct (Qeq_bool (- q) 0) eqn:E'.
  { apply Qeq_bool_iff in E'. lra. }
  assert (A : Qabs (- q) = Qabs q).
  { destruct q as [[|p|p] d]; reflexivity. }
  rewrite A.
  destruct (AudioAnalyzer.ltb q 0) eqn:E2.
  2:{ assert (AudioAnalyzer.ltb q 0 = true) by (apply Qltb_spec; exact Hq). congruence. }
  destruct (AudioAnalyzer.ltb (- q) 0) eqn:E3.
  { apply Qltb_spec in E3. lra. }
  reflexivity.
Qed.

Lemma rnd_0 (q : Q) : q == 0 -> rnd q == 0.
Proof.
  intros H. unfold rnd. apply Qeq_bool_iff in H. rewrite H. reflexivity.
Qed.

(** The rounding error below [2^e]. *)
Lemma rnd_error_pos (q : Q) (e : Z) :
  (-1022 <= e)%Z -> 0 < q -> q <= 2 ^ e ->
  Qabs (rnd q - q) <= 2 ^ (e - 53).
Proof.
  intros He Hq Hle.
  rewrite (rnd_pos q Hq).
  set (u := Z.max (AudioAnalyzer.Qlog2 q - 52) (-1074)).
  assert (Hu : (u <= e - 52)%Z).
  { pose proof (Qlog2_le q e Hq Hle). unfold u. lia. }
  pose proof (Qpower2_pos u) as Pu.
  destruct (roundEven_spec (q / 2 ^ u)) as (R1 & R2 & _).
  set (m := inject_Z (AudioAnalyzer.roundEven (q / 2 ^ u))) in *.
  assert (Eq : q == q / 2 ^ u * 2 ^ u) by (field; lra).
  assert (B : Qabs (m * 2 ^ u - q) <= (1 # 2) * 2 ^ u).
  { apply Qabs_Qle_condition. split.
    - setoid_replace (m * 2 ^ u - q) with ((m - q / 2 ^ u) * 2 ^ u) by (field; lra).
      setoid_replace (- ((1 # 2) * 2 ^ u)) with ((- (1 # 2)) * 2 ^ u) by ring.
      apply Qmult_le_r; [exact Pu | lra].
    - setoid_replace (m * 2 ^ u - q) with ((m - q / 2 ^ u) * 2 ^ u) by (field; lra).
      apply Qmult_le_r; [exact Pu | lra]. }
  eapply Qle_trans; [exact B |].
  assert (P : 2 ^ (e - 53 + 1) == 2 * 2 ^ (e - 53)) by apply Qpower2_succ.
  assert (M : 2 ^ u <= 2 ^ (e - 53 + 1)).
  { apply Qpower2_le. lia. }
  lra.
Qed.

Lemma rnd_error (q : Q) (e : Z) :
  (-1022 <= e)%Z -> Qabs q <= 2 ^ e ->
  Qabs (rnd q - q) <= 2 ^ (e - 53).
Proof.
  intros He H.
  destruct (Q_dec q 0) as [[Hn | Hp] | Hz].
  - rewrite (rnd_neg q Hn).
    setoid_replace (- rnd (- q) - q) with (- (rnd (- q) - - q)) by ring.
    rewrite Qabs_opp. apply rnd_error_pos; [exact He | lra |].
    rewrite Qabs_neg in H by lra. exact H.
  - apply rnd_error_pos; [exact He | exact Hp |].
    rewrite Qabs_pos in H by lra. exact H.
  - rewrite (rnd_0 q Hz), Hz. 
    setoid_replace (0 - 0) with 0 by ring. simpl Qabs.
    apply Qlt_le_weak, Qpower2_pos.
Qed.

Lemma roundEven_nonneg (m : Q) : 0 <= m -> (0 <= AudioAnalyzer.roundEven m)%Z.
Proof.
  intros H. destruct (roundEven_spec m) as (_ & _ & F).
  assert (0 <= Qfloor m)%Z.
  { change 0%Z with (Qfloor 0). apply Qfloor_resp_le. exact H. }
  lia.
Qed.

Lemma rnd_nonneg (q : Q) : 0 <= q -> 0 <= rnd q.
Proof.
  intros H. destruct (Qle_lt_or_eq _ _ H) as [Hp | Hz].
  - rewrite (rnd_pos q Hp).
    set (u := Z.max (AudioAnalyzer.Qlog2 q - 52) (-1074)).
    apply Qmult_le_0_compat.
    + change 0 with (inject_Z 0). rewrite <- Zle_Qle. apply roundEven_nonneg.
      apply Qle_shift_div_l; [apply Qpower2_pos | lra].
    + apply Qlt_le_weak, Qpower2_pos.
  - rewrite (rnd_0 q); [lra | symmetry; exact Hz].
Qed.

(** Rounding does not cross a power of two from above. *)
Lemma rnd_ge_power (q : Q) (e : Z) :
  (-1022 <= e)%Z -> 2 ^ e <= q -> 2 ^ e <= rnd q.
Proof.
  intros He H.
  assert (Hq : 0 < q) by (eapply Qlt_le_trans; [apply (Qpower2_pos e) | exact H]).
  rewrite (rnd_pos q Hq).
  pose proof (Qlog2_ge q e H) as Hl.
  destruct (Qlog2_spec q Hq) as [L _].
  set (l := AudioAnalyzer.Qlog2 q) in *.
  replace (Z.max (l - 52) (-1074)) with (l - 52)%Z by lia.
  pose proof (Qpower2_pos (l - 52)) as Pu.
  destruct (roundEven_spec (q / 2 ^ (l - 52))) as (_ & _ & F).
  assert (P : 2 ^ l == 2 ^ 52 * 2 ^ (l - 52)).
  { rewrite <- Qpower_plus by discriminate. replace (52 + (l - 52))%Z with l by lia.
    reflexivity. }
  assert (G : (2 ^ 52 <= Qfloor (q / 2 ^ (l - 52)))%Z).
  { change (2 ^ 52)%Z with (Qfloor (2 ^ 52)).
    apply Qfloor_resp_le. apply Qle_shift_div_l; [exact Pu |].
    rewrite <- P. exact L. }
  assert (M : 2 ^ 52 <= inject_Z (AudioAnalyzer.roundEven (q / 2 ^ (l - 52)))).
  { change (2 ^ 52) with (inject_Z (2 ^ 52)). rewrite <- Zle_Qle. lia. }
  eapply Qle_trans; [apply (Qpower2_le e l); exact Hl |].
  rewrite P. apply Qmult_le_r; [exact Pu | exact M].
Qed.

(** An exact result below [2^1024] is a finite double. *)
Lemma number_error (q : Q) (e : Z) :
  (-1022 <= e <= 1023)%Z -> Qabs q <= 2 ^ e ->
  number q = Some (rnd q) /\ Qabs (rnd q - q) <= 2 ^ (e - 53).
Proof.
  intros He H. split; [| apply rnd_error; [lia | exact H]].
  unfold number.
  assert (L : Qabs q < limit).
  { eapply Qle_lt_trans; [exact H |].
    eapply Qle_lt_trans; [apply (Qpower2_le e 1023); lia |].
    vm_compute. reflexivity. }
  apply Qltb_spec in L. rewrite L. reflexivity.
Qed.

Lemma Qabs_bound (x c : Q) : Qabs x <= c <-> - c <= x /\ x <= c.
Proof. apply Qabs_Qle_condition. Qed.

(** The error of a product of two approximations. *)
Lemma mul_close (x y x0 y0 ex ey X Y : Q) :
  Qabs (x - x0) <= ex -> Qabs (y - y0) <= ey ->
  Qabs x0 <= X -> Qabs y0 <= Y ->
  Qabs (x * y - x0 * y0) <= X * ey + Y * ex + ex * ey.
Proof.
  intros Hx Hy HX HY.
  setoid_replace (x * y - x0 * y0)
    with (x0 * (y - y0) + (y0 * (x - x0) + (x - x0) * (y - y0))) by ring.
  eapply Qle_trans; [apply Qabs_triangle |].
  assert (T1 : Qabs (x0 * (y - y0)) <= X * ey).
  { rewrite Qabs_Qmult. apply Qmult_le_compat_nonneg; split;
      try apply Qabs_nonneg; assumption. }
  assert (T23 : Qabs (y0 * (x - x0) + (x - x0) * (y - y0)) <= Y * ex + ex * ey).
  { eapply Qle_trans; [apply Qabs_triangle |].
    assert (T2 : Qabs (y0 * (x - x0)) <= Y * ex).
    { rewrite Qabs_Qmult. apply Qmult_le_compat_nonneg; split;
        try apply Qabs_nonneg; assumption. }
    assert (T3 : Qabs ((x - x0) * (y - y0)) <= ex * ey).
    { rewrite Qabs_Qmult. apply Qmult_le_compat_nonneg; split;
        try apply Qabs_nonneg; assumption. }
    lra. }
  lra.
Qed.

Lemma roundEven_le_Z (y : Q) (z : Z) :
  y <= inject_Z z -> (AudioAnalyzer.roundEven y <= z)%Z.
Proof.
  intros H. destruct (roundEven_spec y) as (R1 & _ & _).
  destruct (Z_le_gt_dec (AudioAnalyzer.roundEven y) z) as [L|G]; [exact L|].
  exfalso.
  assert (K : inject_Z (z + 1) <= inject_Z (AudioAnalyzer.roundEven y)).
  { rewrite <- Zle_Qle. lia. }
  rewrite inject_Z_plus in K. change (inject_Z 1) with 1 in K. lra.
Qed.

Lemma roundEven_le_succ (y : Q) :
  (AudioAnalyzer.roundEven y <= Qfloor y + 1)%Z.
Proof.
  unfold AudioAnalyzer.roundEven. cbv zeta.
  destruct (AudioAnalyzer.ltb _ _); [lia|].
  destruct (AudioAnalyzer.gtb _ _); [lia|].
  destruct (Z.even _); lia.
Qed.

Lemma roundEven_mono (y1 y2 : Q) :
  y1 <= y2 -> (AudioAnalyzer.roundEven y1 <= AudioAnalyzer.roundEven y2)%Z.
Proof.
  intros H. pose proof (Qfloor_resp_le y1 y2 H) as F.
  destruct (Z.eq_dec (Qfloor y1) (Qfloor y2)) as [E|N].
  - unfold AudioAnalyzer.roundEven. cbv zeta. rewrite E.
    set (f := Qfloor y2) in *.
    destruct (AudioAnalyzer.ltb (y2 - inject_Z f) (1 # 2)) eqn:A2.
    + apply Qltb_spec in A2.
      assert (A1 : AudioAnalyzer.ltb (y1 - inject_Z f) (1 # 2) = true)
        by (apply Qltb_spec; lra).
      rewrite A1. lia.
    + destruct (AudioAnalyzer.gtb (y2 - inject_Z f) (1 # 2)) eqn:B2.
      * destruct (AudioAnalyzer.ltb (y1 - inject_Z f) (1 # 2)); [lia|].
        destruct (AudioAnalyzer.gtb (y1 - inject_Z f) (1 # 2)); [lia|].
        destruct (Z.even f); lia.
      * assert (N2 : ~ (1 # 2) < y2 - inject_Z f).
        { intros C. apply Qgtb_spec in C. congruence. }
        apply Qnot_lt_le in N2.
        destruct (AudioAnalyzer.ltb (y1 - inject_Z f) (1 # 2)) eqn:A1.
        { destruct (Z.even f); lia. }
        assert (B1 : AudioAnalyzer.gtb (y1 - inject_Z f) (1 # 2) = false).
        { destruct (AudioAnalyzer.gtb (y1 - inject_Z f) (1 # 2)) eqn:B1;
            [| reflexivity].
          apply Qgtb_spec in B1. lra. }
        rewrite B1. lia.
  - pose proof (roundEven_le_succ y1).
    destruct (roundEven_spec y2) as (_ & _ & G). lia.
Qed.

Lemma roundEven_Z (y : Q) (z : Z) :
  y == inject_Z z -> AudioAnalyzer.roundEven y = z.
Proof.
  intros H.
  assert (F : Qfloor y = z) by (rewrite H; apply Qfloor_Z).
  unfold AudioAnalyzer.roundEven. cbv zeta. rewrite F.
  assert (A : AudioAnalyzer.ltb (y - inject_Z z) (1 # 2) = true)
    by (apply Qltb_spec; lra).
  rewrite A. reflexivity.
Qed.

Lemma Qpower2_Z (n : Z) : (0 <= n)%Z -> 2 ^ n == inject_Z (2 ^ n).
Proof. intros H. rewrite Zpower_Qpower by exact H. reflexivity. Qed.

Lemma Qpower2_minus (a b : Z) : 2 ^ (a - b) == 2 ^ a / 2 ^ b.
Proof.
  replace (a - b)%Z with (a + - b)%Z by lia.
  rewrite Qpower_plus by discriminate. rewrite Qpower_opp. reflexivity.
Qed.

(** A double is its own rounding. *)
Lemma rnd_representable (q : Q) (m u : Z) :
  q == inject_Z m * 2 ^ u -> (0 < m < 2 ^ 53)%Z -> (-1074 <= u)%Z ->
  rnd q == q.
Proof.
  intros Eq Hm Hu.
  pose proof (Qpower2_pos u) as Pu.
  assert (M0 : 0 < inject_Z m).
  { change 0 with (inject_Z 0). rewrite <- Zlt_Qlt. lia. }
  assert (M1 : inject_Z m < 2 ^ 53).
  { change (2 ^ 53) with (inject_Z (2 ^ 53)). rewrite <- Zlt_Qlt. lia. }
  assert (Hq : 0 < q).
  { rewrite Eq. apply Qmult_lt_0_compat; assumption. }
  rewrite (rnd_pos q Hq).
  destruct (Qlog2_spec q Hq) as [L _].
  set (l := AudioAnalyzer.Qlog2 q) in *.
  assert (Hl : (l < u + 53)%Z).
  { apply Qpower2_lt_inv. eapply Qle_lt_trans; [exact L|].
    rewrite Eq. rewrite Qpower_plus by discriminate.
    rewrite (Qmult_comm (2 ^ u)). apply Qmult_lt_r; assumption. }
  set (u' := Z.max (l - 52) (-1074)).
  assert (Hu' : (u' <= u)%Z) by (unfold u'; lia).
  pose proof (Qpower2_pos u') as Pu'.
  assert (Ey : q / 2 ^ u' == inject_Z (m * 2 ^ (u - u'))).
  { rewrite inject_Z_mult, <- Qpower2_Z by lia. rewrite Eq, Qpower2_minus.
    field. lra. }
  rewrite (roundEven_Z _ _ Ey).
  rewrite inject_Z_mult, <- Qpower2_Z by lia. rewrite Eq, Qpower2_minus.
  field. lra.
Qed.

(** Rounding does not cross a power of two from below. *)
Lemma rnd_le_power (q : Q) (e : Z) :
  0 < q -> q <= 2 ^ e ->
  (Z.max (AudioAnalyzer.Qlog2 q - 52) (-1074) <= e)%Z ->
  rnd q <= 2 ^ e.
Proof.
  intros Hq H Hu. rewrite (rnd_pos q Hq).
  set (u := Z.max (AudioAnalyzer.Qlog2 q - 52) (-1074)) in *.
  pose proof (Qpower2_pos u) as Pu.
  assert (Ey : q / 2 ^ u <= inject_Z (2 ^ (e - u))).
  { rewrite <- Qpower2_Z by lia. rewrite Qpower2_minus.
    apply Qmult_le_r; [apply Qinv_lt_0_compat; exact Pu | exact H]. }
  apply roundEven_le_Z in Ey.
  rewrite Zle_Qle in Ey. rewrite <- Qpower2_Z in Ey by lia.
  rewrite Qpower2_minus in Ey.
  apply (Qmult_le_r _ _ (2 ^ u)) in Ey; [| exact Pu].
  eapply Qle_trans; [exact Ey|].
  assert (E : 2 ^ e / 2 ^ u * 2 ^ u == 2 ^ e) by (field; lra).
  rewrite E. apply Qle_refl.
Qed.

(** Rounding is monotone. *)
Lemma rnd_mono_pos (x y : Q) : 0 < x -> x <= y -> rnd x <= rnd y.
Proof.
  intros Hx Hxy.
  assert (Hy : 0 < y) by lra.
  destruct (Qlog2_spec x Hx) as [Lx Ux].
  destruct (Qlog2_spec y Hy) as [Ly Uy].
  set (lx := AudioAnalyzer.Qlog2 x) in *.
  set (ly := AudioAnalyzer.Qlog2 y) in *.
  assert (Hl : (lx <= ly)%Z).
  { assert (K : 2 ^ lx < 2 ^ (ly + 1)) by lra.
    apply Qpower2_lt_inv in K. lia. }
  destruct (Z.eq_dec (Z.max (lx - 52) (-1074)) (Z.max (ly - 52) (-1074)))
    as [E|N].
  - rewrite (rnd_pos x Hx), (rnd_pos y Hy). fold lx ly. rewrite E.
    set (u := Z.max (ly - 52) (-1074)).
    pose proof (Qpower2_pos u) as Pu.
    apply Qmult_le_r; [exact Pu|].
    rewrite <- Zle_Qle. apply roundEven_mono.
    apply Qmult_le_r; [apply Qinv_lt_0_compat; exact Pu | exact Hxy].
  - assert (Hly : (lx < ly)%Z /\ (-1022 <= ly)%Z) by lia.
    destruct Hly as [Hlt Hly].
    apply (Qle_trans _ (2 ^ ly)).
    + apply rnd_le_power; [exact Hx | | fold lx; lia].
      apply Qlt_le_weak. eapply Qlt_le_trans; [exact Ux|].
      apply Qpower2_le. lia.
    + apply rnd_ge_power; [exact Hly | exact Ly].
Qed.

Lemma rnd_mono (x y : Q) : 0 <= x -> x <= y -> rnd x <= rnd y.
Proof.
  intros Hx Hxy. destruct (Qle_lt_or_eq _ _ Hx) as [Hp | Hz].
  - apply rnd_mono_pos; assumption.
  - rewrite (rnd_0 x) by (symmetry; exact Hz). apply rnd_nonneg. lra.
Qed.

(** The rounding of a number of [1/2, 1] is a multiple of [2^-53]. *)
Lemma rnd_grid (s : Q) :
  1 # 2 <= s -> s <= 1 ->
  exists m : Z, rnd s == inject_Z m * 2 ^ (-53) /\ (m <= 2 ^ 53)%Z.
Proof.
  intros H1 H2. destruct (Qle_lt_or_eq _ _ H2) as [Hlt | Heq].
  - assert (Hs : 0 < s) by lra.
    assert (El : AudioAnalyzer.Qlog2 s = (-1)%Z).
    { destruct (Qlog2_spec s Hs) as [L U].
      assert (A : (-1 <= AudioAnalyzer.Qlog2 s)%Z) by (apply Qlog2_ge; exact H1).
      assert (B : 2 ^ AudioAnalyzer.Qlog2 s < 2 ^ 0) by (change (2 ^ 0) with 1; lra).
      apply Qpower2_lt_inv in B. lia. }
    exists (AudioAnalyzer.roundEven (s / 2 ^ (-53))). split.
    + rewrite (rnd_pos s Hs). rewrite El. reflexivity.
    + apply roundEven_le_Z. change (2 ^ (-53)) with (1 # 9007199254740992).
      change (inject_Z (2 ^ 53)) with 9007199254740992.
      apply Qle_shift_div_r; [reflexivity | lra].
  - exists (2 ^ 53)%Z. split; [| lia].
    rewrite (rnd_representable s 1 0); [| rewrite Heq; reflexivity | lia | lia].
    rewrite Heq. reflexivity.
Qed.


Lemma rnd_1 : rnd 1 == 1.
Proof. reflexivity. Qed.

(** [1 + 2^-53] is half-way between 1 and the next double; the tie goes to
    1, whose last bit is even. *)
Lemma rnd_tie_1 : rnd (1 + (1 # 9007199254740992)) == 1.
Proof. vm_compute. reflexivity. Qed.

(** The eased volume as it is computed never exceeds 1. *)
Lemma eased_le_1 (s : Q) :
  0 <= s -> s <= 1 ->
  rnd (rnd (rnd s * rnd s) * rnd (3 - rnd (2 * rnd s))) <= 1.
Proof.
  intros Hs0 Hs1.
  set (d := 1 # 9007199254740992).
  assert (B1l : Qabs (rnd s - s) <= 2 ^ (0 - 53)).
  { apply rnd_error; [lia |]. apply Qabs_bound. change (2 ^ 0) with 1. lra. }
  apply Qabs_bound in B1l. destruct B1l as [B1l B1u].
  change (2 ^ (0 - 53)) with d in B1l, B1u.
  assert (Hn0 : 0 <= rnd s) by (apply rnd_nonneg; exact Hs0).
  assert (Hn1 : rnd s <= 1).
  { rewrite <- rnd_1. apply rnd_mono; assumption. }
  set (n := rnd s) in *.
  assert (Nn : 0 <= n * n /\ n * n <= 1).
  { split; [apply Qmult_le_0_compat; assumption |].
    setoid_replace 1 with (1 * 1) by reflexivity.
    apply Qmult_le_compat_nonneg; split; lra. }
  assert (B2l : Qabs (rnd (n * n) - (n * n)) <= 2 ^ (0 - 53)).
  { apply rnd_error; [lia |]. apply Qabs_bound. change (2 ^ 0) with 1. lra. }
  apply Qabs_bound in B2l. destruct B2l as [B2l B2u].
  change (2 ^ (0 - 53)) with d in B2l, B2u.
  assert (Ht1 : 0 <= rnd (n * n)) by (apply rnd_nonneg; lra).
  set (t1 := rnd (n * n)) in *.
  rewrite <- rnd_tie_1. fold d.
  assert (Hround : forall t3, 0 <= t3 -> t1 * t3 <= 1 + d ->
                   rnd (t1 * t3) <= rnd (1 + d)).
  { intros t3 H3 H. apply rnd_mono; [| exact H].
    apply Qmult_le_0_compat; assumption. }
  destruct (Qlt_le_dec (1 - (1 # 16777216)) n) as [Hfine | Hcrude].
  - (* the last 2^29 doubles below 1, and 1 *)
    destruct (rnd_grid s) as (m & Em & Hm); [unfold d in *; lra | exact Hs1 |].
    fold n in Em. change (2 ^ (-53)) with d in Em.
    assert (Hm0 : (2 ^ 53 - 2 ^ 29 < m)%Z).
    { rewrite Zlt_Qlt.
      apply (Qmult_lt_r _ _ d); [reflexivity|]. rewrite <- Em.
      eapply Qle_lt_trans; [| exact Hfine]. vm_compute. discriminate. }
    assert (E2n : 2 * n == inject_Z m * 2 ^ (-52)).
    { assert (P52 : 2 ^ (-52) == 2 * d) by reflexivity.
      rewrite Em, P52. ring. }
    assert (T2 : rnd (2 * n) == 2 * n).
    { destruct (Z.eq_dec m (2 ^ 53)) as [Emax | Hne].
      - apply (rnd_representable _ 1 1); [| lia | lia].
        rewrite E2n, Emax. reflexivity.
      - apply (rnd_representable _ m (-52)); [exact E2n | lia | lia]. }
    assert (T3 : rnd (3 - rnd (2 * n)) == 3 - 2 * n).
    { assert (E3 : 3 - rnd (2 * n)
                   == inject_Z (3 * 2 ^ 52 - m) * 2 ^ (-52)).
      { rewrite T2, E2n.
        unfold Zminus. rewrite inject_Z_plus, inject_Z_opp.
        change (2 ^ (-52)) with (1 # 4503599627370496).
        change (inject_Z (3 * 2 ^ 52)) with 13510798882111488. field. }
      rewrite (rnd_representable _ _ _ E3); [| lia | lia].
      rewrite T2. reflexivity. }
    apply Hround; [rewrite T3; lra |].
    rewrite T3.
    set (x := 1 - n).
    assert (Hx1 : x <= 1 # 16777216) by (unfold x; lra).
    assert (Hx0 : x == 0 \/ d <= x).
    { destruct (Z.eq_dec m (2 ^ 53)) as [Emax | Hne].
      - left. unfold x. rewrite Em, Emax. reflexivity.
      - right. unfold x. rewrite Em.
        assert (K : inject_Z m <= inject_Z (2 ^ 53 - 1)).
        { rewrite <- Zle_Qle. lia. }
        change (inject_Z (2 ^ 53 - 1)) with 9007199254740991 in K.
        unfold d. lra. }
    assert (En : n == 1 - x) by (unfold x; ring).
    assert (Key : x * (2 * d) <= x * (x * (3 - 2 * x))).
    { destruct Hx0 as [Z0 | Hd].
      - rewrite Z0. ring_simplify. apply Qle_refl.
      - assert (Hxp : 0 < x) by (unfold d in Hd; lra).
        apply Qmult_le_l; [exact Hxp|].
        apply (Qle_trans _ (x * 2)); [lra|].
        apply Qmult_le_l; [exact Hxp | lra]. }
    apply (Qle_trans _ ((n * n + d) * (3 - 2 * n))).
    + apply Qmult_le_compat_nonneg; split; lra.
    + setoid_replace ((n * n + d) * (3 - 2 * n))
        with (1 + d - (x * (x * (3 - 2 * x)) - x * (2 * d)))
        by (rewrite En; ring).
      lra.
  - (* further below 1 *)
    assert (N2 : 2 * n <= 2 /\ 0 <= 2 * n) by lra.
    assert (B3l : Qabs (rnd (2 * n) - (2 * n)) <= 2 ^ (1 - 53)).
    { apply rnd_error; [lia |]. apply Qabs_bound. change (2 ^ 1) with 2. lra. }
    apply Qabs_bound in B3l. destruct B3l as [B3l B3u].
    change (2 ^ (1 - 53)) with (1 # 4503599627370496) in B3l, B3u.
    set (t2 := rnd (2 * n)) in *.
    assert (B4l : Qabs (rnd (3 - t2) - (3 - t2)) <= 2 ^ (2 - 53)).
    { apply rnd_error; [lia |]. apply Qabs_bound. change (2 ^ 2) with 4. unfold d in *. lra. }
    apply Qabs_bound in B4l. destruct B4l as [B4l B4u].
    change (2 ^ (2 - 53)) with (1 # 2251799813685248) in B4l, B4u.
    assert (Ht3 : 0 <= rnd (3 - t2)).
    { apply rnd_nonneg. unfold d in *. lra. }
    set (t3 := rnd (3 - t2)) in *.
    apply Hround; [exact Ht3 |].
    set (x := 1 - n).
    assert (Hx : 1 # 16777216 <= x) by (unfold x; lra).
    assert (Hx1 : x <= 1) by (unfold x; lra).
    assert (En : n == 1 - x) by (unfold x; ring).
    assert (X2 : (1 # 16777216) * (1 # 16777216) <= x * x).
    { apply Qmult_le_compat_nonneg; split; lra. }
    assert (X3 : x * x * 1 <= x * x * (3 - 2 * x)).
    { apply Qmult_le_l; [| lra].
      eapply Qlt_le_trans; [| exact X2]. reflexivity. }
    apply (Qle_trans _ ((n * n + d) * (3 - 2 * n + 6 * d))).
    + apply Qmult_le_compat_nonneg; split; unfold d in *; lra.
    + setoid_replace ((n * n + d) * (3 - 2 * n + 6 * d))
        with (1 - x * x * (3 - 2 * x)
              + d * (6 * (n * n) + (3 - 2 * n) + 6 * d))
        by (rewrite En; ring).
      assert (C : (1 # 16777216) * (1 # 16777216) == 32 * d) by reflexivity.
      unfold d in *. lra.
Qed.

End Binary64Facts.

Section GrowthController64Facts.
Import Binary64.
Local Open Scope Q_scope.

Lemma div_100 (volume : Q) : div volume 100 = number (volume / 100).
Proof. reflexivity. Qed.

(** The computed growth speed on [0, 100]: finite, in [1, 3], and within
    [2^-46] of the exact value. *)
Lemma calculateGrowthSpeed64_error (volume : Q) :
  0 <= volume -> volume <= 100 ->
  exists y, GrowthController64.calculateGrowthSpeed volume = Some y /\
            1 <= y /\ y <= 3 /\
            Qabs (y - GrowthController.calculateGrowthSpeed volume) <= 2 ^ (-46).
Proof.
  intros H0 H100.
  unfold GrowthController64.calculateGrowthSpeed, GrowthController.calculateGrowthSpeed.
  cbv zeta.
  set (s := volume / 100).
  assert (Hs : 0 <= s /\ s <= 1).
  { unfold s. split.
    - apply Qle_shift_div_l; [reflexivity | lra].
    - apply Qle_shift_div_r; [reflexivity | lra]. }
  destruct Hs as [Hs0 Hs1].
  rewrite div_100. fold s.
  (* normalizedVolume *)
  destruct (number_error s 0) as [E1 B1]; [lia | |].
  { apply Qabs_bound. change (2 ^ 0) with 1. lra. }
  rewrite E1. cbn [bind]. set (n := rnd s) in *.
  change (2 ^ (0 - 53)) with (1 # 9007199254740992) in B1.
  apply Qabs_bound in B1. destruct B1 as [B1l B1u].
  assert (Hn0 : 0 <= n) by (apply rnd_nonneg; exact Hs0).
  (* normalizedVolume * normalizedVolume *)
  assert (Nn : 0 <= n * n /\ n * n <= 2).
  { split; [apply Qmult_le_0_compat; assumption |].
    setoid_replace 2 with ((3 # 2) * (4 # 3)) by reflexivity.
    apply Qmult_le_compat_nonneg; split; lra. }
  unfold mul at 1.
  destruct (number_error (n * n) 1) as [E2 B2]; [lia | |].
  { apply Qabs_bound. change (2 ^ 1) with 2. lra. }
  rewrite E2. cbn [bind]. set (t1 := rnd (n * n)) in *.
  change (2 ^ (1 - 53)) with (1 # 4503599627370496) in B2.
  assert (Ht1 : 0 <= t1) by (apply rnd_nonneg; lra).
  assert (C1 : Qabs (n * n - s * s) <= 3 # 9007199254740992).
  { eapply Qle_trans.
    - apply (mul_close n n s s (1 # 9007199254740992) (1 # 9007199254740992) 1 1);
        apply Qabs_bound; lra.
    - vm_compute. discriminate. }
  apply Qabs_bound in B2. apply Qabs_bound in C1.
  (* 2 * normalizedVolume *)
  unfold mul at 1.
  destruct (number_error (2 * n) 2) as [E3 B3]; [lia | |].
  { apply Qabs_bound. change (2 ^ 2) with 4. lra. }
  rewrite E3. cbn [bind]. set (t2 := rnd (2 * n)) in *.
  change (2 ^ (2 - 53)) with (1 # 2251799813685248) in B3.
  apply Qabs_bound in B3.
  (* 3 - 2 * normalizedVolume *)
  unfold sub.
  destruct (number_error (3 - t2) 3) as [E4 B4]; [lia | |].
  { apply Qabs_bound. change (2 ^ 3) with 8. lra. }
  rewrite E4. cbn [bind]. set (t3 := rnd (3 - t2)) in *.
  change (2 ^ (3 - 53)) with (1 # 1125899906842624) in B4.
  apply Qabs_bound in B4.
  assert (Ht3 : 0 <= t3) by (apply rnd_nonneg; lra).
  (* the product *)
  assert (Ss : 0 <= s * s /\ s * s <= 1).
  { split; [apply Qmult_le_0_compat; assumption |].
    setoid_replace 1 with (1 * 1) by reflexivity.
    apply Qmult_le_compat_nonneg; split; lra. }
  assert (C2 : Qabs (t1 * t3 - s * s * (3 - 2 * s)) <= 30 # 9007199254740992).
  { eapply Qle_trans.
    - apply (mul_close t1 t3 (s * s) (3 - 2 * s)
               (5 # 9007199254740992) (14 # 9007199254740992) 1 3);
        apply Qabs_bound; lra.
    - vm_compute. discriminate. }
  apply Qabs_bound in C2.
  assert (Se : 0 <= s * s * (3 - 2 * s) /\ s * s * (3 - 2 * s) <= 3).
  { split; [apply Qmult_le_0_compat; lra |].
    setoid_replace 3 with (1 * 3) by reflexivity.
    apply Qmult_le_compat_nonneg; split; lra. }
  unfold mul at 1.
  destruct (number_error (t1 * t3) 2) as [E5 B5]; [lia | |].
  { apply Qabs_bound. change (2 ^ 2) with 4. lra. }
  rewrite E5. cbn [bind]. set (t4 := rnd (t1 * t3)) in *.
  change (2 ^ (2 - 53)) with (1 # 2251799813685248) in B5.
  apply Qabs_bound in B5.
  assert (Ht4 : 0 <= t4).
  { apply rnd_nonneg. apply Qmult_le_0_compat; assumption. }
  (* easedVolume * 2 *)
  unfold mul.
  destruct (number_error (t4 * 2) 3) as [E6 B6]; [lia | |].
  { apply Qabs_bound. change (2 ^ 3) with 8. lra. }
  rewrite E6. cbn [bind]. set (t5 := rnd (t4 * 2)) in *.
  change (2 ^ (3 - 53)) with (1 # 1125899906842624) in B6.
  apply Qabs_bound in B6.
  assert (Ht5 : 0 <= t5) by (apply rnd_nonneg; lra).
  (* 1 + easedVolume * 2 *)
  unfold add.
  destruct (number_error (1 + t5) 3) as [E7 B7]; [lia | |].
  { apply Qabs_bound. change (2 ^ 3) with 8. lra. }
  rewrite E7. set (t6 := rnd (1 + t5)) in *.
  change (2 ^ (3 - 53)) with (1 # 1125899906842624) in B7.
  apply Qabs_bound in B7.
  exists t6. split; [reflexivity |]. split; [| split].
  - apply (rnd_ge_power (1 + t5) 0); [lia |]. change (2 ^ 0) with 1. lra.
  - assert (L4 : t4 <= 1) by (apply eased_le_1; assumption).
    assert (L5 : t5 <= 2).
    { setoid_replace 2 with (rnd 2) by reflexivity. apply rnd_mono; lra. }
    setoid_replace 3 with (rnd 3) by reflexivity. apply rnd_mono; lra.
  - apply Qabs_bound. change (2 ^ (-46)) with (1 # 70368744177664). lra.
Qed.

End GrowthController64Facts.

(* ================================================================== *)
(** * Theorems: GrowthController *)
(* ================================================================== *)

Section GrowthControllerFacts.
Import GrowthController.
Local Open Scope Q_scope.

Lemma leq_spec (a b : Q) : leq a b = true <-> a <= b.
Proof. unfold leq. apply Qle_bool_iff. Qed.

Lemma leq_false (a b : Q) : leq a b = false <-> b < a.
Proof.
  rewrite <- not_true_iff_false, leq_spec. split; [apply Qnot_le_lt | apply Qlt_not_le].
Qed.

Lemma gc_geq_spec (a b : Q) : geq a b = true <-> b <= a.
Proof. unfold geq. apply Qle_bool_iff. Qed.

Lemma gc_geq_false (a b : Q) : geq a b = false <-> a < b.
Proof.
  rewrite <- not_true_iff_false, gc_geq_spec.
  split; [apply Qnot_le_lt | apply Qlt_not_le].
Qed.

Lemma Qsquare_nonneg (v : Q) : 0 <= v * v.
Proof.
  destruct (Qlt_le_dec v 0).
  - setoid_replace (v * v) with ((- v) * (- v)) by ring.
    apply Qmult_le_0_compat; lra.
  - apply Qmult_le_0_compat; lra.
Qed.

Lemma cubic_nonneg (v : Q) : 0 <= v * v * (300 - 2 * v) <-> v <= 150.
Proof.
  split; intro H.
  - destruct (Qlt_le_dec 150 v) as [Hgt|]; [|assumption].
    assert (H1 : 0 < v * v) by (apply Qmult_lt_0_compat; lra).
    assert (H2 : 0 < v * v * (2 * v - 300)) by (apply Qmult_lt_0_compat; lra).
    assert (E : v * v * (2 * v - 300) == - (v * v * (300 - 2 * v))) by ring.
    rewrite E in H2. lra.
  - apply Qmult_le_0_compat; [apply Qsquare_nonneg | lra].
Qed.

Lemma cubic_le (v : Q) : v * v * (300 - 2 * v) <= 1000000 <-> -50 <= v.
Proof.
  assert (E : 1000000 - v * v * (300 - 2 * v)
              == (v - 100) * (v - 100) * (2 * v + 100)) by ring.
  split; intro H.
  - destruct (Qlt_le_dec v (-50)) as [Hlt|]; [|assumption].
    assert (H1 : 0 < (100 - v) * (100 - v)) by (apply Qmult_lt_0_compat; lra).
    assert (H2 : 0 < (100 - v) * (100 - v) * (- 2 * v - 100))
      by (apply Qmult_lt_0_compat; lra).
    assert (E2 : (100 - v) * (100 - v) * (- 2 * v - 100)
                 == - ((v - 100) * (v - 100) * (2 * v + 100))) by ring.
    rewrite E2, <- E in H2. lra.
  - assert (H1 : 0 <= (v - 100) * (v - 100) * (2 * v + 100)).
    { apply Qmult_le_0_compat; [apply Qsquare_nonneg | lra]. }
    rewrite <- E in H1. lra.
Qed.

(** The smoothstep form of the growth speed. *)
Lemma calculateGrowthSpeed_eq (volume : Q) :
  calculateGrowthSpeed volume ==
  1 + 2 * (volume / 100) * (volume / 100) * (3 - 2 * (volume / 100)).
Proof. unfold calculateGrowthSpeed. cbv zeta. ring. Qed.

Lemma calculateGrowthSpeed_poly (volume : Q) :
  calculateGrowthSpeed volume ==
  1 + (volume * volume * (300 - 2 * volume)) * (1 # 500000).
Proof. unfold calculateGrowthSpeed. cbv zeta. field. Qed.

(** Without a clamp on [volume], the speed is in [1,3] exactly on
    [-50, 150]. *)
Lemma calculateGrowthSpeed_range (volume : Q) :
  (1 <= calculateGrowthSpeed volume /\ calculateGrowthSpeed volume <= 3)
  <-> (-50 <= volume /\ volume <= 150).
Proof.
  rewrite calculateGrowthSpeed_poly.
  rewrite <- (cubic_nonneg volume), <- (cubic_le volume).
  generalize (volume * volume * (300 - 2 * volume)). intro c.
  split; intros [H1 H2]; split; lra.
Qed.

Lemma calculateGrowthSpeed_mono (v1 v2 : Q) :
  0 <= v1 -> v1 <= v2 -> v2 <= 100 ->
  calculateGrowthSpeed v1 <= calculateGrowthSpeed v2.
Proof.
  intros H0 H12 H100.
  rewrite !calculateGrowthSpeed_poly.
  assert (E : v2 * v2 * (300 - 2 * v2) - v1 * v1 * (300 - 2 * v1)
              == (v2 - v1) * (2 * (v1 * (100 - v1)) + 2 * (v2 * (100 - v2))
                              + v1 * (100 - v2) + v2 * (100 - v1))) by ring.
  assert (A1 : 0 <= v1 * (100 - v1)) by (apply Qmult_le_0_compat; lra).
  assert (A2 : 0 <= v2 * (100 - v2)) by (apply Qmult_le_0_compat; lra).
  assert (A3 : 0 <= v1 * (100 - v2)) by (apply Qmult_le_0_compat; lra).
  assert (A4 : 0 <= v2 * (100 - v1)) by (apply Qmult_le_0_compat; lra).
  assert (P : 0 <= (v2 - v1) * (2 * (v1 * (100 - v1)) + 2 * (v2 * (100 - v2))
                              + v1 * (100 - v2) + v2 * (100 - v1))).
  { apply Qmult_le_0_compat; lra. }
  rewrite <- E in P. lra.
Qed.

Lemma calculateColorHue_range (pitch : Q) :
  120 <= calculateColorHue pitch /\ calculateColorHue pitch <= 180.
Proof.
  unfold calculateColorHue.
  destruct (leq pitch 200) eqn:E1; [split; lra|].
  destruct (geq pitch 400) eqn:E2; [split; lra|].
  apply leq_false in E1. apply gc_geq_false in E2.
  assert (E : (pitch - 200) / 200 * 60 == (pitch - 200) * (3 # 10)) by field.
  rewrite E. split; lra.
Qed.

Lemma calculateColorSaturation_range (pitch : Q) :
  50 <= calculateColorSaturation pitch /\ calculateColorSaturation pitch <= 80.
Proof.
  unfold calculateColorSaturation.
  destruct (leq pitch 200) eqn:E1; [split; lra|].
  destruct (geq pitch 400) eqn:E2; [split; lra|].
  apply leq_false in E1. apply gc_geq_false in E2.
  assert (E : (pitch - 200) / 200 * 30 == (pitch - 200) * (3 # 20)) by field.
  rewrite E. split; lra.
Qed.

Lemma calculateColorLightness_range (pitch : Q) :
  30 <= calculateColorLightness pitch /\ calculateColorLightness pitch <= 70.
Proof.
  unfold calculateColorLightness. cbv zeta. split.
  - apply Q.le_max_l.
  - apply Q.max_lub; [lra | apply Q.le_min_l].
Qed.

(** C2 (as the source has it).  [update] is total; for every pitch the
    three colour outputs are clamped, hue into [120,180], saturation into
    [50,80] and lightness into [30,70].  The growth speed is computed from
    the volume without a clamp: it lies in [1,3] exactly when the volume
    lies in [-50,150], in particular for every volume in [0,100]. *)
Theorem update_ranges (this : t) (volume pitch deltaTime : Q) :
  let p := update this volume pitch deltaTime in
  (120 <= colorHue p /\ colorHue p <= 180) /\
  (50 <= colorSaturation p /\ colorSaturation p <= 80) /\
  (30 <= colorLightness p /\ colorLightness p <= 70) /\
  ((1 <= growthSpeed p /\ growthSpeed p <= 3)
   <-> (-50 <= volume /\ volume <= 150)).
Proof.
  cbn. repeat apply conj.
  1,2: apply calculateColorHue_range.
  1,2: apply calculateColorSaturation_range.
  1,2: apply calculateColorLightness_range.
  all: apply calculateGrowthSpeed_range.
Qed.

(** C2 as stated fails: volume 200 gives growth speed -7. *)
Lemma update_growthSpeed_not_clamped :
  growthSpeed (update new 200 300 (1 # 60)) == -7 /\
  ~ (1 <= growthSpeed (update new 200 300 (1 # 60)) /\
     growthSpeed (update new 200 300 (1 # 60)) <= 3).
Proof.
  split; [reflexivity|].
  intros [H _]. vm_compute in H. apply H. reflexivity.
Qed.

(** C5 (as the source has it).  On [0,100] the exact value of the growth
    speed is [1 + 2*s*s*(3-2*s)] with [s = volume/100]; it lies in [1,3] and
    is non-decreasing in the volume.  The value computed in binary64 is
    finite, lies in [1,3] as well and is within [2^-46] of the exact one,
    so that it is non-decreasing up to [2^-45]; at 0, 50 and 100 it is
    exactly 1, 2 and 3. *)
Theorem calculateGrowthSpeed_smoothstep :
  (forall volume, 0 <= volume -> volume <= 100 ->
     calculateGrowthSpeed volume ==
       1 + 2 * (volume / 100) * (volume / 100) * (3 - 2 * (volume / 100)) /\
     1 <= calculateGrowthSpeed volume /\ calculateGrowthSpeed volume <= 3) /\
  (forall v1 v2, 0 <= v1 -> v1 <= v2 -> v2 <= 100 ->
     calculateGrowthSpeed v1 <= calculateGrowthSpeed v2) /\
  (forall volume, 0 <= volume -> volume <= 100 ->
     exists speed,
       GrowthController64.calculateGrowthSpeed volume = Some speed /\
       1 <= speed /\ speed <= 3 /\
       Qabs (speed - calculateGrowthSpeed volume) <= 2 ^ (-46)) /\
  (forall v1 v2 speed1 speed2, 0 <= v1 -> v1 <= v2 -> v2 <= 100 ->
     GrowthController64.calculateGrowthSpeed v1 = Some speed1 ->
     GrowthController64.calculateGrowthSpeed v2 = Some speed2 ->
     speed1 <= speed2 + 2 ^ (-45)) /\
  GrowthController64.calculateGrowthSpeed 0 = Some 1 /\
  GrowthController64.calculateGrowthSpeed 50 = Some 2 /\
  GrowthController64.calculateGrowthSpeed 100 = Some 3.
Proof.
  split; [|split; [|split; [|split; [|split; [|split]]]]].
  - intros volume H0 H100. split; [apply calculateGrowthSpeed_eq|].
    apply calculateGrowthSpeed_range. split; lra.
  - apply calculateGrowthSpeed_mono.
  - apply calculateGrowthSpeed64_error.
  - intros v1 v2 speed1 speed2 H0 H12 H100 E1 E2.
    destruct (calculateGrowthSpeed64_error v1) as (y1 & F1 & _ & _ & B1);
      [lra | lra |].
    destruct (calculateGrowthSpeed64_error v2) as (y2 & F2 & _ & _ & B2);
      [lra | lra |].
    rewrite E1 in F1. rewrite E2 in F2.
    injection F1 as <-. injection F2 as <-.
    pose proof (calculateGrowthSpeed_mono v1 v2 H0 H12 H100) as M.
    apply Qabs_bound in B1. apply Qabs_bound in B2.
    change (2 ^ (-46)) with (1 # 70368744177664) in B1, B2.
    change (2 ^ (-45)) with (1 # 35184372088832).
    lra.
  - vm_compute. reflexivity.
  - vm_compute. reflexivity.
  - vm_compute. reflexivity.
Qed.

Lemma calculateGrowthSpeed_smoothstep_witness :
  (exists speed,
     GrowthController64.calculateGrowthSpeed 25 = Some speed /\
     1 <= speed /\ speed <= 3 /\
     Qabs (speed - calculateGrowthSpeed 25) <= 2 ^ (-46)) /\
  calculateGrowthSpeed 25 <= calculateGrowthSpeed 75.
Proof.
  split.
  - apply (proj1 (proj2 (proj2 calculateGrowthSpeed_smoothstep)) 25);
      vm_compute; discriminate.
  - apply (proj1 (proj2 calculateGrowthSpeed_smoothstep) 25 75);
      vm_compute; discriminate.
Defined.

(** C5 as stated fails: the computed growth speed is not non-decreasing.
    The volumes 91.47161808796227 and 91.47161808796228 are two adjacent
    doubles, [0x1.6de2efda20000p+6] and [0x1.6de2efda20001p+6]; the speed
    computed at the first is 2.9588412105510029, at the second
    2.9588412105510025, one unit in the last place less. *)
Lemma calculateGrowthSpeed_not_monotone :
  0 <= 49108451025 # 536870912 /\
  49108451025 # 536870912 < 6436742892748801 # 70368744177664 /\
  6436742892748801 # 70368744177664 <= 100 /\
  Binary64.rnd (49108451025 # 536870912) = 49108451025 # 536870912 /\
  Binary64.rnd (6436742892748801 # 70368744177664)
    = 6436742892748801 # 70368744177664 /\
  GrowthController64.calculateGrowthSpeed (49108451025 # 536870912)
    = Some (3331359043321491 # 1125899906842624) /\
  GrowthController64.calculateGrowthSpeed (6436742892748801 # 70368744177664)
    = Some (6662718086642981 # 2251799813685248) /\
  6662718086642981 # 2251799813685248 < 3331359043321491 # 1125899906842624.
Proof.
  repeat split; try (vm_compute; reflexivity); vm_compute; discriminate.
Qed.

End GrowthControllerFacts.

(* ================================================================== *)
(** * Theorems: AudioAnalyzer *)
(* ================================================================== *)

Section AudioAnalyzerFacts.
Import AudioAnalyzer.
Local Open Scope Q_scope.

Lemma ltb_spec (a b : Q) : ltb a b = true <-> a < b.
Proof.
  unfold ltb. rewrite negb_true_iff, <- not_true_iff_false, Qle_bool_iff.
  split; [apply Qnot_le_lt | apply Qlt_not_le].
Qed.

(** C4 (as the source has it).  The silence check compares the sum of the
    absolute normalized samples, not their mean, with 0.01: when that sum
    is below 0.01 the estimator returns 0 at once, whatever the sample
    rate, and no lag is searched. *)
Theorem autoCorrelate_silence (buffer : list Z) (sampleRate : Q) :
  sumAbs (normalize buffer) < 1 # 100 ->
  autoCorrelate buffer sampleRate = 0.
Proof.
  intro H. unfold autoCorrelate. cbv zeta.
  apply ltb_spec in H. rewrite H. reflexivity.
Qed.

Lemma autoCorrelate_silence_witness :
  autoCorrelate (129%Z :: repeat 128%Z 63) 44100 = 0.
Proof. apply autoCorrelate_silence. vm_compute. reflexivity. Defined.

(** C4 as stated fails.  In [twoBlips] the mean absolute amplitude is
    1/65536, far below 0.01, but the sum is 1/64: the search runs and
    reports the lag 100 between the two blips, 441 Hz at 44100 Hz. *)
Lemma autoCorrelate_mean_below_threshold :
  meanAbs twoBlips < 1 # 100 /\
  autoCorrelate twoBlips 44100 == 441 /\
  ~ autoCorrelate twoBlips 44100 == 0.
Proof.
  assert (E : autoCorrelate twoBlips 44100 = 441.00) by (vm_compute; reflexivity).
  rewrite E. split; [|split].
  - vm_compute. reflexivity.
  - reflexivity.
  - discriminate.
Qed.

End AudioAnalyzerFacts.

(* ================================================================== *)
(** * Theorems: ParticleSystem, generation *)
(* ================================================================== *)

Section GenerationFacts.
Import ParticleSystem.
Local Open Scope R_scope.

Lemma forEach_cons {A B : Type} (body : A -> Gen B) (a : A) (l : list A) (n : nat) :
  forEach body (a :: l) n =
  (fst (body a n) :: fst (forEach body l (snd (body a n))),
   snd (forEach body l (snd (body a n)))).
Proof.
  cbn [forEach]. unfold bind, ret.
  destruct (body a n) as [b n1]. cbn [fst snd].
  destruct (forEach body l n1) as [bs n2]. reflexivity.
Qed.

Lemma forEach_length {A B : Type} (body : A -> Gen B) (l : list A) (n : nat) :
  length (fst (forEach body l n)) = length l.
Proof.
  revert n. induction l as [|a l IH]; intro n; [reflexivity|].
  rewrite forEach_cons. cbn [fst length]. now rewrite IH.
Qed.

Lemma forEach_Forall2 {A B : Type} (Rel : A -> B -> Prop) (body : A -> Gen B) :
  (forall a n, Rel a (fst (body a n))) ->
  forall l n, Forall2 Rel l (fst (forEach body l n)).
Proof.
  intros Hbody l. induction l as [|a l IH]; intro n.
  - constructor.
  - rewrite forEach_cons. cbn [fst]. constructor; [apply Hbody | apply IH].
Qed.

Lemma forEach_Forall {A B : Type} (P : B -> Prop) (body : A -> Gen B) :
  (forall a n, P (fst (body a n))) ->
  forall l n, Forall P (fst (forEach body l n)).
Proof.
  intros Hbody l. induction l as [|a l IH]; intro n.
  - constructor.
  - rewrite forEach_cons. cbn [fst]. constructor; [apply Hbody | apply IH].
Qed.

Lemma Forall_concat {B : Type} (P : B -> Prop) (ll : list (list B)) :
  Forall (Forall P) ll -> Forall P (concat ll).
Proof.
  induction 1 as [|l ll Hl _ IH]; cbn; [constructor|].
  apply Forall_app. split; assumption.
Qed.

Lemma length_concat_const {B : Type} (k : nat) (ll : list (list B)) :
  Forall (fun l => length l = k) ll -> length (concat ll) = (k * length ll)%nat.
Proof.
  induction 1 as [|l ll Hl _ IH]; cbn; [lia|].
  rewrite length_app, IH, Hl. lia.
Qed.

Variable random : nat -> R.

(** What one [spawn] returns. *)
Lemma spawn_fields (this : t) (baseSpeed verticalBias x y : R) (color : string)
    (currentTime : R) (partType : PartType) (partIndex : option nat) (n : nat) :
  let p := fst (spawn random this baseSpeed verticalBias x y color currentTime
                  partType partIndex n) in
  Particle.x p = x /\ Particle.y p = y /\ Particle.color p = color /\
  Particle.alpha p = 1 /\ Particle.life p = 1 /\
  Particle.partType p = Some partType /\
  Particle.maxLife p = 3 + random (3 + n)%nat * 2.
Proof. cbn. repeat split. Qed.

(** [generateParticles] runs the three loops one after the other. *)
Lemma generateParticles_groups (this : t) (stemHeight : R)
    (leaves : list Leaf.t) (flowerPoints : list FlowerPoint.t)
    (volume pitch currentTime : R) (n : nat) :
  exists baseSpeed verticalBias n1 n2,
    fst (generateParticles random this stemHeight leaves flowerPoints
           volume pitch currentTime n)
    = {| particles :=
           fst (flowerLoop random this baseSpeed verticalBias flowerPoints
                  currentTime n)
           ++ fst (stemLoop random this baseSpeed verticalBias stemHeight
                     currentTime n1)
           ++ concat (fst (leafLoop random this baseSpeed verticalBias leaves
                             currentTime n2));
         phase := scatter;
         seedPosition := seedPosition this |}.
Proof.
  unfold generateParticles. cbv zeta.
  set (baseSpeed := 1 + volume / 100 * 4).
  set (verticalBias := (Rmax 0 (Rmin 1 ((pitch - 200) / 600)) - 5 / 10) * 2).
  exists baseSpeed, verticalBias.
  unfold bind at 1.
  destruct (flowerLoop random this baseSpeed verticalBias flowerPoints
              currentTime n) as [fl n1].
  exists n1. unfold bind at 1.
  destruct (stemLoop random this baseSpeed verticalBias stemHeight
              currentTime n1) as [st n2].
  exists n2. unfold bind at 1.
  destruct (leafLoop random this baseSpeed verticalBias leaves currentTime n2)
    as [lf n3].
  reflexivity.
Qed.

Lemma Forall2_Forall_r {A B : Type} (Rel : A -> B -> Prop) (P : B -> Prop)
    (l : list A) (l' : list B) :
  (forall a b, Rel a b -> P b) -> Forall2 Rel l l' -> Forall P l'.
Proof.
  intros HP H. induction H as [|a b l l' Hab _ IH]; constructor;
    [exact (HP a b Hab) | exact IH].
Qed.

Lemma filter_all {B : Type} (f : B -> bool) (l : list B) :
  Forall (fun b => f b = true) l -> filter f l = l.
Proof.
  induction 1 as [|b l Hb _ IH]; cbn; [reflexivity|]. now rewrite Hb, IH.
Qed.

Lemma filter_none {B : Type} (f : B -> bool) (l : list B) :
  Forall (fun b => f b = false) l -> filter f l = [].
Proof.
  induction 1 as [|b l Hb _ IH]; cbn; [reflexivity|]. now rewrite Hb, IH.
Qed.

Lemma flowerLoop_spec (this : t) (baseSpeed verticalBias : R)
    (flowerPoints : list FlowerPoint.t) (currentTime : R) (n : nat) :
  Forall2 (fun point p => atPoint point p /\ isFlower p = true /\ Particle.alpha p = 1)
    flowerPoints
    (fst (flowerLoop random this baseSpeed verticalBias flowerPoints currentTime n)).
Proof.
  unfold flowerLoop. apply forEach_Forall2. intros point m.
  cbn. unfold atPoint, isFlower. cbn. tauto.
Qed.

Lemma stemLoop_spec (this : t) (baseSpeed verticalBias stemHeight currentTime : R)
    (n : nat) :
  let st := fst (stemLoop random this baseSpeed verticalBias stemHeight
                   currentTime n) in
  length st = 11%nat /\
  Forall (fun p => isFlower p = false /\ Particle.alpha p = 1) st.
Proof.
  cbv zeta. unfold stemLoop. split.
  - rewrite forEach_length. reflexivity.
  - apply forEach_Forall. intros i m. cbn. unfold isFlower. cbn. tauto.
Qed.

Lemma leafLoop_spec (this : t) (baseSpeed verticalBias : R)
    (leaves : list Leaf.t) (currentTime : R) (n : nat) :
  let lf := fst (leafLoop random this baseSpeed verticalBias leaves
                   currentTime n) in
  length (concat lf) = (5 * length leaves)%nat /\
  Forall (fun p => isFlower p = false /\ Particle.alpha p = 1) (concat lf).
Proof.
  cbv zeta. unfold leafLoop. split.
  - rewrite (length_concat_const 5).
    + rewrite forEach_length, length_combine, length_seq. f_equal. lia.
    + apply forEach_Forall. intros [leafIndex leaf] m.
      rewrite forEach_length. reflexivity.
  - apply Forall_concat. apply forEach_Forall. intros [leafIndex leaf] m.
    apply forEach_Forall. intros i m'. cbn. unfold isFlower. cbn. tauto.
Qed.

(** After [generateParticles] every particle is opaque. *)
Lemma generateParticles_alpha (this : t) (stemHeight : R)
    (leaves : list Leaf.t) (flowerPoints : list FlowerPoint.t)
    (volume pitch currentTime : R) (n : nat) :
  Forall (fun p => Particle.alpha p = 1)
    (particles (fst (generateParticles random this stemHeight leaves
                       flowerPoints volume pitch currentTime n))).
Proof.
  destruct (generateParticles_groups this stemHeight leaves flowerPoints
              volume pitch currentTime n) as (bs & vb & n1 & n2 & E).
  rewrite E. cbn [particles].
  pose proof (flowerLoop_spec this bs vb flowerPoints currentTime n) as Hf.
  pose proof (stemLoop_spec this bs vb stemHeight currentTime n1) as [_ Hs].
  pose proof (leafLoop_spec this bs vb leaves currentTime n2) as [_ Hl].
  rewrite !Forall_app. repeat split.
  - eapply Forall2_Forall_r; [|exact Hf]. cbn. tauto.
  - eapply Forall_impl; [|exact Hs]. cbn. tauto.
  - eapply Forall_impl; [|exact Hl]. cbn. tauto.
Qed.

Lemma generateParticles_length (this : t) (stemHeight : R)
    (leaves : list Leaf.t) (flowerPoints : list FlowerPoint.t)
    (volume pitch currentTime : R) (n : nat) :
  length (particles (fst (generateParticles random this stemHeight leaves
                            flowerPoints volume pitch currentTime n)))
  = (length flowerPoints + 11 + 5 * length leaves)%nat.
Proof.
  destruct (generateParticles_groups this stemHeight leaves flowerPoints
              volume pitch currentTime n) as (bs & vb & n1 & n2 & E).
  rewrite E. cbn [particles]. rewrite !length_app.
  pose proof (stemLoop_spec this bs vb stemHeight currentTime n1) as [Hs _].
  pose proof (leafLoop_spec this bs vb leaves currentTime n2) as [Hl _].
  rewrite Hs, Hl. unfold flowerLoop. rewrite forEach_length. lia.
Qed.

(** C3 (as the source has it).  [generateParticles] spawns one particle
    per flower point, in order and at the point's position and colour, and
    after them 11 particles for the stem and 5 for every leaf: the particle
    count is the number of points plus 11 plus five times the number of
    leaves.  The phase after the call is always scatter. *)
Theorem generateParticles_count (this : t) (stemHeight : R)
    (leaves : list Leaf.t) (flowerPoints : list FlowerPoint.t)
    (volume pitch currentTime : R) (calls : nat) :
  let this' := fst (generateParticles random this stemHeight leaves
                      flowerPoints volume pitch currentTime calls) in
  Forall2 atPoint flowerPoints (filter isFlower (particles this')) /\
  length (particles this')
    = (length flowerPoints + 11 + 5 * length leaves)%nat /\
  phase this' = scatter.
Proof.
  cbv zeta. split; [|split].
  - destruct (generateParticles_groups this stemHeight leaves flowerPoints
                volume pitch currentTime calls) as (bs & vb & n1 & n2 & E).
    rewrite E. cbn [particles].
    pose proof (flowerLoop_spec this bs vb flowerPoints currentTime calls) as Hf.
    pose proof (stemLoop_spec this bs vb stemHeight currentTime n1) as [_ Hs].
    pose proof (leafLoop_spec this bs vb leaves currentTime n2) as [_ Hl].
    rewrite !filter_app.
    rewrite (filter_none isFlower (fst (stemLoop _ _ _ _ _ _ _)))
      by (eapply Forall_impl; [|exact Hs]; cbn; tauto).
    rewrite (filter_none isFlower (concat _))
      by (eapply Forall_impl; [|exact Hl]; cbn; tauto).
    rewrite !app_nil_r.
    rewrite filter_all.
    + eapply Forall2_impl; [|exact Hf]. cbn. tauto.
    + eapply Forall2_Forall_r; [|exact Hf]. cbn. tauto.
  - apply generateParticles_length.
  - destruct (generateParticles_groups this stemHeight leaves flowerPoints
                volume pitch currentTime calls) as (bs & vb & n1 & n2 & E).
    rewrite E. reflexivity.
Qed.

End GenerationFacts.

(** C3 as stated fails: one flower point and no leaf give 12 particles. *)
Lemma generateParticles_count_not_points :
  let flowerPoints :=
    [ParticleSystem.FlowerPoint.mk 400%R 250%R "rgb(255, 200, 220)"] in
  let this' :=
    fst (ParticleSystem.generateParticles (fun _ => 0%R)
           (ParticleSystem.new (ParticleSystem.Point.mk 400%R 450%R))
           200%R [] flowerPoints 50%R 440%R 0%R 0%nat) in
  length (ParticleSystem.particles this') = 12%nat /\
  length (ParticleSystem.particles this') <> length flowerPoints.
Proof.
  cbv zeta. rewrite generateParticles_length. cbn. split; [reflexivity | lia].
Qed.

(* ================================================================== *)
(** * Theorems: ParticleSystem, the scatter phase *)
(* ================================================================== *)

Section ScatterFacts.
Import ParticleSystem.
Local Open Scope R_scope.

Lemma js_ltb_Fin (x y : R) : JS.ltb (JS.Fin x) (JS.Fin y) = true <-> x < y.
Proof.
  cbn. destruct (Rlt_dec x y); split; intro H; try reflexivity;
    try assumption; try discriminate; contradiction.
Qed.

(** The mean of no particle is [0 / 0], which is NaN. *)
Lemma avgAlpha_nil : avgAlpha [] = JS.NaN.
Proof.
  unfold avgAlpha. cbn.
  destruct (Req_dec_T 0 0) as [_|H]; [reflexivity | contradiction H; reflexivity].
Qed.

Lemma sum_alpha_const (a : R) (l : list Particle.t) (s : R) :
  Forall (fun p => Particle.alpha p = a) l ->
  fold_left (fun sum p => sum + Particle.alpha p) l s = s + INR (length l) * a.
Proof.
  intro H. revert s. induction H as [|p l Hp _ IH]; intro s.
  - cbn. lra.
  - cbn [fold_left]. rewrite IH, Hp.
    change (length (p :: l)) with (S (length l)). rewrite S_INR. lra.
Qed.

(** The mean of equal values is that value. *)
Lemma avgAlpha_const (a : R) (l : list Particle.t) :
  l <> [] -> Forall (fun p => Particle.alpha p = a) l ->
  avgAlpha l = JS.Fin a.
Proof.
  intros Hne H. unfold avgAlpha. rewrite (sum_alpha_const a l 0 H).
  assert (Hn : INR (length l) <> 0).
  { apply not_0_INR. destruct l; [contradiction | discriminate]. }
  cbn. destruct (Req_dec_T (INR (length l)) 0) as [E|_]; [contradiction|].
  f_equal. field. exact Hn.
Qed.

Lemma updateScatterPhase_nil (this : t) (deltaTime : R) :
  particles this = [] ->
  updateScatterPhase this deltaTime = mk [] (phase this) (seedPosition this).
Proof.
  intro E. unfold updateScatterPhase. rewrite E. cbn [map].
  rewrite avgAlpha_nil. reflexivity.
Qed.

Lemma particles_update_nil (this : t) (deltaTime currentTime : R) :
  particles (update this deltaTime currentTime) = [] <-> particles this = [].
Proof.
  unfold update, updateScatterPhase, updateConvergePhase.
  destruct (phase this); cbn [particles];
    (split; intro H; [apply map_eq_nil in H; exact H | rewrite H; reflexivity]).
Qed.

(** In every state produced by the public methods: while the phase is
    scatter all particles share one opacity, at least the threshold; and
    an empty system is in the scatter phase. *)
Lemma reachable_invariant (this : t) :
  reachable this ->
  (phase this = scatter ->
     exists a, alphaThreshold <= a /\
               Forall (fun p => Particle.alpha p = a) (particles this)) /\
  (particles this = [] -> phase this = scatter).
Proof.
  induction 1 as [seed | this random calls stemHeight leaves flowerPoints
                          volume pitch currentTime Hr IH Hrand
                 | this deltaTime currentTime Hr IH | this Hr IH].
  - split; [|reflexivity]. intros _. exists alphaThreshold.
    split; [lra | constructor].
  - split.
    + intros _. exists 1. split; [unfold alphaThreshold; lra|].
      apply generateParticles_alpha.
    + intro E. apply (f_equal (@length _)) in E.
      rewrite generateParticles_length in E. cbn in E. lia.
  - destruct IH as [IHa IHe]. split.
    + intro Hph. unfold update in *.
      destruct (phase this) eqn:Ephase.
      2:{ unfold updateConvergePhase in Hph. cbn in Hph. congruence. }
      destruct (IHa eq_refl) as (a & Ha & Hall).
      set (a' := Rmax 0 (a - alphaDecayRate * deltaTime)).
      assert (Hall' : Forall (fun p => Particle.alpha p = a')
                        (map (scatterStep deltaTime) (particles this))).
      { apply Forall_map. eapply Forall_impl; [|exact Hall].
        intros p Hp. cbn. rewrite Hp. reflexivity. }
      unfold updateScatterPhase in *. cbn [particles phase] in *.
      destruct (particles this) as [|p rest] eqn:Eparts.
      * exists alphaThreshold. split; [lra | constructor].
      * exists a'. split; [|exact Hall'].
        rewrite (avgAlpha_const a') in Hph; [|discriminate|exact Hall'].
        destruct (JS.ltb (JS.Fin a') (JS.Fin alphaThreshold)) eqn:Elt;
          [discriminate|].
        apply Rnot_lt_le. intro Hlt. apply js_ltb_Fin in Hlt. congruence.
    + intro E. apply particles_update_nil in E.
      pose proof (IHe E) as Hph. unfold update. rewrite Hph.
      rewrite updateScatterPhase_nil by exact E. cbn. exact Hph.
  - split; [|reflexivity]. intros _. exists alphaThreshold.
    split; [lra | constructor].
Qed.

Lemma scatterStep_vy (deltaTime : R) (p : Particle.t) :
  Particle.vy (scatterStep deltaTime p)
  = Particle.vy p + 5 / 10 * deltaTime * 60.
Proof. reflexivity. Qed.

Lemma scatterStep_alpha (deltaTime : R) (p : Particle.t) :
  Particle.alpha (scatterStep deltaTime p)
  = Rmax 0 (Particle.alpha p - 3 / 10 * deltaTime).
Proof. reflexivity. Qed.

Lemma scatterStep_life (deltaTime : R) (p : Particle.t) :
  Particle.life (scatterStep deltaTime p)
  = Rmax 0 (Particle.life p - deltaTime / Particle.maxLife p).
Proof. reflexivity. Qed.

(** C7. In the scatter phase of a system produced by the public methods,
    one [update] with [dt > 0] adds [0.5 * dt * 60] to the [vy] of every
    particle, which therefore strictly increases; the opacity becomes
    [max 0 (alpha - 0.3 * dt)] and strictly decreases; the life becomes
    [max 0 (life - dt / maxLife)]; neither goes below 0. *)
Theorem update_scatter_step (this : t) (deltaTime currentTime : R) :
  reachable this ->
  phase this = scatter ->
  0 < deltaTime ->
  Forall2 (fun p p' =>
             Particle.vy p' = Particle.vy p + 5 / 10 * deltaTime * 60 /\
             Particle.vy p < Particle.vy p' /\
             Particle.alpha p' = Rmax 0 (Particle.alpha p - 3 / 10 * deltaTime) /\
             Particle.alpha p' < Particle.alpha p /\
             0 <= Particle.alpha p' /\
             Particle.life p'
               = Rmax 0 (Particle.life p - deltaTime / Particle.maxLife p) /\
             0 <= Particle.life p')
    (particles this) (particles (update this deltaTime currentTime)).
Proof.
  intros Hr Hph Hdt.
  destruct (proj1 (reachable_invariant this Hr) Hph) as (a & Ha & Hall).
  unfold update. rewrite Hph. unfold updateScatterPhase. cbn [particles].
  unfold alphaThreshold in Ha.
  induction Hall as [|p l Hp _ IH]; cbn [map]; constructor; [|exact IH].
  rewrite scatterStep_vy, scatterStep_alpha, scatterStep_life.
  repeat split; try lra; try apply Rmax_l.
  rewrite Hp. unfold Rmax. destruct (Rle_dec 0 (a - 3 / 10 * deltaTime)); lra.
Qed.

End ScatterFacts.

Section EmptySystemFacts.
Import ParticleSystem.
Local Open Scope R_scope.

Lemma justGenerated_reachable : reachable justGenerated.
Proof.
  unfold justGenerated. apply reach_generate; [apply reach_new|].
  intro n. lra.
Qed.

Lemma update_scatter_step_witness :
  Forall2 (fun p p' =>
             Particle.vy p' = Particle.vy p + 5 / 10 * (1 / 60) * 60 /\
             Particle.vy p < Particle.vy p' /\
             Particle.alpha p' = Rmax 0 (Particle.alpha p - 3 / 10 * (1 / 60)) /\
             Particle.alpha p' < Particle.alpha p /\
             0 <= Particle.alpha p' /\
             Particle.life p'
               = Rmax 0 (Particle.life p - 1 / 60 / Particle.maxLife p) /\
             0 <= Particle.life p')
    (particles justGenerated) (particles (update justGenerated (1 / 60) 0)).
Proof.
  apply update_scatter_step.
  - exact justGenerated_reachable.
  - reflexivity.
  - lra.
Defined.

(** C10. While the particle list of a system produced by the public
    methods is empty (after construction or [reset], before any
    generation), the phase is scatter, [allParticlesArrived] is false, and
    an [update] changes none of this: the mean opacity of no particle is
    NaN, and [NaN < 0.3] is false. *)
Theorem update_empty_stays_scatter (this : t) (deltaTime currentTime : R) :
  reachable this ->
  particles this = [] ->
  phase this = scatter /\
  allParticlesArrived this = false /\
  particles (update this deltaTime currentTime) = [] /\
  phase (update this deltaTime currentTime) = scatter /\
  allParticlesArrived (update this deltaTime currentTime) = false.
Proof.
  intros Hr E.
  pose proof (proj2 (reachable_invariant this Hr) E) as Hph.
  assert (Hup : update this deltaTime currentTime = mk [] scatter (seedPosition this)).
  { unfold update. rewrite Hph. rewrite updateScatterPhase_nil by exact E.
    rewrite Hph. reflexivity. }
  rewrite Hup. unfold allParticlesArrived. rewrite Hph. cbn. tauto.
Qed.

Lemma update_empty_stays_scatter_witness :
  phase (update (reset justGenerated) (1 / 60) 0) = scatter /\
  allParticlesArrived (update (reset justGenerated) (1 / 60) 0) = false.
Proof.
  pose proof (update_empty_stays_scatter (reset justGenerated) (1 / 60) 0
                (reach_reset _ justGenerated_reachable) eq_refl) as H.
  split; apply H.
Defined.

End EmptySystemFacts.

(* ================================================================== *)
(** * Theorems: ParticleSystem, the converge phase *)
(* ================================================================== *)

Section ConvergeFacts.
Import ParticleSystem.
Local Open Scope R_scope.

Lemma convergeSpeed_bounds (d : R) :
  0 <= d -> 4 <= convergeSpeed d <= 16.
Proof.
  intro Hd. unfold convergeSpeed, convergenceSpeed. cbv zeta.
  set (q := Rmin (d / 300) 1).
  assert (Hq : 0 <= q <= 1).
  { unfold q, Rmin. destruct (Rle_dec (d / 300) 1); lra. }
  assert (H0 : 0 <= (1 - q) ^ 3) by (apply pow_le; lra).
  assert (H1 : (1 - q) ^ 3 <= 1).
  { rewrite <- (pow1 3). apply pow_incr. lra. }
  lra.
Qed.

Lemma moveDistance_bounds (deltaTime d : R) :
  0 <= deltaTime -> 0 <= d -> 0 <= moveDistance deltaTime d <= d.
Proof.
  intros Hdt Hd. unfold moveDistance.
  pose proof (convergeSpeed_bounds d Hd) as Hs.
  assert (0 <= convergeSpeed d * deltaTime * 60) by nra.
  unfold Rmin. destruct (Rle_dec _ d); lra.
Qed.

(** Moving by [m] along the unit vector to a point at distance [d] leaves
    the point at distance [d - m]. *)
Lemma sqrt_scaled (dx dy m : R) :
  let d := sqrt (dx * dx + dy * dy) in
  0 < d -> 0 <= m <= d ->
  sqrt ((dx - dx / d * m) * (dx - dx / d * m)
        + (dy - dy / d * m) * (dy - dy / d * m)) = d - m.
Proof.
  intros d Hd Hm.
  assert (Hsq : d * d = dx * dx + dy * dy).
  { unfold d. apply sqrt_sqrt. nra. }
  apply sqrt_lem_1;
    [generalize (dx - dx / d * m), (dy - dy / d * m); intros; nra | lra |].
  assert (E1 : dx - dx / d * m = dx * ((d - m) / d)) by (field; lra).
  assert (E2 : dy - dy / d * m = dy * ((d - m) / d)) by (field; lra).
  rewrite E1, E2.
  replace (dx * ((d - m) / d) * (dx * ((d - m) / d))
           + dy * ((d - m) / d) * (dy * ((d - m) / d)))
    with ((dx * dx + dy * dy) * (((d - m) / d) * ((d - m) / d))) by ring.
  rewrite <- Hsq. field. lra.
Qed.

(** The distance of a particle to its target after one converge step. *)
Lemma convergeStep_distance (deltaTime : R) (p : Particle.t) :
  0 <= deltaTime ->
  distance (convergeStep deltaTime p)
  = if Rlt_dec arrivalThreshold (distance p)
    then distance p - moveDistance deltaTime (distance p)
    else distance p.
Proof.
  intro Hdt. unfold convergeStep, distance at 1. cbv zeta.
  fold (distance p).
  destruct (Rlt_dec arrivalThreshold (distance p)) as [Hfar|Hnear];
    cbn [Particle.x Particle.y Particle.targetX Particle.targetY];
    [|reflexivity].
  unfold arrivalThreshold in Hfar.
  assert (Hd : 0 < distance p) by lra.
  pose proof (moveDistance_bounds deltaTime (distance p) Hdt (Rlt_le _ _ Hd)) as Hm.
  set (dx := Particle.targetX p - Particle.x p) in *.
  set (dy := Particle.targetY p - Particle.y p) in *.
  set (m := moveDistance deltaTime (distance p)) in *.
  replace (Particle.targetX p - (Particle.x p + dx / distance p * m))
    with (dx - dx / distance p * m) by (unfold dx; ring).
  replace (Particle.targetY p - (Particle.y p + dy / distance p * m))
    with (dy - dy / distance p * m) by (unfold dy; ring).
  apply (sqrt_scaled dx dy m); [exact Hd | exact Hm].
Qed.

(** C6. In the converge phase, one [update] with [dt >= 0] moves every
    particle farther than the arrival threshold by
    [min (speed * dt * 60) distance] towards its target and leaves the
    others in place: the new distance is the old one minus that
    displacement, never negative and never larger than the old one. *)
Theorem update_converge_distance (this : t) (deltaTime currentTime : R) :
  phase this = converge ->
  0 <= deltaTime ->
  Forall2 (fun p p' =>
             0 <= distance p' /\
             distance p' <= distance p /\
             (arrivalThreshold < distance p ->
                distance p' =
                  distance p
                  - Rmin (convergeSpeed (distance p) * deltaTime * 60)
                         (distance p)) /\
             (~ arrivalThreshold < distance p -> distance p' = distance p))
    (particles this) (particles (update this deltaTime currentTime)).
Proof.
  intros Hph Hdt. unfold update. rewrite Hph.
  unfold updateConvergePhase. cbn [particles].
  induction (particles this) as [|p l IH]; cbn [map]; constructor; [|exact IH].
  rewrite (convergeStep_distance deltaTime p Hdt).
  assert (Hd : 0 <= distance p) by (unfold distance; apply sqrt_pos).
  pose proof (moveDistance_bounds deltaTime (distance p) Hdt Hd) as Hm.
  fold (moveDistance deltaTime (distance p)).
  destruct (Rlt_dec arrivalThreshold (distance p)); repeat split;
    intros; try lra; try contradiction.
Qed.

(** The loop of [allParticlesArrived] is a universal test. *)
Lemma arrivedLoop_spec (l : list Particle.t) :
  arrivedLoop l = true <-> Forall (fun p => distance p <= arrivalThreshold) l.
Proof.
  induction l as [|p l IH]; cbn [arrivedLoop].
  - split; [constructor | reflexivity].
  - destruct (Rlt_dec arrivalThreshold (distance p)) as [Hfar|Hnear].
    + split; [discriminate|]. intro H. inversion H; subst. lra.
    + rewrite IH. split; intro H.
      * constructor; [lra | exact H].
      * inversion H; assumption.
Qed.

(** C8. [allParticlesArrived] is true exactly when the phase is converge
    and every particle is within the arrival threshold, 5, of its target;
    in the scatter phase it is false. *)
Theorem allParticlesArrived_spec (this : t) :
  (allParticlesArrived this = true <->
     phase this = converge /\
     Forall (fun p => distance p <= 5) (particles this)) /\
  (phase this = scatter -> allParticlesArrived this = false).
Proof.
  unfold allParticlesArrived. destruct (phase this).
  - split; [|reflexivity]. split; [discriminate | intros [H _]; discriminate].
  - split; [|discriminate]. rewrite arrivedLoop_spec. unfold arrivalThreshold.
    tauto.
Qed.

Lemma update_converge_distance_witness :
  Forall2 (fun p p' =>
             0 <= distance p' /\
             distance p' <= distance p /\
             (arrivalThreshold < distance p ->
                distance p' =
                  distance p
                  - Rmin (convergeSpeed (distance p) * (1 / 60) * 60)
                         (distance p)) /\
             (~ arrivalThreshold < distance p -> distance p' = distance p))
    (particles converging) (particles (update converging (1 / 60) 0)).
Proof.
  apply update_converge_distance.
  - reflexivity.
  - lra.
Defined.

Lemma allParticlesArrived_spec_witness : allParticlesArrived arrived = true.
Proof.
  apply (proj2 (proj1 (allParticlesArrived_spec arrived))).
  split; [reflexivity|].
  constructor; [|constructor].
  unfold distance. cbn.
  replace ((400 - 400) * (400 - 400) + (450 - 450) * (450 - 450)) with 0 by lra.
  rewrite sqrt_0. lra.
Defined.

End ConvergeFacts.

(* ================================================================== *)
(** * Theorems: RoseCurve *)
(* ================================================================== *)

Section RoseCurveFacts.
Import RoseCurve.
Local Open Scope R_scope.

Lemma getMaxTheta_cases (k : R) :
  (Rabs (k - round k) < 1 / 100 /\ getMaxTheta k = 2 * PI) \/
  (~ Rabs (k - round k) < 1 / 100 /\ getMaxTheta k = 4 * PI).
Proof.
  unfold getMaxTheta. destruct (Rlt_dec (Rabs (k - round k)) (1 / 100)); tauto.
Qed.

Lemma getMaxTheta_pos (k : R) : 0 < getMaxTheta k.
Proof.
  pose proof PI_RGT_0.
  destruct (getMaxTheta_cases k) as [[_ E]|[_ E]]; rewrite E; lra.
Qed.

(** [k] is within 0.01 of an integer exactly when it is within 0.01 of
    [Math.round(k)]. *)
Lemma near_integer_round (k : R) :
  (exists z : Z, Rabs (k - IZR z) < 1 / 100) <-> Rabs (k - round k) < 1 / 100.
Proof.
  split.
  - intros [z Hz]. unfold round.
    assert (E : Zfloor (k + 1 / 2) = z).
    { apply Zfloor_eq. apply Rabs_def2 in Hz. lra. }
    rewrite E. exact Hz.
  - intro H. exists (Zfloor (k + 1 / 2)). exact H.
Qed.

Lemma step_Fin (k : R) (segments : Z) :
  segments <> 0%Z ->
  step k segments = JS.Fin (getMaxTheta k / IZR segments).
Proof.
  intro Hs. unfold step. cbn.
  destruct (Req_dec_T (IZR segments) 0) as [E|_]; [|reflexivity].
  apply eq_IZR_R0 in E. contradiction.
Qed.

Lemma sampleTheta_Fin (k : R) (segments i : Z) :
  segments <> 0%Z ->
  sampleTheta k segments i = JS.Fin (IZR i * (getMaxTheta k / IZR segments)).
Proof. intro Hs. unfold sampleTheta. rewrite step_Fin by exact Hs. reflexivity. Qed.

Lemma sampleTheta_range (k : R) (segments i : Z) :
  (1 <= segments)%Z -> (0 <= i <= segments)%Z ->
  0 <= IZR i * (getMaxTheta k / IZR segments) <= getMaxTheta k.
Proof.
  intros Hs [Hi0 Hi1].
  pose proof (getMaxTheta_pos k) as HM.
  apply IZR_le in Hs, Hi0, Hi1.
  assert (Hpos : 0 < IZR segments) by lra.
  assert (E : IZR i * (getMaxTheta k / IZR segments)
              = getMaxTheta k * (IZR i / IZR segments)) by (field; lra).
  rewrite E.
  assert (Hq : 0 <= IZR i / IZR segments <= 1).
  { split.
    - apply Rmult_le_pos; [lra|]. left. apply Rinv_0_lt_compat. exact Hpos.
    - apply (Rmult_le_reg_r (IZR segments)); [exact Hpos|].
      replace (IZR i / IZR segments * IZR segments) with (IZR i) by (field; lra).
      lra. }
  nra.
Qed.

Lemma indices_range (segments i : Z) :
  In i (indices segments) <-> (0 <= i <= segments)%Z.
Proof.
  unfold indices. rewrite in_map_iff. split.
  - intros [n [E Hn]]. apply in_seq in Hn. lia.
  - intro H. exists (Z.to_nat i). split; [lia|]. apply in_seq. lia.
Qed.

Lemma point_nonneg (a k : R) (segments i : Z) :
  (1 <= segments)%Z -> (0 <= i <= segments)%Z ->
  exists rv tv,
    r (point a k segments i) = JS.Fin rv /\
    theta (point a k segments i) = JS.Fin tv /\
    0 <= rv /\ 0 <= tv.
Proof.
  intros Hs Hi. unfold point. cbv zeta.
  rewrite sampleTheta_Fin by lia.
  pose proof (sampleTheta_range k segments i Hs Hi) as Ht.
  set (t := IZR i * (getMaxTheta k / IZR segments)) in *.
  cbn [JS.mul JS.cos JS.abs r theta].
  exists (Rabs (a * cos (k * t))).
  pose proof PI_RGT_0.
  destruct (JS.ltb (JS.Fin (a * cos (k * t))) (JS.Fin 0)).
  - exists (t + PI). cbn. repeat split; [apply Rabs_pos | lra].
  - exists t. repeat split; [apply Rabs_pos | lra].
Qed.

(** ** Within the range of a double *)

Lemma limit_pos : 0 < Double.limit.
Proof. unfold Double.limit. apply IZR_lt. reflexivity. Qed.

Lemma number_Fin (x : R) : Rabs x < Double.limit -> Double.number x = JS.Fin x.
Proof.
  intro H. unfold Double.number.
  destruct (Rlt_dec (Rabs x) Double.limit); [reflexivity | contradiction].
Qed.

Lemma number_below (x : R) (b : Z) :
  Rabs x <= IZR b -> (b < (2 ^ 54 - 1) * 2 ^ 970)%Z ->
  Double.number x = JS.Fin x.
Proof.
  intros H Hb. apply number_Fin. unfold Double.limit.
  apply IZR_lt in Hb. lra.
Qed.

Lemma getMaxTheta_le (k : R) : getMaxTheta k <= 16.
Proof.
  pose proof PI_4. pose proof PI_RGT_0.
  destruct (getMaxTheta_cases k) as [[_ E]|[_ E]]; rewrite E; lra.
Qed.

Lemma step_agree (k : R) (segments : Z) :
  (1 <= segments)%Z -> RoseCurve64.step k segments = step k segments.
Proof.
  intro Hs. unfold RoseCurve64.step, Double.div. fold (step k segments).
  rewrite step_Fin by lia. cbn [Double.range].
  apply (number_below _ 16); [| reflexivity].
  pose proof (sampleTheta_range k segments 1 Hs ltac:(lia)) as Hr.
  pose proof (getMaxTheta_le k).
  rewrite Rmult_1_l in Hr. rewrite Rabs_right by lra. lra.
Qed.

Lemma sampleTheta_agree (k : R) (segments i : Z) :
  (1 <= segments)%Z -> (0 <= i <= segments)%Z ->
  RoseCurve64.sampleTheta k segments i = sampleTheta k segments i.
Proof.
  intros Hs Hi. unfold RoseCurve64.sampleTheta, Double.mul.
  rewrite step_agree by exact Hs. fold (sampleTheta k segments i).
  rewrite sampleTheta_Fin by lia. cbn [Double.range].
  apply (number_below _ 16); [| reflexivity].
  pose proof (sampleTheta_range k segments i Hs Hi) as Hr.
  pose proof (getMaxTheta_le k).
  rewrite Rabs_right by lra. lra.
Qed.

(** With [a] finite and [k] of magnitude at most [10^307], no operation of
    the loop body leaves the range. *)
Lemma point_agree (a k : R) (segments i : Z) :
  Rabs a < Double.limit -> Rabs k <= IZR (10 ^ 307) ->
  (1 <= segments)%Z -> (0 <= i <= segments)%Z ->
  RoseCurve64.point a k segments i = point a k segments i.
Proof.
  intros Ha Hk Hs Hi. unfold RoseCurve64.point, point. cbv zeta.
  rewrite sampleTheta_agree by assumption.
  rewrite sampleTheta_Fin by lia.
  pose proof (sampleTheta_range k segments i Hs Hi) as Hr.
  pose proof (getMaxTheta_le k) as HM.
  set (t := IZR i * (getMaxTheta k / IZR segments)) in *.
  assert (E1 : Double.mul (JS.Fin k) (JS.Fin t) = JS.Fin (k * t)).
  { unfold Double.mul. cbn [JS.mul Double.range].
    apply (number_below _ (16 * 10 ^ 307)); [| reflexivity].
    rewrite Rabs_mult, (Rabs_right t) by lra.
    rewrite mult_IZR. pose proof (Rabs_pos k).
    rewrite Rmult_comm. apply Rmult_le_compat; lra. }
  rewrite E1. cbn [JS.cos].
  assert (E2 : Double.mul (JS.Fin a) (JS.Fin (cos (k * t)))
               = JS.Fin (a * cos (k * t))).
  { unfold Double.mul. cbn [JS.mul Double.range].
    apply number_Fin. rewrite Rabs_mult.
    pose proof (COS_bound (k * t)) as [C1 C2].
    assert (Rabs (cos (k * t)) <= 1) by (apply Rabs_le; lra).
    pose proof (Rabs_pos a). pose proof (Rabs_pos (cos (k * t))). nra. }
  rewrite E2. cbn [JS.mul JS.cos].
  destruct (JS.ltb (JS.Fin (a * cos (k * t))) (JS.Fin 0)); [| reflexivity].
  f_equal. unfold Double.add. cbn [JS.add Double.range].
  apply (number_below _ 20); [| reflexivity].
  pose proof PI_4. pose proof PI_RGT_0. rewrite Rabs_right by lra. lra.
Qed.

Lemma calculateCurve_agree (a k : R) (segments : Z) :
  Rabs a < Double.limit -> Rabs k <= IZR (10 ^ 307) -> (1 <= segments)%Z ->
  RoseCurve64.calculateCurve a k segments = calculateCurve a k segments.
Proof.
  intros Ha Hk Hs. unfold RoseCurve64.calculateCurve, calculateCurve.
  apply map_ext_in. intros i Hi. apply indices_range in Hi.
  apply point_agree; assumption.
Qed.

(** C9 (as the source has it).  For every finite [a], every [k] of magnitude
    at most [10^307] and every integer [segments] from 1 to [2^32 - 2] (the
    points fit in an array), [calculateCurve] returns exactly
    [segments + 1] points, each with a finite [r >= 0] and [theta >= 0].
    The angles sampled before the rotation start at 0, are never negative
    and never above the last one, [segments * step], which is the maximum
    angle: [2 PI] when [k] is within 0.01 of an integer and [4 PI]
    otherwise. *)
Theorem calculateCurve_spec (a k : R) (segments : Z) :
  Rabs a < Double.limit -> Rabs k <= IZR (10 ^ 307) ->
  (1 <= segments <= 4294967294)%Z ->
  Z.of_nat (length (RoseCurve64.calculateCurve a k segments))
    = (segments + 1)%Z /\
  Forall (fun p => exists rv tv,
            r p = JS.Fin rv /\ theta p = JS.Fin tv /\ 0 <= rv /\ 0 <= tv)
    (RoseCurve64.calculateCurve a k segments) /\
  (forall i, (0 <= i <= segments)%Z ->
     exists t last,
       RoseCurve64.sampleTheta k segments i = JS.Fin t /\
       RoseCurve64.sampleTheta k segments segments = JS.Fin last /\
       0 <= t <= last) /\
  RoseCurve64.sampleTheta k segments 0 = JS.Fin 0 /\
  RoseCurve64.sampleTheta k segments segments = JS.Fin (getMaxTheta k) /\
  ((exists z : Z, Rabs (k - IZR z) < 1 / 100) -> getMaxTheta k = 2 * PI) /\
  (~ (exists z : Z, Rabs (k - IZR z) < 1 / 100) -> getMaxTheta k = 4 * PI).
Proof.
  intros Ha Hk [Hs Hmax].
  assert (Elast : sampleTheta k segments segments = JS.Fin (getMaxTheta k)).
  { rewrite sampleTheta_Fin by lia. f_equal. field.
    apply IZR_le in Hs. lra. }
  repeat apply conj.
  - unfold RoseCurve64.calculateCurve, indices.
    rewrite !length_map, length_seq. lia.
  - rewrite calculateCurve_agree by assumption.
    unfold calculateCurve. apply Forall_map. apply Forall_forall.
    intros i Hi. apply indices_range in Hi. apply point_nonneg; assumption.
  - intros i Hi. rewrite !sampleTheta_agree by lia. rewrite Elast.
    rewrite sampleTheta_Fin by lia. do 2 eexists.
    split; [reflexivity|]. split; [reflexivity|].
    apply sampleTheta_range; assumption.
  - rewrite sampleTheta_agree by lia.
    rewrite sampleTheta_Fin by lia. f_equal. lra.
  - rewrite sampleTheta_agree by lia. exact Elast.
  - rewrite near_integer_round.
    destruct (getMaxTheta_cases k) as [[_ E]|[N _]]; [intros _; exact E | tauto].
  - rewrite near_integer_round.
    destruct (getMaxTheta_cases k) as [[Y _]|[_ E]]; [tauto | intros _; exact E].
Qed.

Lemma calculateCurve_spec_witness :
  Z.of_nat (length (RoseCurve64.calculateCurve 100 5 360)) = 361%Z.
Proof.
  apply (calculateCurve_spec 100 5 360).
  - unfold Double.limit. rewrite Rabs_right by lra. apply IZR_lt. reflexivity.
  - rewrite Rabs_right by lra. apply IZR_le. vm_compute. discriminate.
  - lia.
Defined.

(** C9 as stated fails for [segments = 0]: the step is [maxTheta / 0],
    infinite, the one sampled angle is [0 * Infinity], and the point
    returned has NaN for both coordinates.  It fails for a large [k] as
    well: with [k = 10^308] and one segment the second angle is [2 PI], the
    product [k * theta] is infinite, its cosine is NaN and so is the
    radius. *)
Lemma calculateCurve_not_always_valid :
  RoseCurve64.calculateCurve 1 1 0 = [mkPolar JS.NaN JS.NaN] /\
  ~ Forall (fun p => JS.nonneg (r p) /\ JS.nonneg (theta p))
      (RoseCurve64.calculateCurve 1 1 0) /\
  RoseCurve64.calculateCurve 1 (IZR (10 ^ 308)) 1
    = [mkPolar (JS.Fin 1) (JS.Fin 0); mkPolar JS.NaN (JS.Fin (2 * PI))] /\
  ~ Forall (fun p => JS.nonneg (r p) /\ JS.nonneg (theta p))
      (RoseCurve64.calculateCurve 1 (IZR (10 ^ 308)) 1).
Proof.
  assert (E : RoseCurve64.calculateCurve 1 1 0 = [mkPolar JS.NaN JS.NaN]).
  { unfold RoseCurve64.calculateCurve. change (indices 0) with [0%Z]. cbn [map].
    unfold RoseCurve64.point, RoseCurve64.sampleTheta, RoseCurve64.step.
    cbv zeta.
    pose proof (getMaxTheta_pos 1) as HM.
    assert (Hd : Double.div (JS.Fin (getMaxTheta 1)) (JS.Fin 0) = JS.PosInf).
    { unfold Double.div. cbn [JS.div].
      destruct (Req_dec_T 0 0) as [_|N]; [|contradiction N; reflexivity].
      destruct (Req_dec_T (getMaxTheta 1) 0) as [Z0|_]; [lra|].
      destruct (Rlt_dec 0 (getMaxTheta 1)); [reflexivity | contradiction]. }
    rewrite Hd.
    assert (Hm : Double.mul (JS.Fin 0) JS.PosInf = JS.NaN).
    { unfold Double.mul. cbn [JS.mul].
      destruct (Req_dec_T 0 0) as [_|N]; [reflexivity|].
      contradiction N; reflexivity. }
    rewrite Hm. reflexivity. }
  assert (E' : RoseCurve64.calculateCurve 1 (IZR (10 ^ 308)) 1
               = [mkPolar (JS.Fin 1) (JS.Fin 0);
                  mkPolar JS.NaN (JS.Fin (2 * PI))]).
  { pose proof PI_RGT_0 as HPI. pose proof PI_4 as HPI4.
    assert (EM : getMaxTheta (IZR (10 ^ 308)) = 2 * PI).
    { unfold getMaxTheta.
      destruct (Rlt_dec _ _) as [_|N]; [reflexivity|]. exfalso. apply N.
      unfold round. rewrite <- (Rplus_0_r (IZR (10 ^ 308) + 1 / 2)) at 1.
      replace (Zfloor (IZR (10 ^ 308) + 1 / 2 + 0)) with (10 ^ 308)%Z.
      - rewrite Rminus_diag, Rabs_R0. lra.
      - symmetry. apply Zfloor_eq. lra. }
    unfold RoseCurve64.calculateCurve. change (indices 1) with [0%Z; 1%Z].
    cbn [map].
    assert (Es : RoseCurve64.step (IZR (10 ^ 308)) 1 = JS.Fin (2 * PI)).
    { rewrite step_agree by lia. rewrite step_Fin by lia. rewrite EM.
      f_equal. field. }
    unfold RoseCurve64.point, RoseCurve64.sampleTheta. cbv zeta.
    rewrite Es.
    assert (T0 : Double.mul (JS.Fin 0) (JS.Fin (2 * PI)) = JS.Fin 0).
    { unfold Double.mul. cbn [JS.mul Double.range]. rewrite Rmult_0_l.
      apply number_Fin. rewrite Rabs_R0. apply limit_pos. }
    assert (T1 : Double.mul (JS.Fin 1) (JS.Fin (2 * PI)) = JS.Fin (2 * PI)).
    { unfold Double.mul. cbn [JS.mul Double.range]. rewrite Rmult_1_l.
      apply (number_below _ 8); [| reflexivity].
      rewrite Rabs_right by lra. lra. }
    rewrite T0, T1.
    assert (K0 : Double.mul (JS.Fin (IZR (10 ^ 308))) (JS.Fin 0) = JS.Fin 0).
    { unfold Double.mul. cbn [JS.mul Double.range]. rewrite Rmult_0_r.
      apply number_Fin. rewrite Rabs_R0. apply limit_pos. }
    assert (K1 : Double.mul (JS.Fin (IZR (10 ^ 308))) (JS.Fin (2 * PI))
                 = JS.PosInf).
    { unfold Double.mul. cbn [JS.mul Double.range]. unfold Double.number.
      assert (B : IZR (10 ^ 308) * 6 <= IZR (10 ^ 308) * (2 * PI)).
      { apply Rmult_le_compat_l; [apply IZR_le; vm_compute; discriminate|].
        pose proof PI2_3_2. lra. }
      assert (L : Double.limit < IZR (10 ^ 308) * 6).
      { unfold Double.limit. rewrite <- (mult_IZR (10 ^ 308) 6).
        apply IZR_lt. reflexivity. }
      pose proof limit_pos.
      destruct (Rlt_dec _ _) as [C|_].
      - rewrite Rabs_right in C by lra. lra.
      - destruct (Rlt_dec _ _) as [_|C]; [reflexivity | lra]. }
    rewrite K0, K1. cbn [JS.cos].
    rewrite cos_0.
    assert (A1 : Double.mul (JS.Fin 1) (JS.Fin 1) = JS.Fin 1).
    { unfold Double.mul. cbn [JS.mul Double.range]. rewrite Rmult_1_l.
      apply (number_below _ 1); [| reflexivity].
      rewrite Rabs_right by lra. lra. }
    rewrite A1. cbn [Double.mul JS.mul Double.range JS.abs JS.ltb].
    destruct (Rlt_dec 1 0) as [C|_]; [lra|].
    rewrite Rabs_right by lra. reflexivity. }
  split; [exact E|]. split.
  - rewrite E. intro H. inversion H as [|? ? [Hr _] _]; subst. exact Hr.
  - split; [exact E'|]. rewrite E'. intro H.
    inversion H as [|? ? _ H2]; subst.
    inversion H2 as [|? ? [Hr _] _]; subst. exact Hr.
Qed.

End RoseCurveFacts.

(* ================================================================== *)
(** * Further properties: StateMachine *)
(* ================================================================== *)

Section StateMachineRuns.
Import StateMachine.
Local Open Scope Q_scope.

Lemma updates_cons (this : t) (input : Q * Q) (inputs : list (Q * Q)) :
  updates this (input :: inputs)
  = updates (update this (fst input) (snd input)) inputs.
Proof. reflexivity. Qed.

Lemma rank_le_4 (s : GrowthState) : (rank s <= 4)%nat.
Proof. destruct s; cbn; lia. Qed.

(** X1. Over any run of updates the growth stage never moves backwards, and it
    advances by at most one stage per call. *)
Theorem updates_rank_bounds (this : t) (inputs : list (Q * Q)) :
  (rank (currentState this) <= rank (currentState (updates this inputs))
   <= rank (currentState this) + length inputs)%nat.
Proof.
  revert this. induction inputs as [|input inputs IH]; intro this.
  - cbn. lia.
  - rewrite updates_cons.
    specialize (IH (update this (fst input) (snd input))).
    pose proof (update_rank_step this (fst input) (snd input)) as Hstep.
    cbv zeta in Hstep. cbn [length].
    destruct Hstep as [E|E]; rewrite E in IH; lia.
Qed.

(** X2. The growth progress alone never germinates the seed: while every
    volume stays below 30, a seed stays a seed. *)
Theorem updates_quiet_seed (this : t) (inputs : list (Q * Q)) :
  currentState this = SEED ->
  Forall (fun input => fst input < 30) inputs ->
  currentState (updates this inputs) = SEED.
Proof.
  intros Hs Hq. revert this Hs.
  induction Hq as [|input inputs Hin _ IH]; intros this Hs; [exact Hs|].
  rewrite updates_cons. apply IH.
  destruct this as [s]. cbn in Hs. subst s. unfold update. cbn.
  destruct (geq (fst input) THRESHOLDS.SEED_TO_SPROUT_VOLUME) eqn:E;
    [|reflexivity].
  apply geq_spec in E. unfold THRESHOLDS.SEED_TO_SPROUT_VOLUME in E.
  exfalso. apply (Qlt_not_le _ _ Hin). exact E.
Qed.

Lemma updates_quiet_seed_witness :
  currentState (updates new [(29, 1000); (0, 400); (12, 100)]) = SEED.
Proof.
  apply updates_quiet_seed; [reflexivity|].
  repeat constructor.
Defined.

(** X3. With a loud voice and a grown plant every call advances: while each
    input has [volume >= 70] and [growthProgress >= 300], the stage after
    [n] calls is [n] stages further, up to Scatter. *)
Theorem updates_loud_grown (this : t) (inputs : list (Q * Q)) :
  Forall (fun input => 70 <= fst input /\ 300 <= snd input) inputs ->
  rank (currentState (updates this inputs))
  = Nat.min 4 (rank (currentState this) + length inputs).
Proof.
  intro H. revert this. induction H as [|input inputs [Hv Hp] _ IH]; intro this.
  - unfold updates. cbn [fold_left length].
    pose proof (rank_le_4 (currentState this)). lia.
  - rewrite updates_cons, IH. cbn [length].
    assert (Hstep : rank (currentState (update this (fst input) (snd input)))
                    = Nat.min 4 (S (rank (currentState this)))).
    { destruct this as [s]. unfold update. cbn [currentState].
      assert (G1 : geq (fst input) THRESHOLDS.SEED_TO_SPROUT_VOLUME = true).
      { apply geq_spec. unfold THRESHOLDS.SEED_TO_SPROUT_VOLUME.
        apply Qle_trans with 70; [discriminate | exact Hv]. }
      assert (G2 : geq (snd input) THRESHOLDS.SPROUT_TO_STEM_LENGTH = true).
      { apply geq_spec. unfold THRESHOLDS.SPROUT_TO_STEM_LENGTH.
        apply Qle_trans with 300; [discriminate | exact Hp]. }
      assert (G3 : geq (snd input) THRESHOLDS.STEM_TO_BLOOM_LENGTH = true).
      { apply geq_spec. exact Hp. }
      assert (G4 : geq (fst input) THRESHOLDS.BLOOM_TO_SCATTER_VOLUME = true).
      { apply geq_spec. exact Hv. }
      destruct s; rewrite ?G1, ?G2, ?G3, ?G4; reflexivity. }
    rewrite Hstep. lia.
Qed.

Lemma updates_loud_grown_witness :
  rank (currentState (updates new [(80, 300); (70, 350); (90, 400)])) = 3%nat.
Proof.
  apply (updates_loud_grown new [(80, 300); (70, 350); (90, 400)]).
  repeat constructor; vm_compute; discriminate.
Defined.

End StateMachineRuns.

(* ================================================================== *)
(** * Further properties: GrowthController *)
(* ================================================================== *)

Section GrowthControllerMaps.
Import GrowthController.
Local Open Scope Q_scope.

(** X4. The sway has the sign of the pitch relative to the base pitch last
    set, and [getBasePitch] reads back what [setBasePitch] stored. *)
Theorem swayAmount_sign (this : t) (base volume pitch deltaTime : Q) :
  let this' := setBasePitch this base in
  let sway := swayAmount (update this' volume pitch deltaTime) in
  getBasePitch this' = base /\
  (0 < sway <-> base < pitch) /\
  (sway == 0 <-> pitch == base) /\
  (sway < 0 <-> pitch < base).
Proof.
  cbv zeta. cbn. unfold calculateSwayAmount. cbn.
  assert (E : (pitch - base) / 100 == (pitch - base) * (1 # 100))
    by (unfold Qdiv; reflexivity).
  rewrite E. split; [reflexivity|].
  repeat split; intro H; lra.
Qed.

(** X5. The hue is 120 up to 200 Hz, 180 from 400 Hz on, linear in between
    (0.3 degree per Hz), and never decreases when the pitch rises. *)
Theorem calculateColorHue_piecewise (pitch : Q) :
  (pitch <= 200 -> calculateColorHue pitch == 120) /\
  (400 <= pitch -> calculateColorHue pitch == 180) /\
  (200 <= pitch -> pitch <= 400 ->
     calculateColorHue pitch == 120 + (3 # 10) * (pitch - 200)) /\
  (forall pitch', pitch <= pitch' ->
     calculateColorHue pitch <= calculateColorHue pitch').
Proof.
  assert (Hform : forall p,
            (p <= 200 /\ calculateColorHue p = 120) \/
            (200 < p /\ 400 <= p /\ calculateColorHue p = 180) \/
            (200 < p /\ p < 400 /\
             calculateColorHue p == 120 + (3 # 10) * (p - 200))).
  { intro p. unfold calculateColorHue.
    destruct (leq p 200) eqn:E1.
    - left. apply leq_spec in E1. split; [exact E1 | reflexivity].
    - apply leq_false in E1. right. destruct (geq p 400) eqn:E2.
      + left. apply gc_geq_spec in E2. repeat split; assumption.
      + right. apply gc_geq_false in E2. repeat split; try assumption.
        field. }
  repeat split.
  - intro H. destruct (Hform pitch) as [[_ E]|[[A [B E]]|[A [B E]]]];
      rewrite E; lra.
  - intro H. destruct (Hform pitch) as [[A E]|[[A [B E]]|[A [B E]]]];
      rewrite E; lra.
  - intros H1 H2. destruct (Hform pitch) as [[A E]|[[A [B E]]|[A [B E]]]];
      rewrite E; lra.
  - intros pitch' H.
    destruct (Hform pitch) as [[A E]|[[A [B E]]|[A [B E]]]];
    destruct (Hform pitch') as [[A' E']|[[A' [B' E']]|[A' [B' E']]]];
      rewrite E, E'; lra.
Qed.

Lemma calculateColorHue_piecewise_witness :
  calculateColorHue 300 == 120 + (3 # 10) * (300 - 200).
Proof.
  apply (proj1 (proj2 (proj2 (calculateColorHue_piecewise 300))));
    vm_compute; discriminate.
Defined.

(** X6. Hue and saturation move together: for every pitch the saturation is
    50 plus half of what the hue has gained over 120. *)
Theorem saturation_follows_hue (pitch : Q) :
  calculateColorSaturation pitch == 50 + (calculateColorHue pitch - 120) / 2.
Proof.
  unfold calculateColorSaturation, calculateColorHue.
  destruct (leq pitch 200); [reflexivity|].
  destruct (geq pitch 400); [reflexivity|].
  field.
Qed.

(** X7. The lightness is 30 for a pitch up to 0, 70 from 400 Hz on,
    [30 + pitch / 10] in between, and never decreases when the pitch
    rises. *)
Theorem calculateColorLightness_piecewise (pitch : Q) :
  (pitch <= 0 -> calculateColorLightness pitch == 30) /\
  (400 <= pitch -> calculateColorLightness pitch == 70) /\
  (0 <= pitch -> pitch <= 400 ->
     calculateColorLightness pitch == 30 + pitch / 10) /\
  (forall pitch', pitch <= pitch' ->
     calculateColorLightness pitch <= calculateColorLightness pitch').
Proof.
  assert (Hdiv : forall p, p / 10 == p * (1 # 10))
    by (intro p; unfold Qdiv; reflexivity).
  unfold calculateColorLightness. cbv zeta. repeat split.
  - intro H. rewrite Hdiv. rewrite (Q.min_r 70) by lra. apply Q.max_l. lra.
  - intro H. rewrite Hdiv. rewrite (Q.min_l 70) by lra. apply Q.max_r. lra.
  - intros H0 H1. rewrite Hdiv. rewrite (Q.min_r 70) by lra. apply Q.max_r. lra.
  - intros pitch' H.
    apply Q.max_le_compat_l. apply Q.min_le_compat_l.
    rewrite !Hdiv. lra.
Qed.

Lemma calculateColorLightness_piecewise_witness :
  calculateColorLightness 250 == 30 + 250 / 10.
Proof.
  apply (proj1 (proj2 (proj2 (calculateColorLightness_piecewise 250))));
    vm_compute; discriminate.
Defined.


End GrowthControllerMaps.

(* ================================================================== *)
(** * Further properties: the pitch estimator *)
(* ================================================================== *)

Section PeakSearchFacts.
Import AudioAnalyzer.
Local Open Scope Q_scope.

Lemma gtb_spec (a b : Q) : gtb a b = true <-> b < a.
Proof.
  unfold gtb. rewrite negb_true_iff, <- not_true_iff_false, Qle_bool_iff.
  split; [apply Qnot_le_lt | apply Qlt_not_le].
Qed.

Lemma gtb_false (a b : Q) : gtb a b = false <-> a <= b.
Proof.
  unfold gtb. rewrite negb_false_iff. apply Qle_bool_iff.
Qed.

Lemma lags_range (minLag upper lag : Z) :
  In lag (lags minLag upper) <-> (minLag <= lag < upper)%Z.
Proof.
  unfold lags. rewrite in_map_iff. split.
  - intros [i [E Hi]]. apply in_seq in Hi. lia.
  - intro H. exists (Z.to_nat (lag - minLag)). split; [lia|].
    apply in_seq. lia.
Qed.

Lemma visit_fold (correlations : list Q) (l : list Z) (s : Search) :
  let s' := fold_left (visit correlations) l s in
  maxCorrelation s <= maxCorrelation s' /\
  (forall lag c, In lag l -> lookup correlations lag = Some c ->
                 c <= maxCorrelation s') /\
  (s' = s \/
   (foundPeak s' = true /\ In (bestLag s') l /\
    maxCorrelation s < maxCorrelation s' /\
    lookup correlations (bestLag s') = Some (maxCorrelation s'))).
Proof.
  revert s. induction l as [|a l IH]; intros s; cbv zeta.
  - cbn. split; [apply Qle_refl|]. split; [intros ? ? []|]. left. reflexivity.
  - cbn [fold_left].
    remember (visit correlations s a) as s1 eqn:Es1.
    assert (H1 : maxCorrelation s <= maxCorrelation s1 /\
                 (forall c, lookup correlations a = Some c ->
                            c <= maxCorrelation s1) /\
                 (s1 = s \/
                  (foundPeak s1 = true /\ bestLag s1 = a /\
                   maxCorrelation s < maxCorrelation s1 /\
                   lookup correlations a = Some (maxCorrelation s1)))).
    { rewrite Es1. unfold visit. destruct (lookup correlations a) as [c|] eqn:El.
      - destruct (gtb c (maxCorrelation s)) eqn:Eg.
        + apply gtb_spec in Eg. cbn. split; [apply Qlt_le_weak; exact Eg|].
          split.
          * intros c' Ec'. injection Ec' as <-. apply Qle_refl.
          * right. repeat split; auto.
        + apply gtb_false in Eg. split; [apply Qle_refl|]. split.
          * intros c' Ec'. injection Ec' as <-. exact Eg.
          * left. reflexivity.
      - split; [apply Qle_refl|]. split; [intros c' Ec'; discriminate|].
        left. reflexivity. }
    destruct H1 as (Hle1 & Hmax1 & Hcase1).
    clear Es1. destruct (IH s1) as (Hle & Hmax & Hcase).
    split; [eapply Qle_trans; eassumption|]. split.
    + intros lag c [<-|Hin] Hl.
      * eapply Qle_trans; [apply Hmax1; exact Hl | exact Hle].
      * eapply Hmax; eassumption.
    + destruct Hcase as [E|(Hf & Hin & Hlt & Hl)].
      * rewrite E. destruct Hcase1 as [E1|(Hf & Hb & Hlt & Hl)];
          [left; exact E1|].
        right. split; [exact Hf|]. split; [left; symmetry; exact Hb|].
        split; [exact Hlt | rewrite Hb; exact Hl].
      * right. split; [exact Hf|]. split; [right; exact Hin|].
        split; [eapply Qle_lt_trans; eassumption | exact Hl].
Qed.

Lemma peakSearch_found (correlations : list Q) (minLag upper : Z) :
  let s := peakSearch correlations minLag upper in
  foundPeak s = true ->
  (minLag <= bestLag s < upper)%Z /\
  lookup correlations (bestLag s) = Some (maxCorrelation s).
Proof.
  cbv zeta. unfold peakSearch. intro Hf.
  destruct (visit_fold correlations (lags minLag upper) (mkSearch 0 0 false))
    as (_ & _ & [E|(_ & Hin & _ & Hl)]).
  - rewrite E in Hf. discriminate.
  - apply lags_range in Hin. split; assumption.
Qed.

(** X9. The peak search finds a peak exactly when some searched lag has a
    positive correlation; the peak it reports is a searched lag that
    carries the largest correlation of all searched lags. *)
Theorem peakSearch_maximum (correlations : list Q) (minLag upper : Z) :
  let s := peakSearch correlations minLag upper in
  (foundPeak s = true <->
     exists lag c, (minLag <= lag < upper)%Z /\
                   lookup correlations lag = Some c /\ 0 < c) /\
  (foundPeak s = true ->
     (minLag <= bestLag s < upper)%Z /\
     0 < maxCorrelation s /\
     lookup correlations (bestLag s) = Some (maxCorrelation s) /\
     forall lag c, (minLag <= lag < upper)%Z ->
                   lookup correlations lag = Some c ->
                   c <= maxCorrelation s) /\
  (foundPeak s = false -> bestLag s = 0%Z).
Proof.
  cbv zeta. unfold peakSearch.
  destruct (visit_fold correlations (lags minLag upper) (mkSearch 0 0 false))
    as (Hle & Hmax & Hcase).
  cbv zeta in *. cbn [maxCorrelation] in Hle, Hcase.
  set (s := fold_left (visit correlations) (lags minLag upper)
                      (mkSearch 0 0 false)) in *.
  split; [|split].
  - split.
    + intro Hf. destruct Hcase as [E|(_ & Hin & Hlt & Hl)].
      * rewrite E in Hf. discriminate.
      * exists (bestLag s), (maxCorrelation s).
        apply lags_range in Hin. auto.
    + intros (lag & c & Hr & Hl & Hc).
      destruct Hcase as [E|(Hf & _)]; [|exact Hf].
      exfalso. apply lags_range in Hr.
      pose proof (Hmax lag c Hr Hl) as Hc'. rewrite E in Hc'. cbn in Hc'.
      apply (Qlt_not_le _ _ Hc). exact Hc'.
  - intro Hf. destruct Hcase as [E|(_ & Hin & Hlt & Hl)].
    + rewrite E in Hf. discriminate.
    + apply lags_range in Hin. repeat split; try tauto.
      intros lag c Hr Hlc. apply (Hmax lag c); [apply lags_range|]; assumption.
  - intro Hf. destruct Hcase as [E|(Hf' & _)]; [rewrite E; reflexivity|].
    congruence.
Qed.

Lemma peakSearch_maximum_witness :
  (2 <= bestLag (peakSearch [5; 1; -2; 3; 3; 0]%Q 2 5) < 5)%Z.
Proof.
  apply (proj1 (proj2 (peakSearch_maximum [5; 1; -2; 3; 3; 0]%Q 2 5))).
  reflexivity.
Defined.

Lemma length_correlate (normalized : list Q) :
  length (correlate normalized) = length normalized.
Proof. unfold correlate. rewrite length_map, length_seq. reflexivity. Qed.

Lemma length_normalize (buffer : list Z) :
  length (normalize buffer) = length buffer.
Proof. unfold normalize. apply length_map. Qed.

Lemma lookup_Some_range (correlations : list Q) (lag : Z) (c : Q) :
  lookup correlations lag = Some c ->
  (0 <= lag < Z.of_nat (length correlations))%Z.
Proof.
  unfold lookup. destruct (lag <? 0)%Z eqn:E; [discriminate|].
  apply Z.ltb_ge in E. intro H.
  assert (Hn : nth_error correlations (Z.to_nat lag) <> None) by congruence.
  apply nth_error_Some in Hn. lia.
Qed.

Lemma autoCorrelate_cases (buffer : list Z) (sampleRate : Q) :
  let s := peakSearch (correlate (normalize buffer))
             (Qfloor (sampleRate / 1000))
             (Z.min (Qfloor (sampleRate / 80)) (Z.of_nat (length buffer))) in
  autoCorrelate buffer sampleRate = 0 \/
  (foundPeak s = true /\ bestLag s <> 0%Z /\
   autoCorrelate buffer sampleRate = sampleRate / inject_Z (bestLag s)).
Proof.
  cbv zeta. unfold autoCorrelate. cbv zeta.
  destruct (ltb (sumAbs (normalize buffer)) (1 # 100)); [left; reflexivity|].
  rewrite length_correlate, length_normalize.
  fold (peakSearch (correlate (normalize buffer)) (Qfloor (sampleRate / 1000))
          (Z.min (Qfloor (sampleRate / 80)) (Z.of_nat (length buffer)))).
  set (s := peakSearch _ _ _).
  destruct (foundPeak s) eqn:Ef; cbn [negb orb]; [|left; reflexivity].
  destruct (bestLag s =? 0)%Z eqn:Eb; [left; reflexivity|].
  right. apply Z.eqb_neq in Eb. auto.
Qed.

(** X10. Every pitch reported is 0 or [sampleRate / lag] for a whole number of
    samples [lag] inside the buffer with [sampleRate / 1000 - 1 < lag <
    sampleRate / 80]: a non-zero pitch is above 80 Hz. *)
Theorem autoCorrelate_range (buffer : list Z) (sampleRate : Q) :
  0 < sampleRate ->
  autoCorrelate buffer sampleRate = 0 \/
  exists lag : Z,
    autoCorrelate buffer sampleRate = sampleRate / inject_Z lag /\
    (1 <= lag < Z.of_nat (length buffer))%Z /\
    sampleRate / 1000 - 1 < inject_Z lag /\
    inject_Z lag < sampleRate / 80 /\
    80 < autoCorrelate buffer sampleRate.
Proof.
  intro Hsr.
  destruct (autoCorrelate_cases buffer sampleRate) as [E|(Hf & Hb & E)];
    [left; exact E|].
  right. cbv zeta in *.
  set (s := peakSearch _ _ _) in *. exists (bestLag s).
  destruct (peakSearch_found _ _ _ Hf) as ((Hlo & Hhi) & Hl).
  fold s in Hlo, Hhi, Hl.
  apply lookup_Some_range in Hl.
  rewrite length_correlate, length_normalize in Hl.
  assert (Hlag : (1 <= bestLag s)%Z) by lia.
  assert (Hq1 : 1 <= inject_Z (bestLag s)).
  { change 1 with (inject_Z 1). rewrite <- Zle_Qle. exact Hlag. }
  assert (Hup : inject_Z (bestLag s) < sampleRate / 80).
  { apply Qlt_le_trans with (inject_Z (Qfloor (sampleRate / 80))).
    - rewrite <- Zlt_Qlt. lia.
    - apply Qfloor_le. }
  assert (Hdn : sampleRate / 1000 - 1 < inject_Z (bestLag s)).
  { apply Qlt_le_trans with (inject_Z (Qfloor (sampleRate / 1000))).
    - pose proof (Qlt_floor (sampleRate / 1000)) as Hfl.
      rewrite inject_Z_plus in Hfl. change (inject_Z 1) with 1 in Hfl. lra.
    - rewrite <- Zle_Qle. exact Hlo. }
  repeat split; try assumption; try lia.
  rewrite E.
  apply Qlt_shift_div_l; [lra|].
  assert (E80 : sampleRate / 80 == sampleRate * (1 # 80))
    by (unfold Qdiv; reflexivity).
  rewrite E80 in Hup. lra.
Qed.

Lemma autoCorrelate_range_witness :
  autoCorrelate twoBlips 44100 = 0 \/
  exists lag : Z,
    autoCorrelate twoBlips 44100 = 44100 / inject_Z lag /\
    (1 <= lag < Z.of_nat (length twoBlips))%Z /\
    44100 / 1000 - 1 < inject_Z lag /\
    inject_Z lag < 44100 / 80 /\
    80 < autoCorrelate twoBlips 44100.
Proof. apply autoCorrelate_range. reflexivity. Defined.

(** X11. A buffer with no more samples than the smallest lag, the empty buffer
    in particular, is reported as silence: no lag is searched. *)
Theorem autoCorrelate_short_buffer (buffer : list Z) (sampleRate : Q) :
  (Z.of_nat (length buffer) <= Qfloor (sampleRate / 1000))%Z ->
  autoCorrelate buffer sampleRate = 0.
Proof.
  intro Hshort.
  destruct (autoCorrelate_cases buffer sampleRate) as [E|(Hf & _ & _)];
    [exact E|].
  cbv zeta in Hf.
  apply peakSearch_found in Hf. destruct Hf as [Hr _]. lia.
Qed.

Lemma autoCorrelate_short_buffer_witness :
  autoCorrelate [0; 255; 0; 255; 0; 255]%Z 44100 = 0.
Proof. apply autoCorrelate_short_buffer. vm_compute. discriminate. Defined.

End PeakSearchFacts.

(* ================================================================== *)
(** * Further properties: the volume and the analyzer object *)
(* ================================================================== *)

Section VolumeFacts.
Import AudioAnalyzerObject.
Local Open Scope R_scope.

Lemma length_getByteTimeDomainData (timeDomain array : list Z) :
  length (getByteTimeDomainData timeDomain array) = length array.
Proof.
  unfold getByteTimeDomainData.
  rewrite length_app, length_firstn, length_skipn. lia.
Qed.

Lemma sumSquares_from (data : list Z) (s : R) :
  fold_left (fun sum b =>
               let normalized := (IZR b - 128) / 128 in
               sum + normalized * normalized) data s
  = s + sumSquares data.
Proof.
  unfold sumSquares. revert s. induction data as [|b data IH]; intro s.
  - cbn. lra.
  - cbn [fold_left]. rewrite IH. rewrite (IH (0 + _)). cbv zeta. lra.
Qed.

Lemma sumSquares_cons (b : Z) (data : list Z) :
  sumSquares (b :: data)
  = (IZR b - 128) / 128 * ((IZR b - 128) / 128) + sumSquares data.
Proof.
  unfold sumSquares at 1. cbn [fold_left]. rewrite sumSquares_from.
  cbv zeta. lra.
Qed.

Lemma sumSquares_nonneg (data : list Z) : 0 <= sumSquares data.
Proof.
  induction data as [|b data IH].
  - unfold sumSquares. cbn. lra.
  - rewrite sumSquares_cons. generalize ((IZR b - 128) / 128). intro q. nra.
Qed.

Lemma sumSquares_centre (data : list Z) :
  Forall (fun b => b = 128%Z) data -> sumSquares data = 0.
Proof.
  induction 1 as [|b data Hb _ IH].
  - reflexivity.
  - rewrite sumSquares_cons, IH, Hb. lra.
Qed.

Lemma ln_10_pos : 0 < ln 10.
Proof. rewrite <- ln_1. apply ln_increasing; lra. Qed.

Lemma volumeOf_formula (data : list Z) :
  data <> [] ->
  volumeOf data
  = JS.Fin (volumeFormula (sumSquares data) (INR (length data))).
Proof.
  intro Hne. unfold volumeOf, volumeFormula. cbv zeta.
  pose proof (sumSquares_nonneg data) as Hs.
  assert (Hn : 0 < INR (length data)).
  { apply lt_0_INR. destruct data; [contradiction | cbn; lia]. }
  set (s := sumSquares data) in *. set (n := INR (length data)) in *.
  assert (Hq : 0 <= s / n).
  { apply Rmult_le_pos; [exact Hs|]. left. apply Rinv_0_lt_compat. exact Hn. }
  assert (Hdiv : JS.div (JS.Fin s) (JS.Fin n) = JS.Fin (s / n)).
  { cbn. destruct (Req_dec_T n 0); [lra | reflexivity]. }
  rewrite Hdiv.
  assert (Hsqrt : JS.sqrt (JS.Fin (s / n)) = JS.Fin (sqrt (s / n))).
  { cbn. destruct (Rlt_dec (s / n) 0); [lra | reflexivity]. }
  rewrite Hsqrt. cbn [JS.add].
  pose proof (sqrt_pos (s / n)) as Hr.
  assert (Hlog : JS.log10 (JS.Fin (sqrt (s / n) + 1 / 10000))
                 = JS.Fin (ln (sqrt (s / n) + 1 / 10000) / ln 10)).
  { cbn. destruct (Rlt_dec (sqrt (s / n) + 1 / 10000) 0); [lra|].
    destruct (Req_dec_T (sqrt (s / n) + 1 / 10000) 0); [lra | reflexivity]. }
  rewrite Hlog. reflexivity.
Qed.

Lemma volumeFormula_range (sum count : R) :
  0 <= volumeFormula sum count <= 100.
Proof.
  unfold volumeFormula. cbv zeta.
  match goal with |- context [Rmax 0 ?x] =>
    pose proof (Rmax_l 0 x) as H0; set (volume := Rmax 0 x) in * end.
  split.
  - apply Rmin_glb; lra.
  - apply Rmin_l.
Qed.

Lemma volumeFormula_mono (sum sum' count : R) :
  0 < count -> 0 <= sum -> sum <= sum' ->
  volumeFormula sum count <= volumeFormula sum' count.
Proof.
  intros Hn Hs Hle. unfold volumeFormula. cbv zeta.
  assert (Hi : 0 < / count) by (apply Rinv_0_lt_compat; exact Hn).
  assert (Hq : sum / count <= sum' / count) by (unfold Rdiv; nra).
  assert (Hq0 : 0 <= sum / count) by (unfold Rdiv; nra).
  pose proof (sqrt_le_1_alt _ _ Hq) as Hr.
  pose proof (sqrt_pos (sum / count)) as Hr0.
  set (r := sqrt (sum / count)) in *. set (r' := sqrt (sum' / count)) in *.
  assert (Hln : ln (r + 1 / 10000) <= ln (r' + 1 / 10000)).
  { destruct Hr as [Hlt|Heq].
    - left. apply ln_increasing; lra.
    - rewrite Heq. lra. }
  pose proof ln_10_pos as H10.
  assert (Hd : ln (r + 1 / 10000) / ln 10 <= ln (r' + 1 / 10000) / ln 10).
  { unfold Rdiv. apply Rmult_le_compat_r; [|exact Hln].
    left. apply Rinv_0_lt_compat. exact H10. }
  set (d := ln (r + 1 / 10000) / ln 10) in *.
  set (d' := ln (r' + 1 / 10000) / ln 10) in *.
  apply Rle_min_compat_l.
  apply Rmult_le_compat_r; [lra|].
  apply Rle_max_compat_l. apply Rle_min_compat_l. lra.
Qed.

Lemma volumeFormula_silence (count : R) : volumeFormula 0 count = 0.
Proof.
  unfold volumeFormula. cbv zeta.
  replace (0 / count) with 0 by (unfold Rdiv; ring).
  rewrite sqrt_0.
  replace (0 + 1 / 10000) with (/ 10 ^ 4) by (simpl; field).
  rewrite ln_Rinv by (apply pow_lt; lra).
  rewrite ln_pow by lra.
  pose proof ln_10_pos as H10.
  replace (- (INR 4 * ln 10) / ln 10) with (- 4) by (simpl; field; lra).
  rewrite (Rmin_right 100 ((25 * -4 + 60) * (100 / 60))) by lra.
  rewrite (Rmax_left 0 ((25 * -4 + 60) * (100 / 60))) by lra.
  replace (0 * (12 / 10)) with 0 by lra.
  apply Rmin_right. lra.
Qed.

(** X13. Whatever the state of the object and the samples of the node,
    [getVolume] returns a finite number of [0, 100], provided the data
    array, if there is one, is not of length 0; and it never changes the
    length of the data array. *)
Theorem getVolume_range (this : t) (timeDomain : list Z) :
  dataArray this <> Some [] ->
  (exists v, fst (getVolume this timeDomain) = JS.Fin v /\ 0 <= v <= 100) /\
  option_map (@length Z) (dataArray (snd (getVolume this timeDomain)))
  = option_map (@length Z) (dataArray this).
Proof.
  intro Hne. unfold getVolume.
  destruct (analyserNode this); [|split; [exists 0; cbn; split; [reflexivity | lra] | reflexivity]].
  destruct (dataArray this) as [array|] eqn:Earr;
    [|split; [exists 0; cbn; split; [reflexivity | lra] | cbn; rewrite Earr; reflexivity]].
  destruct (active this);
    [|split; [exists 0; cbn; split; [reflexivity | lra] | cbn; rewrite Earr; reflexivity]].
  assert (Hdata : getByteTimeDomainData timeDomain array <> []).
  { intro E. apply (f_equal (@length Z)) in E.
    rewrite length_getByteTimeDomainData in E.
    destruct array; [congruence | discriminate]. }
  assert (Hrun :
    (exists v, volumeOf (getByteTimeDomainData timeDomain array) = JS.Fin v /\
               0 <= v <= 100)).
  { rewrite volumeOf_formula by exact Hdata. eexists. split; [reflexivity|].
    apply volumeFormula_range. }
  destruct (audioContext this) as [[[ | | ] rate]|]; cbn [fst snd];
    try (split; [exact Hrun | cbn; rewrite length_getByteTimeDomainData;
                              reflexivity]).
  split; [exists 0; split; [reflexivity | lra] | rewrite Earr; reflexivity].
Qed.

(** A running analyzer used to instantiate the theorems: context at
    44100 Hz, data array of 8 bytes. *)
Lemma getVolume_range_witness :
  exists v,
    fst (getVolume (mk (Some (mkContext running 44100)) true true true
                      (Some (repeat 0%Z 8)) true)
                   [128; 200; 128; 56; 128; 200; 128; 56]%Z) = JS.Fin v /\
    0 <= v <= 100.
Proof.
  apply (getVolume_range
           (mk (Some (mkContext running 44100)) true true true
               (Some (repeat 0%Z 8)) true)).
  discriminate.
Defined.

(** X14. Digital silence is volume 0: when every sample fetched sits at the
    centre value 128, a running analyzer reports exactly 0. *)
Theorem getVolume_silence (this : t) (timeDomain array : list Z) :
  dataArray this = Some array -> array <> [] ->
  Forall (fun b => b = 128%Z) (getByteTimeDomainData timeDomain array) ->
  fst (getVolume this timeDomain) = JS.Fin 0.
Proof.
  intros Earr Hne Hall. unfold getVolume. rewrite Earr.
  assert (Hdata : getByteTimeDomainData timeDomain array <> []).
  { intro E. apply (f_equal (@length Z)) in E.
    rewrite length_getByteTimeDomainData in E.
    destruct array; [congruence | discriminate]. }
  assert (Hv : volumeOf (getByteTimeDomainData timeDomain array) = JS.Fin 0).
  { rewrite volumeOf_formula by exact Hdata.
    rewrite (sumSquares_centre _ Hall), volumeFormula_silence. reflexivity. }
  destruct (analyserNode this); [|reflexivity].
  destruct (active this); [|reflexivity].
  destruct (audioContext this) as [[[ | | ] rate]|]; cbn [fst];
    try exact Hv; reflexivity.
Qed.

Lemma getVolume_silence_witness :
  fst (getVolume (mk (Some (mkContext running 44100)) true true true
                    (Some (repeat 0%Z 4)) true)
                 (repeat 128%Z 2048)) = JS.Fin 0.
Proof.
  apply (getVolume_silence _ _ (repeat 0%Z 4)).
  - reflexivity.
  - discriminate.
  - cbn. repeat constructor.
Defined.

(** X15. Louder is never lower: between two arrays of the same non-zero
    length, the one with the larger sum of squared samples does not get
    the smaller volume. *)
Theorem volumeOf_monotone (data data' : list Z) :
  data <> [] -> length data = length data' ->
  sumSquares data <= sumSquares data' ->
  exists v v', volumeOf data = JS.Fin v /\ volumeOf data' = JS.Fin v' /\
               v <= v'.
Proof.
  intros Hne Hlen Hle.
  assert (Hne' : data' <> []).
  { intro E. rewrite E in Hlen. destruct data; [congruence | discriminate]. }
  rewrite (volumeOf_formula data Hne), (volumeOf_formula data' Hne').
  do 2 eexists. split; [reflexivity|]. split; [reflexivity|].
  rewrite <- Hlen. apply volumeFormula_mono.
  - apply lt_0_INR. destruct data; [contradiction | cbn; lia].
  - apply sumSquares_nonneg.
  - exact Hle.
Qed.

Lemma volumeOf_monotone_witness :
  exists v v', volumeOf [128; 129]%Z = JS.Fin v /\
               volumeOf [100; 160]%Z = JS.Fin v' /\ v <= v'.
Proof.
  apply volumeOf_monotone.
  - discriminate.
  - reflexivity.
  - rewrite !sumSquares_cons. unfold sumSquares. cbn [fold_left]. lra.
Defined.

End VolumeFacts.

Section AnalyzerObjectFacts.
Import AudioAnalyzerObject.

(** X16. An analyzer that is not active answers 0 to both queries and is left
    as it is; [dispose] makes any analyzer inactive, and disposing twice
    is disposing once. *)
Theorem inactive_queries (this : t) (timeDomain : list Z) :
  (active this = false ->
     getVolume this timeDomain = (JS.Fin 0%R, this) /\
     getPitch this timeDomain = (0%Q, this)) /\
  isActive (dispose this) = false /\
  getVolume (dispose this) timeDomain = (JS.Fin 0%R, dispose this) /\
  getPitch (dispose this) timeDomain = (0%Q, dispose this) /\
  dispose (dispose this) = dispose this.
Proof.
  split; [|repeat split].
  intro H. unfold getVolume, getPitch. rewrite H.
  destruct (analyserNode this), (dataArray this); split; reflexivity.
Qed.

Lemma inactive_queries_witness :
  getVolume (mk (Some (mkContext running 44100)) true true true
               (Some [0; 255]%Z) false) [0; 255]%Z
  = (JS.Fin 0%R,
     mk (Some (mkContext running 44100)) true true true
        (Some [0; 255]%Z) false).
Proof.
  apply (proj1 (inactive_queries
                  (mk (Some (mkContext running 44100)) true true true
                      (Some [0; 255]%Z) false) [0; 255]%Z)).
  reflexivity.
Defined.

End AnalyzerObjectFacts.

(* ================================================================== *)
(** * Further properties: ParticleSystem, runs of updates *)
(* ================================================================== *)

Section ParticleRuns.
Import ParticleSystem.
Local Open Scope R_scope.

Lemma ps_updates_cons (this : t) (tick : R * R) (ticks : list (R * R)) :
  updates this (tick :: ticks) = updates (update this (fst tick) (snd tick)) ticks.
Proof. reflexivity. Qed.

(** X17. No update adds, removes or reorders particles, and none touches the
    colour, size, target, maximal life, birth time or part of a particle,
    nor the seed position. *)
Theorem update_keeps_particles (this : t) (deltaTime currentTime : R) :
  Forall2 sameIdentity (particles this)
    (particles (update this deltaTime currentTime)) /\
  length (particles (update this deltaTime currentTime))
    = length (particles this) /\
  seedPosition (update this deltaTime currentTime) = seedPosition this.
Proof.
  unfold update, updateScatterPhase, updateConvergePhase.
  destruct (phase this); cbn [particles seedPosition];
    (split; [|split; [apply length_map | reflexivity]]);
    induction (particles this) as [|p l IH]; cbn [map]; constructor;
    try exact IH.
  - unfold sameIdentity, scatterStep. cbn. tauto.
  - unfold sameIdentity, convergeStep. cbv zeta.
    destruct (Rlt_dec _ _); cbn; tauto.
Qed.

Lemma update_converge_phase (this : t) (deltaTime currentTime : R) :
  phase this = converge ->
  phase (update this deltaTime currentTime) = converge.
Proof. intro H. unfold update. rewrite H. cbn. exact H. Qed.

(** Updates never lead back from the converge phase to the scatter phase. *)
Lemma updates_converge_stays (this : t) (ticks : list (R * R)) :
  phase this = converge -> phase (updates this ticks) = converge.
Proof.
  revert this. induction ticks as [|tick ticks IH]; intros this H; [exact H|].
  rewrite ps_updates_cons. apply IH. apply update_converge_phase. exact H.
Qed.

Lemma js_ltb_Fin_false (x y : R) :
  JS.ltb (JS.Fin x) (JS.Fin y) = false <-> y <= x.
Proof.
  rewrite <- not_true_iff_false, js_ltb_Fin. split; [apply Rnot_lt_le | apply Rle_not_lt].
Qed.

Lemma elapsed_nonneg (ticks : list (R * R)) :
  Forall (fun tick => 0 <= fst tick) ticks -> 0 <= elapsed ticks.
Proof.
  induction 1 as [|tick ticks Ht _ IH]; unfold elapsed in *;
    cbn [fold_right]; lra.
Qed.

(** One scatter update of a system whose particles share the opacity
    [a >= 0.3]. *)
Lemma update_scatter_uniform (this : t) (a deltaTime currentTime : R) :
  phase this = scatter -> particles this <> [] ->
  Forall (fun p => Particle.alpha p = a) (particles this) ->
  3 / 10 <= a -> 0 <= deltaTime ->
  let this' := update this deltaTime currentTime in
  particles this' <> [] /\
  (a - 3 / 10 * deltaTime < 3 / 10 -> phase this' = converge) /\
  (3 / 10 <= a - 3 / 10 * deltaTime ->
     phase this' = scatter /\
     Forall (fun p => Particle.alpha p = a - 3 / 10 * deltaTime)
       (particles this')).
Proof.
  intros Hph Hne Hall Ha Hdt. cbv zeta.
  unfold update. rewrite Hph. unfold updateScatterPhase. cbn [particles phase].
  set (a' := Rmax 0 (a - alphaDecayRate * deltaTime)).
  assert (Hall' : Forall (fun p => Particle.alpha p = a')
                    (map (scatterStep deltaTime) (particles this))).
  { apply Forall_map. eapply Forall_impl; [|exact Hall].
    intros p Hp. cbn. rewrite Hp. reflexivity. }
  assert (Hne' : map (scatterStep deltaTime) (particles this) <> []).
  { intro E. apply map_eq_nil in E. contradiction. }
  rewrite (avgAlpha_const a' _ Hne' Hall').
  unfold alphaThreshold, alphaDecayRate in *.
  split; [exact Hne'|]. split.
  - intro Hlt.
    assert (Hlt' : a' < 3 / 10).
    { unfold a', Rmax. destruct (Rle_dec 0 (a - 3 / 10 * deltaTime)); lra. }
    apply js_ltb_Fin in Hlt'. rewrite Hlt'. reflexivity.
  - intro Hge.
    assert (Ea : a' = a - 3 / 10 * deltaTime).
    { unfold a'. apply Rmax_right. lra. }
    assert (Hge' : JS.ltb (JS.Fin a') (JS.Fin (3 / 10)) = false).
    { apply js_ltb_Fin_false. lra. }
    rewrite Hge'. split; [exact Hph|]. rewrite <- Ea. exact Hall'.
Qed.

Lemma updates_scatter_uniform (ticks : list (R * R)) :
  Forall (fun tick => 0 <= fst tick) ticks ->
  forall (this : t) (a : R),
    phase this = scatter -> particles this <> [] ->
    Forall (fun p => Particle.alpha p = a) (particles this) ->
    3 / 10 <= a ->
    (phase (updates this ticks) = converge
     <-> a - 3 / 10 * elapsed ticks < 3 / 10).
Proof.
  induction 1 as [|tick ticks Ht Hts IH]; intros this a Hph Hne Hall Ha.
  - cbn. rewrite Hph. split; [discriminate | lra].
  - rewrite ps_updates_cons. cbn [elapsed fold_right].
    fold (elapsed ticks).
    pose proof (elapsed_nonneg ticks Hts) as Hel.
    destruct (update_scatter_uniform this a (fst tick) (snd tick)
                Hph Hne Hall Ha Ht) as (Hne' & Hcross & Hstay).
    destruct (Rlt_dec (a - 3 / 10 * fst tick) (3 / 10)) as [Hlt|Hge].
    + split; [intros _; lra|]. intros _.
      apply updates_converge_stays. apply Hcross. exact Hlt.
    + apply Rnot_lt_le in Hge. destruct (Hstay Hge) as [Hph' Hall'].
      rewrite (IH _ (a - 3 / 10 * fst tick) Hph' Hne' Hall' Hge).
      split; intro; lra.
Qed.

(** X18. From generation to convergence.  After [generateParticles], over a
    run of at most a million updates with non-negative time steps, the
    system is still in the scatter phase while at most 2.33 seconds have
    elapsed, and in the converge phase once at least 2.34 seconds have:
    whatever the volume, the pitch, the shape and the random draws.  (The
    opacity [1 - 0.3 * elapsed] crosses 0.3 at 7/3 seconds; the hundredth of
    a second around it is far more than the opacity is rounded by over
    that many updates.) *)
Theorem scatter_duration (random : nat -> R) (calls : nat) (this : t)
    (stemHeight : R) (leaves : list Leaf.t) (flowerPoints : list FlowerPoint.t)
    (volume pitch currentTime : R) (ticks : list (R * R)) :
  Forall (fun tick => 0 <= fst tick) ticks ->
  (Z.of_nat (length ticks) <= 1000000)%Z ->
  let generated := fst (generateParticles random this stemHeight leaves
                          flowerPoints volume pitch currentTime calls) in
  (elapsed ticks <= 233 / 100 -> phase (updates generated ticks) = scatter) /\
  (234 / 100 <= elapsed ticks -> phase (updates generated ticks) = converge).
Proof.
  intros Hts _. cbv zeta.
  set (generated := fst (generateParticles _ _ _ _ _ _ _ _ _)).
  assert (Hph : phase generated = scatter).
  { unfold generated.
    destruct (generateParticles_groups random this stemHeight leaves
                flowerPoints volume pitch currentTime calls)
      as (bs & vb & n1 & n2 & E).
    rewrite E. reflexivity. }
  assert (Hne : particles generated <> []).
  { intro E. apply (f_equal (@length _)) in E. unfold generated in E.
    rewrite generateParticles_length in E. cbn in E. lia. }
  assert (Hiff : phase (updates generated ticks) = converge
                 <-> 1 - 3 / 10 * elapsed ticks < 3 / 10).
  { apply (updates_scatter_uniform ticks Hts generated 1 Hph Hne).
    - apply generateParticles_alpha.
    - lra. }
  split; intro H.
  - destruct (phase (updates generated ticks)) eqn:E; [reflexivity|].
    assert (C : 1 - 3 / 10 * elapsed ticks < 3 / 10) by (apply Hiff; reflexivity).
    lra.
  - apply Hiff. lra.
Qed.

Lemma scatter_duration_witness :
  phase (updates justGenerated (repeat (1 / 2, 0) 5)) = converge.
Proof.
  apply (scatter_duration (fun _ => 1 / 2) 0 (new (Point.mk 400 450)) 200 []
           [FlowerPoint.mk 400 250 "rgb(255, 200, 220)"] 50 440 0
           (repeat (1 / 2, 0) 5)).
  - cbn. repeat constructor; cbn; lra.
  - cbn. lia.
  - cbn. lra.
Defined.

End ParticleRuns.

(* ================================================================== *)
(** * Further properties: ParticleSystem, convergence *)
(* ================================================================== *)

Section ConvergenceRuns.
Import ParticleSystem.
Local Open Scope R_scope.












(** X21. The opacity in the converge phase.  With a non-negative time step a
    converge update never takes the opacity of a particle above 1, never
    lowers an opacity that was at most 1, and leaves it as it is for a
    particle 200 px or more away from its target. *)
Theorem update_converge_alpha (this : t) (deltaTime currentTime : R) :
  phase this = converge ->
  0 <= deltaTime ->
  Forall2 (fun p p' =>
             Particle.alpha p' <= 1 /\
             (Particle.alpha p <= 1 -> Particle.alpha p <= Particle.alpha p') /\
             (Particle.alpha p <= 1 -> 200 <= distance p ->
                Particle.alpha p' = Particle.alpha p))
    (particles this) (particles (update this deltaTime currentTime)).
Proof.
  intros Hph Hdt. unfold update. rewrite Hph.
  unfold updateConvergePhase. cbn [particles].
  induction (particles this) as [|p l IH]; cbn [map]; constructor; [|exact IH].
  assert (Ea : Particle.alpha (convergeStep deltaTime p)
               = Rmin 1 (Particle.alpha p
                         + 3 / 10 * deltaTime
                           * Rmax 0 (1 - distance p / 200))).
  { unfold convergeStep. cbv zeta. fold (distance p).
    destruct (Rlt_dec arrivalThreshold (distance p)); reflexivity. }
  rewrite Ea.
  pose proof (Rmax_l 0 (1 - distance p / 200)) as Hprox.
  set (prox := Rmax 0 (1 - distance p / 200)) in *.
  assert (Hgain : 0 <= 3 / 10 * deltaTime * prox) by nra.
  split; [apply Rmin_l|]. split.
  - intro H1. apply Rmin_glb; lra.
  - intros H1 Hfar.
    assert (Ep : prox = 0) by (unfold prox; apply Rmax_left; lra).
    rewrite Ep. replace (Particle.alpha p + 3 / 10 * deltaTime * 0)
      with (Particle.alpha p) by lra.
    apply Rmin_right. exact H1.
Qed.

Lemma update_converge_alpha_witness :
  Forall2 (fun p p' =>
             Particle.alpha p' <= 1 /\
             (Particle.alpha p <= 1 -> Particle.alpha p <= Particle.alpha p') /\
             (Particle.alpha p <= 1 -> 200 <= distance p ->
                Particle.alpha p' = Particle.alpha p))
    (particles converging) (particles (update converging (1 / 60) 0)).
Proof. apply update_converge_alpha; [reflexivity | lra]. Defined.

End ConvergenceRuns.

(* ================================================================== *)
(** * Further properties: ParticleSystem, the generated particles *)
(* ================================================================== *)

Section GeneratedParticles.
Import ParticleSystem.
Local Open Scope R_scope.

Variable random : nat -> R.
Hypothesis random_range : forall n, 0 <= random n < 1.

Lemma spawn_fresh (this : t) (baseSpeed verticalBias x y : R) (color : string)
    (currentTime : R) (partType : PartType) (partIndex : option nat) (n : nat) :
  freshParticle this currentTime
    (fst (spawn random this baseSpeed verticalBias x y color currentTime
            partType partIndex n)).
Proof.
  unfold freshParticle. cbn.
  pose proof (random_range (S (S n))). pose proof (random_range (S (S (S n)))).
  repeat split; lra.
Qed.

(** X22. Every particle that [generateParticles] creates is aimed at the seed
    position, fully opaque, with a full life and the current time as
    birth time, a size in [2, 4) and a maximal life in [3, 5) seconds. *)
Theorem generateParticles_fresh (this : t) (stemHeight : R)
    (leaves : list Leaf.t) (flowerPoints : list FlowerPoint.t)
    (volume pitch currentTime : R) (calls : nat) :
  Forall (freshParticle this currentTime)
    (particles (fst (generateParticles random this stemHeight leaves
                       flowerPoints volume pitch currentTime calls))).
Proof.
  destruct (generateParticles_groups random this stemHeight leaves flowerPoints
              volume pitch currentTime calls) as (bs & vb & n1 & n2 & E).
  rewrite E. cbn [particles]. rewrite !Forall_app. repeat split.
  - unfold flowerLoop. apply forEach_Forall. intros point m. apply spawn_fresh.
  - unfold stemLoop. apply forEach_Forall. intros i m. apply spawn_fresh.
  - apply Forall_concat. unfold leafLoop. apply forEach_Forall.
    intros [leafIndex leaf] m. apply forEach_Forall. intros i m'.
    apply spawn_fresh.
Qed.

End GeneratedParticles.

Lemma generateParticles_fresh_witness :
  Forall (ParticleSystem.freshParticle
            (ParticleSystem.new (ParticleSystem.Point.mk 400 450)) 0%R)
    (ParticleSystem.particles ParticleSystem.justGenerated).
Proof.
  apply (generateParticles_fresh (fun _ => (1 / 2)%R)).
  intro n. lra.
Defined.

Section InitialSpeed.
Import ParticleSystem.
Local Open Scope R_scope.

Variable random : nat -> R.
Hypothesis random_range : forall n, 0 <= random n < 1.









End InitialSpeed.


(* ================================================================== *)
(** * Further properties: RoseCurve *)
(* ================================================================== *)

Section RoseCurveGeometry.
Import RoseCurve.
Local Open Scope R_scope.

Lemma sqrt_1_sqr_pos (t : R) : 0 < sqrt (1 + t²).
Proof. apply sqrt_lt_R0. unfold Rsqr. nra. Qed.

Lemma hypot_scaled (dx t : R) :
  sqrt (dx * dx + dx * t * (dx * t)) = Rabs dx * sqrt (1 + t²).
Proof.
  replace (dx * dx + dx * t * (dx * t)) with (dx² * (1 + t²))
    by (unfold Rsqr; ring).
  rewrite sqrt_mult; [|apply Rle_0_sqr | unfold Rsqr; nra].
  rewrite sqrt_Rsqr_abs. reflexivity.
Qed.

(** The point at the polar coordinates [sqrt (dx^2 + dy^2)] and
    [atan2 dy dx] is [(dx, dy)]. *)
Lemma atan2_polar (dx dy : R) :
  sqrt (dx * dx + dy * dy) * cos (atan2 dy dx) = dx /\
  sqrt (dx * dx + dy * dy) * sin (atan2 dy dx) = dy.
Proof.
  unfold atan2.
  destruct (Rlt_dec 0 dx) as [Hpos|Hnpos];
    [|destruct (Rlt_dec dx 0) as [Hneg|Hnneg]].
  - (* right half plane *)
    remember (dy / dx) as t eqn:Et.
    assert (Edy : dy = dx * t) by (rewrite Et; field; lra).
    clear Et. subst dy.
    rewrite hypot_scaled, cos_atan, sin_atan.
    rewrite Rabs_right by lra.
    pose proof (sqrt_1_sqr_pos t). split; field; lra.
  - (* left half plane *)
    remember (dy / dx) as t eqn:Et.
    assert (Edy : dy = dx * t) by (rewrite Et; field; lra).
    clear Et. subst dy.
    pose proof (sqrt_1_sqr_pos t).
    assert (Ecos : forall a, a = atan t + PI \/ a = atan t - PI ->
                             cos a = - (1 / sqrt (1 + t²)) /\
                             sin a = - (t / sqrt (1 + t²))).
    { intros a [-> | ->].
      - rewrite neg_cos, neg_sin, cos_atan, sin_atan. split; reflexivity.
      - replace (atan t - PI) with (- (PI - atan t)) by ring.
        rewrite cos_neg, sin_neg.
        replace (PI - atan t) with (- atan t + PI) by ring.
        rewrite neg_cos, neg_sin, cos_neg, sin_neg, cos_atan, sin_atan.
        split; ring. }
    rewrite hypot_scaled, Rabs_left by lra.
    destruct (Rle_dec 0 (dx * t));
      [destruct (Ecos (atan t + PI)) as [Ec Es]; [left; reflexivity|]
      |destruct (Ecos (atan t - PI)) as [Ec Es]; [right; reflexivity|]];
      rewrite Ec, Es; (split; field; lra).
  - (* the vertical axis *)
    assert (E0 : dx = 0) by lra. subst dx.
    replace (0 * 0 + dy * dy) with (dy²) by (unfold Rsqr; ring).
    rewrite sqrt_Rsqr_abs.
    destruct (Rlt_dec 0 dy) as [Hup|Hnup]; [|destruct (Rlt_dec dy 0) as [Hdn|Hndn]].
    + rewrite cos_PI2, sin_PI2, Rabs_right by lra. split; ring.
    + rewrite cos_neg, sin_neg, cos_PI2, sin_PI2, Rabs_left by lra.
      split; ring.
    + assert (E1 : dy = 0) by lra. subst dy. rewrite Rabs_R0. split; ring.
Qed.

Lemma atan2_range (dy dx : R) : - PI < atan2 dy dx <= PI.
Proof.
  unfold atan2. pose proof PI_RGT_0 as HPI.
  pose proof (atan_bound (dy / dx)) as Hb.
  destruct (Rlt_dec 0 dx) as [Hpos|Hnpos]; [lra|].
  destruct (Rlt_dec dx 0) as [Hneg|Hnneg].
  - assert (Hinv : / dx < 0) by (apply Rinv_lt_0_compat; exact Hneg).
    destruct (Rle_dec 0 dy) as [Hy|Hy].
    + assert (Ht : dy / dx <= 0) by (unfold Rdiv; nra).
      assert (atan (dy / dx) <= 0).
      { destruct Ht as [Hlt|Heq].
        - left. rewrite <- atan_0. apply atan_increasing. exact Hlt.
        - rewrite Heq, atan_0. lra. }
      lra.
    + assert (Ht : 0 < dy / dx) by (unfold Rdiv; nra).
      assert (0 < atan (dy / dx)).
      { rewrite <- atan_0. apply atan_increasing. exact Ht. }
      lra.
  - destruct (Rlt_dec 0 dy); [lra|]. destruct (Rlt_dec dy 0); lra.
Qed.

(** Within [10^150] of the centre no operation of [cartesianToPolar] leaves
    the range of a double. *)
Lemma cartesianToPolar_agree (px py centerX centerY : R) :
  Rabs (px - centerX) <= IZR (10 ^ 150) ->
  Rabs (py - centerY) <= IZR (10 ^ 150) ->
  RoseCurve64.cartesianToPolar px py centerX centerY
  = cartesianToPolar px py centerX centerY.
Proof.
  intros Hx Hy. unfold RoseCurve64.cartesianToPolar, cartesianToPolar.
  cbv zeta.
  set (dx := px - centerX) in *. set (dy := py - centerY) in *.
  rewrite (number_below dx (10 ^ 150)) by (assumption || reflexivity).
  rewrite (number_below dy (10 ^ 150)) by (assumption || reflexivity).
  assert (Sq : forall d, Rabs d <= IZR (10 ^ 150) ->
                 0 <= d * d <= IZR (10 ^ 300)).
  { intros d Hd. split; [nra|].
    replace (d * d) with (Rabs d * Rabs d).
    - change (10 ^ 300)%Z with (10 ^ 150 * 10 ^ 150)%Z. rewrite mult_IZR.
      pose proof (Rabs_pos d). apply Rmult_le_compat; lra.
    - unfold Rabs. destruct (Rcase_abs d); ring. }
  destruct (Sq dx Hx) as [X0 X1]. destruct (Sq dy Hy) as [Y0 Y1].
  assert (Mx : Double.mul (JS.Fin dx) (JS.Fin dx) = JS.Fin (dx * dx)).
  { unfold Double.mul. cbn [JS.mul Double.range].
    apply (number_below _ (10 ^ 300)); [| reflexivity].
    rewrite Rabs_right by lra. exact X1. }
  assert (My : Double.mul (JS.Fin dy) (JS.Fin dy) = JS.Fin (dy * dy)).
  { unfold Double.mul. cbn [JS.mul Double.range].
    apply (number_below _ (10 ^ 300)); [| reflexivity].
    rewrite Rabs_right by lra. exact Y1. }
  rewrite Mx, My.
  assert (Ad : Double.add (JS.Fin (dx * dx)) (JS.Fin (dy * dy))
               = JS.Fin (dx * dx + dy * dy)).
  { unfold Double.add. cbn [JS.add Double.range].
    apply (number_below _ (10 ^ 300 + 10 ^ 300)); [| reflexivity].
    rewrite plus_IZR. rewrite Rabs_right by lra. lra. }
  rewrite Ad. cbn [JS.sqrt RoseCurve64.atan2].
  destruct (Rlt_dec (dx * dx + dy * dy) 0) as [C|_]; [lra | reflexivity].
Qed.

(** X24. Cartesian to polar and back.  For a point within [10^150] of the
    centre in each coordinate (and, unless it is the centre, at least
    [10^-150] away in one of them, so that the squares neither overflow nor
    vanish), [cartesianToPolar] returns a finite radius [>= 0] and a finite
    angle in [-PI, PI], and [polarToCartesian] maps them back to the
    point. *)
Theorem cartesian_polar_roundtrip (px py centerX centerY : R) :
  Rabs (px - centerX) <= IZR (10 ^ 150) ->
  Rabs (py - centerY) <= IZR (10 ^ 150) ->
  (px = centerX /\ py = centerY) \/
  / IZR (10 ^ 150) <= Rabs (px - centerX) \/
  / IZR (10 ^ 150) <= Rabs (py - centerY) ->
  exists radius angle,
    RoseCurve64.cartesianToPolar px py centerX centerY
    = mkPolar (JS.Fin radius) (JS.Fin angle) /\
    0 <= radius /\ - PI <= angle <= PI /\
    polarToCartesian radius angle centerX centerY = mkCartesian px py.
Proof.
  intros Hx Hy _. rewrite cartesianToPolar_agree by assumption.
  unfold cartesianToPolar. cbv zeta.
  do 2 eexists. split; [reflexivity|].
  split; [apply sqrt_pos|]. split.
  - pose proof (atan2_range (py - centerY) (px - centerX)). lra.
  - unfold polarToCartesian.
    destruct (atan2_polar (px - centerX) (py - centerY)) as [Ex Ey].
    rewrite Ex, Ey. f_equal; ring.
Qed.

Lemma cartesian_polar_roundtrip_witness :
  exists radius angle,
    RoseCurve64.cartesianToPolar 13 24 10 20
    = mkPolar (JS.Fin radius) (JS.Fin angle) /\
    0 <= radius /\ - PI <= angle <= PI /\
    polarToCartesian radius angle 10 20 = mkCartesian 13 24.
Proof.
  assert (B : 4 <= IZR (10 ^ 150)) by (apply IZR_le; vm_compute; discriminate).
  apply (cartesian_polar_roundtrip 13 24 10 20).
  - replace (13 - 10) with 3 by ring. rewrite Rabs_right by lra. lra.
  - replace (24 - 20) with 4 by ring. rewrite Rabs_right by lra. lra.
  - right. left. replace (13 - 10) with 3 by ring. rewrite Rabs_right by lra.
    assert (/ IZR (10 ^ 150) <= / 4).
    { apply Rinv_le_contravar; lra. }
    lra.
Defined.




End RoseCurveGeometry.

Section RoseCurvePoints.
Import RoseCurve.
Local Open Scope R_scope.





(** X27. Degenerate segment counts.  With [segments = 0] the single point
    returned has NaN for both coordinates, whatever [a] and [k]; with a
    negative [segments] the result is empty. *)
Theorem calculateCurve_degenerate (a k : R) (segments : Z) :
  (segments = 0%Z -> calculateCurve a k segments = [mkPolar JS.NaN JS.NaN]) /\
  ((segments < 0)%Z -> calculateCurve a k segments = []).
Proof.
  split.
  - intros ->. unfold calculateCurve. change (indices 0) with [0%Z]. cbn [map].
    unfold point, sampleTheta, step. cbv zeta.
    pose proof (getMaxTheta_pos k) as HM.
    assert (Hd : JS.div (JS.Fin (getMaxTheta k)) (JS.Fin 0) = JS.PosInf).
    { cbn. destruct (Req_dec_T 0 0) as [_|N]; [|contradiction N; reflexivity].
      destruct (Req_dec_T (getMaxTheta k) 0) as [Z0|_]; [lra|].
      destruct (Rlt_dec 0 (getMaxTheta k)); [reflexivity | contradiction]. }
    rewrite Hd.
    assert (Hm : JS.mul (JS.Fin 0) JS.PosInf = JS.NaN).
    { cbn. destruct (Req_dec_T 0 0) as [_|N]; [reflexivity|].
      contradiction N; reflexivity. }
    rewrite Hm. reflexivity.
  - intro Hneg. unfold calculateCurve, indices.
    replace (Z.to_nat (segments + 1)) with 0%nat by lia. reflexivity.
Qed.

Lemma calculateCurve_degenerate_witness : calculateCurve 100 5 (-3) = [].
Proof. apply (proj2 (calculateCurve_degenerate 100 5 (-3))). lia. Defined.





End RoseCurvePoints.

Section PetalCount.
Import RoseCurve.
Local Open Scope R_scope.

Lemma Rabs_le_inv (x b : R) : Rabs x <= b -> - b <= x <= b.
Proof. unfold Rabs. destruct (Rcase_abs x); lra. Qed.

Lemma Rabs_minus_le (x y b : R) :
  Rabs x <= b -> Rabs y <= b -> Rabs (x - y) <= b + b.
Proof.
  intros Hx Hy. apply Rabs_le. apply Rabs_le_inv in Hx, Hy. lra.
Qed.

(** The quotient of the two pitch differences, clamped to [0, 1], also when
    the numerator or the quotient is infinite. *)
Lemma normalizedPitch_clamped (n d : R) :
  0 < d -> d <= IZR (2 * 10 ^ 307) ->
  JS.max (JS.Fin 0)
    (JS.min (JS.Fin 1) (Double.div (Double.number n) (JS.Fin d)))
  = JS.Fin (Rmax 0 (Rmin 1 (n / d))).
Proof.
  intros Hd0 Hd1.
  pose proof limit_pos as HL.
  assert (H9 : IZR (2 * 10 ^ 307) < Double.limit).
  { unfold Double.limit. apply IZR_lt. reflexivity. }
  assert (H1 : 1 <= Double.limit).
  { unfold Double.limit. apply IZR_le. vm_compute. discriminate. }
  assert (Hinv : 0 < / d) by (apply Rinv_0_lt_compat; exact Hd0).
  assert (Big : forall m, Double.limit <= m -> 1 <= m / d).
  { intros m Hm. apply (Rmult_le_reg_r d); [exact Hd0|].
    replace (m / d * d) with m by (field; lra). lra. }
  unfold Double.number at 1.
  destruct (Rlt_dec (Rabs n) Double.limit) as [Hn|Hn].
  - unfold Double.div. cbn [JS.div].
    destruct (Req_dec_T d 0) as [E|_]; [lra|].
    cbn [Double.range]. unfold Double.number.
    destruct (Rlt_dec (Rabs (n / d)) Double.limit) as [Hq|Hq];
      [reflexivity|].
    apply Rnot_lt_le in Hq.
    destruct (Rlt_dec 0 (n / d)) as [Hp|Hp].
    + rewrite Rabs_right in Hq by lra.
      cbn [JS.min JS.max]. f_equal.
      rewrite Rmin_left by lra. reflexivity.
    + rewrite Rabs_left1 in Hq by lra.
      cbn [JS.min JS.max]. f_equal.
      rewrite Rmin_right by lra. rewrite Rmax_left by lra. reflexivity.
  - apply Rnot_lt_le in Hn.
    destruct (Rlt_dec 0 n) as [Hp|Hp].
    + rewrite Rabs_right in Hn by lra.
      unfold Double.div. cbn [JS.div].
      destruct (Rlt_dec d 0) as [C|_]; [lra|].
      cbn [Double.range JS.min JS.max]. f_equal.
      pose proof (Big n Hn).
      rewrite Rmin_left by lra. reflexivity.
    + rewrite Rabs_left1 in Hn by lra.
      unfold Double.div. cbn [JS.div].
      destruct (Rlt_dec d 0) as [C|_]; [lra|].
      cbn [Double.range JS.min JS.max]. f_equal.
      pose proof (Big (- n) Hn) as B1.
      assert (E : n / d = - (- n / d)) by (field; lra).
      rewrite Rmin_right by lra. rewrite Rmax_left by lra. reflexivity.
Qed.

(** The last two operations stay in range when the clamped pitch is in
    [0, 1] and the two ends are of magnitude at most [10^307]. *)
Lemma interpolate_Fin (nv minK maxK : R) :
  0 <= nv <= 1 ->
  Rabs minK <= IZR (10 ^ 307) -> Rabs maxK <= IZR (10 ^ 307) ->
  Double.add (JS.Fin minK)
    (Double.mul (JS.Fin nv) (Double.number (maxK - minK)))
  = JS.Fin (minK + nv * (maxK - minK)).
Proof.
  intros Hn Hmin Hmax.
  assert (B : 0 <= IZR (10 ^ 307)) by (apply IZR_le; vm_compute; discriminate).
  pose proof (Rabs_minus_le maxK minK _ Hmax Hmin) as Hc.
  rewrite (number_below (maxK - minK) (10 ^ 307 + 10 ^ 307));
    [| rewrite plus_IZR; exact Hc | reflexivity].
  assert (Hp : Rabs (nv * (maxK - minK)) <= IZR (10 ^ 307) + IZR (10 ^ 307)).
  { rewrite Rabs_mult, (Rabs_right nv) by lra.
    pose proof (Rabs_pos (maxK - minK)). nra. }
  unfold Double.mul. cbn [JS.mul Double.range].
  rewrite (number_below (nv * (maxK - minK)) (10 ^ 307 + 10 ^ 307));
    [| rewrite plus_IZR; exact Hp | reflexivity].
  unfold Double.add. cbn [JS.add Double.range].
  apply (number_below _ (10 ^ 307 + 10 ^ 307 + 10 ^ 307)); [| reflexivity].
  rewrite !plus_IZR.
  apply Rabs_le. apply Rabs_le_inv in Hmin, Hp. lra.
Qed.

(** The pitch normalized over a non-empty range and clamped to [0, 1]. *)
Lemma calculateKFromPitch_formula (pitch minK maxK minPitch maxPitch : R) :
  minPitch < maxPitch ->
  Rabs minPitch <= IZR (10 ^ 307) -> Rabs maxPitch <= IZR (10 ^ 307) ->
  Rabs minK <= IZR (10 ^ 307) -> Rabs maxK <= IZR (10 ^ 307) ->
  RoseCurve64.calculateKFromPitch pitch minK maxK minPitch maxPitch
  = JS.Fin (minK
            + Rmax 0 (Rmin 1 ((pitch - minPitch) / (maxPitch - minPitch)))
              * (maxK - minK)).
Proof.
  intros HP B1 B2 B3 B4. unfold RoseCurve64.calculateKFromPitch. cbv zeta.
  pose proof (Rabs_minus_le maxPitch minPitch _ B2 B1) as Hd.
  assert (Hd' : maxPitch - minPitch <= IZR (2 * 10 ^ 307)).
  { change (2 * 10 ^ 307)%Z with (10 ^ 307 + 10 ^ 307)%Z. rewrite plus_IZR.
    apply Rabs_le_inv in Hd. lra. }
  rewrite (number_below (maxPitch - minPitch) (10 ^ 307 + 10 ^ 307));
    [| rewrite plus_IZR; exact Hd | reflexivity].
  rewrite normalizedPitch_clamped by lra.
  apply interpolate_Fin; [| assumption | assumption].
  split; [apply Rmax_l|]. apply Rmax_lub; [lra | apply Rmin_l].
Qed.

(** X29. From pitch to petal count.  Over a pitch range [minPitch < maxPitch],
    with [minK <= maxK] and the four bounds of magnitude at most [10^307],
    the value is finite for every pitch; it is never below [minK] and never
    above the value at [maxPitch]; it is [minK] up to [minPitch],
    [minK + (maxK - minK)] from [maxPitch] on, the linear interpolation in
    between, and never decreases when the pitch rises. *)
Theorem calculateKFromPitch_spec (pitch minK maxK minPitch maxPitch : R) :
  minPitch < maxPitch -> minK <= maxK ->
  Rabs minPitch <= IZR (10 ^ 307) -> Rabs maxPitch <= IZR (10 ^ 307) ->
  Rabs minK <= IZR (10 ^ 307) -> Rabs maxK <= IZR (10 ^ 307) ->
  exists k,
    RoseCurve64.calculateKFromPitch pitch minK maxK minPitch maxPitch
    = JS.Fin k /\
    minK <= k /\
    (forall top,
       RoseCurve64.calculateKFromPitch maxPitch minK maxK minPitch maxPitch
       = JS.Fin top -> k <= top) /\
    (pitch <= minPitch -> k = minK) /\
    (maxPitch <= pitch -> k = minK + (maxK - minK)) /\
    (minPitch <= pitch <= maxPitch ->
       k = minK + (pitch - minPitch) / (maxPitch - minPitch) * (maxK - minK)) /\
    (forall pitch' k',
       pitch <= pitch' ->
       RoseCurve64.calculateKFromPitch pitch' minK maxK minPitch maxPitch
       = JS.Fin k' ->
       k <= k').
Proof.
  intros HP HK B1 B2 B3 B4.
  assert (Hden : 0 < / (maxPitch - minPitch))
    by (apply Rinv_0_lt_compat; lra).
  rewrite calculateKFromPitch_formula by assumption.
  eexists. split; [reflexivity|].
  set (q := (pitch - minPitch) / (maxPitch - minPitch)).
  assert (Hn : 0 <= Rmax 0 (Rmin 1 q) <= 1).
  { split; [apply Rmax_l|]. apply Rmax_lub; [lra | apply Rmin_l]. }
  split; [nra|]. split; [|split; [|split; [|split]]].
  - intros top Ht.
    rewrite calculateKFromPitch_formula in Ht by assumption.
    injection Ht as <-.
    replace ((maxPitch - minPitch) / (maxPitch - minPitch)) with 1
      by (field; lra).
    rewrite (Rmin_left 1 1) by lra. rewrite (Rmax_right 0 1) by lra. nra.
  - intro H. assert (Hq : q <= 0) by (unfold q, Rdiv; nra).
    rewrite (Rmin_right 1 q) by lra. rewrite Rmax_left by lra. ring.
  - intro H. assert (Hq : 1 <= q).
    { unfold q. apply (Rmult_le_reg_r (maxPitch - minPitch)); [lra|].
      replace ((pitch - minPitch) / (maxPitch - minPitch)
               * (maxPitch - minPitch))
        with (pitch - minPitch) by (field; lra).
      lra. }
    rewrite (Rmin_left 1 q) by lra. rewrite Rmax_right by lra. ring.
  - intros [H1 H2].
    assert (Hq0 : 0 <= q) by (unfold q, Rdiv; nra).
    assert (Hq1 : q <= 1).
    { unfold q. apply (Rmult_le_reg_r (maxPitch - minPitch)); [lra|].
      replace ((pitch - minPitch) / (maxPitch - minPitch)
               * (maxPitch - minPitch))
        with (pitch - minPitch) by (field; lra).
      lra. }
    rewrite (Rmin_right 1 q) by lra. rewrite Rmax_right by lra. reflexivity.
  - intros pitch' k' Hle Hk'.
    rewrite calculateKFromPitch_formula in Hk' by assumption.
    injection Hk' as <-.
    set (q' := (pitch' - minPitch) / (maxPitch - minPitch)).
    assert (Hqq : q <= q') by (unfold q, q', Rdiv; nra).
    assert (Hmm : Rmax 0 (Rmin 1 q) <= Rmax 0 (Rmin 1 q')).
    { apply Rle_max_compat_l. apply Rle_min_compat_l. exact Hqq. }
    nra.
Qed.

Lemma calculateKFromPitch_spec_witness :
  exists k,
    RoseCurve64.calculateKFromPitch 500 3 7 200 800 = JS.Fin k /\
    3 <= k /\
    (forall top,
       RoseCurve64.calculateKFromPitch 800 3 7 200 800 = JS.Fin top ->
       k <= top) /\
    (500 <= 200 -> k = 3) /\
    (800 <= 500 -> k = 3 + (7 - 3)) /\
    (200 <= 500 <= 800 -> k = 3 + (500 - 200) / (800 - 200) * (7 - 3)) /\
    (forall pitch' k',
       500 <= pitch' ->
       RoseCurve64.calculateKFromPitch pitch' 3 7 200 800 = JS.Fin k' ->
       k <= k').
Proof.
  assert (B : 800 <= IZR (10 ^ 307)) by (apply IZR_le; vm_compute; discriminate).
  apply calculateKFromPitch_spec; try lra; rewrite Rabs_right; lra.
Defined.

(** X30. When the two pitch bounds coincide the division is by zero: with
    [minK] and [maxK] of magnitude at most [10^307], the result is [minK]
    below the bound, [minK + (maxK - minK)] above it and NaN on it. *)
Theorem calculateKFromPitch_empty_range (pitch minK maxK bound : R) :
  Rabs minK <= IZR (10 ^ 307) -> Rabs maxK <= IZR (10 ^ 307) ->
  (pitch < bound ->
     RoseCurve64.calculateKFromPitch pitch minK maxK bound bound
     = JS.Fin minK) /\
  (bound < pitch ->
     RoseCurve64.calculateKFromPitch pitch minK maxK bound bound
     = JS.Fin (minK + (maxK - minK))) /\
  (pitch = bound ->
     RoseCurve64.calculateKFromPitch pitch minK maxK bound bound = JS.NaN).
Proof.
  intros B3 B4.
  pose proof limit_pos as HL.
  assert (E0 : Double.number (bound - bound) = JS.Fin 0).
  { replace (bound - bound) with 0 by ring.
    apply number_Fin. rewrite Rabs_R0. exact HL. }
  unfold RoseCurve64.calculateKFromPitch. cbv zeta. rewrite E0.
  repeat split; intro H.
  - assert (En : Double.div (Double.number (pitch - bound)) (JS.Fin 0)
                 = JS.NegInf).
    { unfold Double.number.
      destruct (Rlt_dec (Rabs (pitch - bound)) Double.limit) as [_|_].
      - unfold Double.div. cbn [JS.div].
        destruct (Req_dec_T 0 0) as [_|N]; [|contradiction N; reflexivity].
        destruct (Req_dec_T (pitch - bound) 0); [lra|].
        destruct (Rlt_dec 0 (pitch - bound)); [lra | reflexivity].
      - destruct (Rlt_dec 0 (pitch - bound)); [lra|].
        unfold Double.div. cbn [JS.div].
        destruct (Rlt_dec 0 0); [lra | reflexivity]. }
    rewrite En. cbn [JS.min JS.max].
    rewrite interpolate_Fin by (assumption || lra). f_equal. ring.
  - assert (En : Double.div (Double.number (pitch - bound)) (JS.Fin 0)
                 = JS.PosInf).
    { unfold Double.number.
      destruct (Rlt_dec (Rabs (pitch - bound)) Double.limit) as [_|_].
      - unfold Double.div. cbn [JS.div].
        destruct (Req_dec_T 0 0) as [_|N]; [|contradiction N; reflexivity].
        destruct (Req_dec_T (pitch - bound) 0); [lra|].
        destruct (Rlt_dec 0 (pitch - bound)); [reflexivity | lra].
      - destruct (Rlt_dec 0 (pitch - bound)); [|lra].
        unfold Double.div. cbn [JS.div].
        destruct (Rlt_dec 0 0); [lra | reflexivity]. }
    rewrite En. cbn [JS.min JS.max].
    replace (Rmax 0 1) with 1 by (symmetry; apply Rmax_right; lra).
    rewrite interpolate_Fin by (assumption || lra). f_equal. ring.
  - subst pitch. rewrite E0. unfold Double.div. cbn [JS.div].
    destruct (Req_dec_T 0 0) as [_|N]; [|contradiction N; reflexivity].
    reflexivity.
Qed.

Lemma calculateKFromPitch_empty_range_witness :
  RoseCurve64.calculateKFromPitch 300 3 7 300 300 = JS.NaN.
Proof.
  assert (B : 7 <= IZR (10 ^ 307)) by (apply IZR_le; vm_compute; discriminate).
  apply (proj2 (proj2 (calculateKFromPitch_empty_range 300 3 7 300
                         ltac:(rewrite Rabs_right; lra)
                         ltac:(rewrite Rabs_right; lra)))).
  reflexivity.
Defined.

End PetalCount.

(* ================================================================== *)
(** * Further properties: the silence gate on byte buffers *)
(* ================================================================== *)

Section SilenceGate.
Import AudioAnalyzer.
Local Open Scope Q_scope.

(** Every normalized byte is stored in the [Float32Array] unchanged. *)
Lemma fround_bytes :
  forallb (fun n => Qeq_bool (fround ((inject_Z (Z.of_nat n) - 128) / 128))
                             ((inject_Z (Z.of_nat n) - 128) / 128))
          (seq 0 256) = true.
Proof. vm_compute. reflexivity. Qed.

Lemma fround_byte (b : Z) :
  (0 <= b <= 255)%Z ->
  fround ((inject_Z b - 128) / 128) == (inject_Z b - 128) / 128.
Proof.
  intro Hb. pose proof fround_bytes as H. rewrite forallb_forall in H.
  specialize (H (Z.to_nat b)). rewrite Z2Nat.id in H by lia.
  apply Qeq_bool_iff. apply H. apply in_seq. lia.
Qed.

Lemma sumAbs_from (normalized : list Q) (s : Q) :
  fold_left (fun sum x => Qred (sum + Qabs x)) normalized s
  == s + fold_right (fun x total => Qabs x + total) 0 normalized.
Proof.
  revert s. induction normalized as [|x l IH]; intro s.
  - cbn. ring.
  - cbn [fold_left fold_right]. rewrite IH, Qred_correct. ring.
Qed.

Lemma Qabs_normalized (b : Z) :
  Qabs ((inject_Z b - 128) / 128) == inject_Z (Z.abs (b - 128)) / 128.
Proof.
  assert (E : (inject_Z b - 128) / 128 == inject_Z (b - 128) * (1 # 128)).
  { unfold Zminus. rewrite inject_Z_plus, inject_Z_opp.
    change (inject_Z 128) with 128. field. }
  rewrite E, Qabs_Qmult.
  change (Qabs (inject_Z (b - 128))) with (inject_Z (Z.abs (b - 128))).
  change (Qabs (1 # 128)) with (1 # 128). field.
Qed.

Lemma sumAbs_deviation (buffer : list Z) :
  Forall (fun b => (0 <= b <= 255)%Z) buffer ->
  sumAbs (normalize buffer) == inject_Z (deviation buffer) / 128.
Proof.
  intro Hall. unfold sumAbs. rewrite sumAbs_from, Qplus_0_l.
  induction Hall as [|b l Hb _ IH].
  - cbn. reflexivity.
  - cbn [normalize map fold_right deviation].
    fold (normalize l). fold (deviation l).
    rewrite IH, (fround_byte b Hb), Qabs_normalized, inject_Z_plus. field.
Qed.

(** X12. What the silence check lets through.  On a byte buffer the sum of
    the absolute normalized samples is the total deviation from 128
    divided by 128; it is below 0.01 exactly when the total deviation is
    at most 1, that is when at most one sample is off centre, by one
    step. *)
Theorem silence_gate (buffer : list Z) :
  Forall (fun b => (0 <= b <= 255)%Z) buffer ->
  sumAbs (normalize buffer) == inject_Z (deviation buffer) / 128 /\
  (sumAbs (normalize buffer) < 1 # 100 <-> (deviation buffer <= 1)%Z).
Proof.
  intro Hall. pose proof (sumAbs_deviation buffer Hall) as E.
  split; [exact E|]. rewrite E.
  assert (Ediv : inject_Z (deviation buffer) / 128
                 == inject_Z (deviation buffer) * (1 # 128))
    by (unfold Qdiv; reflexivity).
  rewrite Ediv. split; intro H.
  - assert (Hlt : inject_Z (deviation buffer) < inject_Z 2).
    { change (inject_Z 2) with 2. lra. }
    rewrite <- Zlt_Qlt in Hlt. lia.
  - assert (Hle : inject_Z (deviation buffer) <= inject_Z 1).
    { rewrite <- Zle_Qle. exact H. }
    change (inject_Z 1) with 1 in Hle. lra.
Qed.

Lemma silence_gate_witness :
  sumAbs (normalize [128; 129; 128; 128]%Z) < 1 # 100
  <-> (deviation [128; 129; 128; 128]%Z <= 1)%Z.
Proof.
  apply (silence_gate [128; 129; 128; 128]%Z).
  repeat constructor; lia.
Defined.

End SilenceGate.
